(** * Modern-Text-Tokenizer: a shallow embedding of [MecanikDev::TextTokenizer]

    The development follows [Modern-Text-Tokenizer.hpp].  A [std::string] or
    [std::string_view] is a [string] (a sequence of 8-bit [ascii] bytes), an
    [unsigned char] is the [N] below 256 read from a byte, a [size_t] index is
    a [nat], an [int] is a [Z] kept in the 32-bit range by [int_wrap], the
    [std::unordered_set<char>] of delimiters is a [gset ascii], the
    [std::unordered_map<std::string, int>] is a [gmap string Z] and the
    [std::vector]s are lists.  Loops are run by [while_loop], whose big-step
    reading is [while_runs]. *)

From Stdlib Require Import ZArith NArith Ascii String List Lia.
From stdpp Require Import base option list gmap strings sorting.

Local Open Scope string_scope.
Local Open Scope list_scope.
Local Open Scope nat_scope.

(** ** Loops *)

Section While.
Context {St : Type}.
Variable cond : St -> bool.
Variable body : St -> St.

(** [while (cond) body] run for at most [fuel] iterations. *)
Fixpoint while_loop (fuel : nat) (s : St) : St :=
  match fuel with
  | O => s
  | S fuel' => if cond s then while_loop fuel' (body s) else s
  end.

(** The loop started in [s] exits in [s']. *)
Inductive while_runs : St -> St -> Prop :=
| while_exit s : cond s = false -> while_runs s s
| while_iter s s' : cond s = true -> while_runs (body s) s' -> while_runs s s'.
End While.

(** ** Machine integers *)

Definition int_min : Z := (- 2 ^ 31)%Z.
Definition int_max : Z := (2 ^ 31 - 1)%Z.

(** Two's-complement reduction into the range of [int].  The C++ standard
    leaves signed overflow undefined; where a theorem depends on the absence
    of overflow it says so. *)
Definition int_wrap (z : Z) : Z := ((z + 2 ^ 31) mod 2 ^ 32 - 2 ^ 31)%Z.

Definition int_add (a b : Z) : Z := int_wrap (a + b).
Definition int_sub (a b : Z) : Z := int_wrap (a - b).

(** [static_cast<int>(n)] for a [size_t] n. *)
Definition int_of_size (n : nat) : Z := int_wrap (Z.of_nat n).

(** The implicit conversion of an [int] to a 64-bit [size_t]. *)
Definition size_of_int (z : Z) : Z := (z mod 2 ^ 64)%Z.

(** ** Bytes and strings *)

(** [unsigned char c = text[i]] *)
Definition uchar (c : ascii) : N := N_of_ascii c.

(** [text[i]]; every access in the source is guarded by [i < text.size()]. *)
Definition char_at (text : string) (i : nat) : ascii :=
  match String.get i text with
  | Some c => c
  | None => zero
  end.

(** [text.substr(pos, count)] for [pos <= text.size()]. *)
Definition substr (text : string) (pos count : nat) : string :=
  substring pos count text.

(** [text.substr(pos)] *)
Definition substr_from (text : string) (pos : nat) : string :=
  substring pos (String.length text - pos) text.

(** [result += c] *)
Definition push_char (result : string) (c : ascii) : string :=
  result +:+ String c EmptyString.

Definition string_empty (s : string) : bool :=
  match s with
  | EmptyString => true
  | String _ _ => false
  end.

(** The bytes of a string, as a list. *)
Abbreviation bytes := list_ascii_of_string.

(** [v.push_back(x)] *)
Definition push_back {A : Type} (v : list A) (x : A) : list A := v ++ [x].

(** ** UTF-8 helpers *)

Definition utf8_char_length (c : N) : nat :=
  if (N.land c 0x80 =? 0)%N then 1
  else if (N.land c 0xE0 =? 0xC0)%N then 2
  else if (N.land c 0xF0 =? 0xE0)%N then 3
  else if (N.land c 0xF8 =? 0xF0)%N then 4
  else 1.

(** [std::ispunct] in the "C" locale, the one in effect since the program
    never calls [setlocale]: the bytes 33-47, 58-64, 91-96 and 123-126. *)
Definition is_ascii_punct (c : ascii) : bool :=
  let n := uchar c in
  ((33 <=? n) && (n <=? 47) || (58 <=? n) && (n <=? 64) ||
   (91 <=? n) && (n <=? 96) || (123 <=? n) && (n <=? 126))%N.

(** [std::tolower] in the "C" locale: only 'A'..'Z' change. *)
Definition to_ascii_lower (c : ascii) : ascii :=
  let n := uchar c in
  if ((65 <=? n) && (n <=? 90))%N then ascii_of_N (n + 32) else c.

(** ** The tokenizer object *)

Record TextTokenizer : Type := mkTextTokenizer {
  delimiters_ : gset ascii;
  lowercase_ : bool;
  keep_punctuation_ : bool;
  split_on_punctuation_ : bool;
  vocab_to_id_ : gmap string Z;
  id_to_vocab_ : list string;
  unk_token_ : string;
  pad_token_ : string;
  cls_token_ : string;
  sep_token_ : string;
  use_vocab_ : bool;
  unk_id_ : Z;
  pad_id_ : Z;
  cls_id_ : Z;
  sep_id_ : Z
}.

(** [TextTokenizer::TextTokenizer()] *)
Definition new_tokenizer : TextTokenizer := {|
  delimiters_ := {[ " "%char; "009"%char; "010"%char; "013"%char;
                    "012"%char; "011"%char ]};
  lowercase_ := false;
  keep_punctuation_ := false;
  split_on_punctuation_ := false;
  vocab_to_id_ := ∅;
  id_to_vocab_ := [];
  unk_token_ := "[UNK]";
  pad_token_ := "[PAD]";
  cls_token_ := "[CLS]";
  sep_token_ := "[SEP]";
  use_vocab_ := false;
  unk_id_ := (-1)%Z;
  pad_id_ := (-1)%Z;
  cls_id_ := (-1)%Z;
  sep_id_ := (-1)%Z
|}.

Definition set_lowercase (enable : bool) (t : TextTokenizer) : TextTokenizer :=
  mkTextTokenizer (delimiters_ t) enable (keep_punctuation_ t)
    (split_on_punctuation_ t) (vocab_to_id_ t) (id_to_vocab_ t)
    (unk_token_ t) (pad_token_ t) (cls_token_ t) (sep_token_ t)
    (use_vocab_ t) (unk_id_ t) (pad_id_ t) (cls_id_ t) (sep_id_ t).

Definition set_keep_punctuation (enable : bool) (t : TextTokenizer) : TextTokenizer :=
  mkTextTokenizer (delimiters_ t) (lowercase_ t) enable
    (split_on_punctuation_ t) (vocab_to_id_ t) (id_to_vocab_ t)
    (unk_token_ t) (pad_token_ t) (cls_token_ t) (sep_token_ t)
    (use_vocab_ t) (unk_id_ t) (pad_id_ t) (cls_id_ t) (sep_id_ t).

Definition set_split_on_punctuation (enable : bool) (t : TextTokenizer) : TextTokenizer :=
  mkTextTokenizer (delimiters_ t) (lowercase_ t) (keep_punctuation_ t)
    enable (vocab_to_id_ t) (id_to_vocab_ t)
    (unk_token_ t) (pad_token_ t) (cls_token_ t) (sep_token_ t)
    (use_vocab_ t) (unk_id_ t) (pad_id_ t) (cls_id_ t) (sep_id_ t).

Definition add_delimiter (delim : ascii) (t : TextTokenizer) : TextTokenizer :=
  mkTextTokenizer ({[ delim ]} ∪ delimiters_ t) (lowercase_ t)
    (keep_punctuation_ t) (split_on_punctuation_ t) (vocab_to_id_ t)
    (id_to_vocab_ t) (unk_token_ t) (pad_token_ t) (cls_token_ t)
    (sep_token_ t) (use_vocab_ t) (unk_id_ t) (pad_id_ t) (cls_id_ t)
    (sep_id_ t).

(** [add_delimiters(delims)]: every byte of [delims] is inserted. *)
Fixpoint add_delimiters (delims : string) (t : TextTokenizer) : TextTokenizer :=
  match delims with
  | EmptyString => t
  | String c rest => add_delimiters rest (add_delimiter c t)
  end.

Definition set_special_tokens (unk pad cls sep : string) (t : TextTokenizer)
  : TextTokenizer :=
  mkTextTokenizer (delimiters_ t) (lowercase_ t) (keep_punctuation_ t)
    (split_on_punctuation_ t) (vocab_to_id_ t) (id_to_vocab_ t)
    unk pad cls sep
    (use_vocab_ t) (unk_id_ t) (pad_id_ t) (cls_id_ t) (sep_id_ t).

(** ** normalize_token *)

Record norm_state : Type := mkNorm { norm_i : nat; norm_result : string }.

(** The inner [for (j = 0; j < len && i + j < token.size(); j++)] of
    [normalize_token], on the pair (j, result). *)
Definition copy_cond (token : string) (i len : nat) (s : norm_state) : bool :=
  (norm_i s <? len) && (i + norm_i s <? String.length token).

Definition copy_body (token : string) (i : nat) (s : norm_state) : norm_state :=
  {| norm_i := norm_i s + 1;
     norm_result := push_char (norm_result s) (char_at token (i + norm_i s)) |}.

Definition normalize_cond (token : string) (s : norm_state) : bool :=
  norm_i s <? String.length token.

Definition normalize_body (token : string) (s : norm_state) : norm_state :=
  let i := norm_i s in
  let c := char_at token i in
  if (N.land (uchar c) 0x80 =? 0)%N then
    {| norm_i := i + 1;
       norm_result := push_char (norm_result s) (to_ascii_lower c) |}
  else
    let len := utf8_char_length (uchar c) in
    let copied :=
      while_loop (copy_cond token i len) (copy_body token i) len
        {| norm_i := 0; norm_result := norm_result s |} in
    {| norm_i := i + len; norm_result := norm_result copied |}.

Definition normalize_token (t : TextTokenizer) (token : string) : string :=
  if negb (lowercase_ t) then token
  else
    norm_result
      (while_loop (normalize_cond token) (normalize_body token)
         (String.length token) {| norm_i := 0; norm_result := "" |}).

Definition should_split_at (t : TextTokenizer) (c : ascii) : bool :=
  bool_decide (c ∈ delimiters_ t) ||
  (split_on_punctuation_ t && is_ascii_punct c).

(** ** tokenize *)

Record scan_state : Type := mkScan {
  scan_i : nat;
  scan_start : nat;
  scan_tokens : list string
}.

(** The guard [i > start + (i - start > 0 ? 1 : 0)].  [start <= i] holds
    throughout (see [tokenize_start_bounds]), so the unsigned subtraction
    never wraps. *)
Definition run_guard (i start : nat) : bool :=
  start + (if 0 <? i - start then 1 else 0) <? i.

(** The inner [while (i < text.size() && should_split_at(text[i]))]. *)
Definition run_cond (t : TextTokenizer) (text : string) (s : scan_state) : bool :=
  (scan_i s <? String.length text) && should_split_at t (char_at text (scan_i s)).

Definition run_body (t : TextTokenizer) (text : string) (s : scan_state)
  : scan_state :=
  let i := scan_i s in
  let start := scan_start s in
  {| scan_i := i + 1;
     scan_start := start;
     scan_tokens :=
       if keep_punctuation_ t && is_ascii_punct (char_at text i) &&
          run_guard i start
       then push_back (scan_tokens s) (normalize_token t (substr text i 1))
       else scan_tokens s |}.

Definition tokenize_cond (text : string) (s : scan_state) : bool :=
  scan_i s <? String.length text.

Definition tokenize_body (t : TextTokenizer) (text : string) (s : scan_state)
  : scan_state :=
  let i := scan_i s in
  let start := scan_start s in
  let c := char_at text i in
  if negb (N.land (uchar c) 0x80 =? 0)%N then
    {| scan_i := i + utf8_char_length (uchar c);
       scan_start := start;
       scan_tokens := scan_tokens s |}
  else if should_split_at t c then
    let tokens1 :=
      if start <? i then
        let token_view := substr text start (i - start) in
        if negb (string_empty token_view)
        then push_back (scan_tokens s) (normalize_token t token_view)
        else scan_tokens s
      else scan_tokens s in
    let tokens2 :=
      if keep_punctuation_ t && is_ascii_punct c
      then push_back tokens1 (normalize_token t (substr text i 1))
      else tokens1 in
    let r :=
      while_loop (run_cond t text) (run_body t text) (String.length text - i)
        {| scan_i := i; scan_start := start; scan_tokens := tokens2 |} in
    {| scan_i := scan_i r; scan_start := scan_i r; scan_tokens := scan_tokens r |}
  else
    {| scan_i := i + 1; scan_start := start; scan_tokens := scan_tokens s |}.

(** The state in which the outer loop of [tokenize] exits. *)
Definition tokenize_scan (t : TextTokenizer) (text : string) : scan_state :=
  while_loop (tokenize_cond text) (tokenize_body t text) (String.length text)
    {| scan_i := 0; scan_start := 0; scan_tokens := [] |}.

Definition tokenize (t : TextTokenizer) (text : string) : list string :=
  let s := tokenize_scan t text in
  if scan_start s <? String.length text then
    let token_view := substr_from text (scan_start s) in
    if negb (string_empty token_view)
    then push_back (scan_tokens s) (normalize_token t token_view)
    else scan_tokens s
  else scan_tokens s.

(** ** count_tokens *)

Record count_state : Type := mkCount {
  count_i : nat;
  count_start : nat;
  count_n : nat
}.

Definition count_run_cond (t : TextTokenizer) (text : string) (s : count_state)
  : bool :=
  (count_i s <? String.length text) && should_split_at t (char_at text (count_i s)).

Definition count_run_body (t : TextTokenizer) (text : string) (s : count_state)
  : count_state :=
  let i := count_i s in
  let start := count_start s in
  {| count_i := i + 1;
     count_start := start;
     count_n :=
       if keep_punctuation_ t && is_ascii_punct (char_at text i) &&
          run_guard i start
       then count_n s + 1
       else count_n s |}.

Definition count_cond (text : string) (s : count_state) : bool :=
  count_i s <? String.length text.

Definition count_body (t : TextTokenizer) (text : string) (s : count_state)
  : count_state :=
  let i := count_i s in
  let start := count_start s in
  let c := char_at text i in
  if negb (N.land (uchar c) 0x80 =? 0)%N then
    {| count_i := i + utf8_char_length (uchar c);
       count_start := start;
       count_n := count_n s |}
  else if should_split_at t c then
    let count1 := if start <? i then count_n s + 1 else count_n s in
    let count2 :=
      if keep_punctuation_ t && is_ascii_punct c then count1 + 1 else count1 in
    let r :=
      while_loop (count_run_cond t text) (count_run_body t text)
        (String.length text - i)
        {| count_i := i; count_start := start; count_n := count2 |} in
    {| count_i := count_i r; count_start := count_i r; count_n := count_n r |}
  else
    {| count_i := i + 1; count_start := start; count_n := count_n s |}.

Definition count_scan (t : TextTokenizer) (text : string) : count_state :=
  while_loop (count_cond text) (count_body t text) (String.length text)
    {| count_i := 0; count_start := 0; count_n := 0 |}.

Definition count_tokens (t : TextTokenizer) (text : string) : nat :=
  let s := count_scan t text in
  if count_start s <? String.length text then count_n s + 1 else count_n s.

(** ** encode *)

Definition lookup_id (t : TextTokenizer) (token : string) : Z :=
  match vocab_to_id_ t !! token with
  | Some id => id
  | None => unk_id_ t
  end.

Definition encode (t : TextTokenizer) (text : string) : list Z :=
  let tokens := tokenize t text in
  if negb (use_vocab_ t) then
    fold_left (fun ids i => push_back ids (int_of_size i))
      (seq 0 (List.length tokens)) []
  else
    fold_left (fun ids token => push_back ids (lookup_id t token)) tokens [].

(** ** decode *)

Record decode_state : Type := mkDecode {
  decode_result : string;
  decode_first : bool
}.

Definition decode_step (t : TextTokenizer) (s : decode_state) (id : Z)
  : decode_state :=
  if (0 <=? id)%Z && (id <? int_of_size (List.length (id_to_vocab_ t)))%Z then
    let token := nth (Z.to_nat id) (id_to_vocab_ t) "" in
    if String.eqb token (pad_token_ t) then s
    else
      let result := if decode_first s then decode_result s
                    else decode_result s +:+ " " in
      {| decode_result := result +:+ token; decode_first := false |}
  else s.

Definition decode (t : TextTokenizer) (ids : list Z) : string :=
  if negb (use_vocab_ t) then ""
  else
    decode_result
      (fold_left (decode_step t) ids
         {| decode_result := ""; decode_first := true |}).

(** ** Accessors *)

Definition vocab_size (t : TextTokenizer) : nat :=
  if use_vocab_ t then List.length (id_to_vocab_ t) else 0.

Definition get_token_by_id (t : TextTokenizer) (id : Z) : string :=
  if negb (use_vocab_ t) || (id <? 0)%Z ||
     (int_of_size (List.length (id_to_vocab_ t)) <=? id)%Z
  then "[INVALID]"
  else nth (Z.to_nat id) (id_to_vocab_ t) "".

Definition has_vocab (t : TextTokenizer) : bool := use_vocab_ t.

(** [simple_split(text)] *)
Definition simple_split (text : string) : list string :=
  tokenize new_tokenizer text.

(** ** encode_sequence *)

Inductive exception : Type := length_error.

Inductive outcome (A : Type) : Type :=
| Returns (a : A)
| Throws (e : exception).
Arguments Returns {A} a.
Arguments Throws {A} e.

(** [std::vector<int>::max_size()] on an LP64 target (PTRDIFF_MAX divided by
    [sizeof(int)]); no implementation can hold more elements than its
    address space. *)
Definition vector_int_max_size : Z := (2 ^ 61 - 1)%Z.

(** [v.resize(n)] for n already converted to [size_t]: shrinking keeps the
    first n elements, growing appends zeros and throws [std::length_error]
    beyond [max_size()]. *)
Definition vector_resize (v : list Z) (n : Z) : outcome (list Z) :=
  if (n <=? Z.of_nat (List.length v))%Z then Returns (firstn (Z.to_nat n) v)
  else if (vector_int_max_size <? n)%Z then Throws length_error
  else Returns (v ++ repeat 0%Z (Z.to_nat n - List.length v)).

Record copy_state : Type := mkCopy { copy_i : Z; copy_result : list Z }.

(** [for (int i = 0; i < std::min(static_cast<int>(token_ids.size()),
    available_length); ++i) result.push_back(token_ids[i]);] *)
Definition seq_copy_cond (token_ids : list Z) (available_length : Z)
    (s : copy_state) : bool :=
  (copy_i s <? Z.min (int_of_size (List.length token_ids)) available_length)%Z.

Definition seq_copy_body (token_ids : list Z) (s : copy_state) : copy_state :=
  {| copy_i := int_add (copy_i s) 1;
     copy_result :=
       push_back (copy_result s) (nth (Z.to_nat (copy_i s)) token_ids 0%Z) |}.

Definition encode_sequence (t : TextTokenizer) (text : string)
    (max_length : Z) (add_special_tokens : bool) : outcome (list Z) :=
  let token_ids := encode t text in
  if negb add_special_tokens || negb (use_vocab_ t) then
    if (max_length <? int_of_size (List.length token_ids))%Z
    then vector_resize token_ids (size_of_int max_length)
    else Returns token_ids
  else
    let '(result, max_length) :=
      if (0 <=? cls_id_ t)%Z
      then (push_back [] (cls_id_ t), int_sub max_length 1)
      else ([], max_length) in
    let available_length :=
      int_sub max_length (if (0 <=? sep_id_ t)%Z then 1 else 0) in
    let copied :=
      while_loop (seq_copy_cond token_ids available_length)
        (seq_copy_body token_ids) (List.length token_ids)
        {| copy_i := 0; copy_result := result |} in
    let result := copy_result copied in
    Returns (if (0 <=? sep_id_ t)%Z then push_back result (sep_id_ t)
             else result).

(** ** Vocabulary installation *)

Definition with_vocab (t : TextTokenizer) (m : gmap string Z) (l : list string)
  : TextTokenizer :=
  mkTextTokenizer (delimiters_ t) (lowercase_ t) (keep_punctuation_ t)
    (split_on_punctuation_ t) m l
    (unk_token_ t) (pad_token_ t) (cls_token_ t) (sep_token_ t)
    (use_vocab_ t) (unk_id_ t) (pad_id_ t) (cls_id_ t) (sep_id_ t).

Definition with_use_vocab (t : TextTokenizer) (b : bool) : TextTokenizer :=
  mkTextTokenizer (delimiters_ t) (lowercase_ t) (keep_punctuation_ t)
    (split_on_punctuation_ t) (vocab_to_id_ t) (id_to_vocab_ t)
    (unk_token_ t) (pad_token_ t) (cls_token_ t) (sep_token_ t)
    b (unk_id_ t) (pad_id_ t) (cls_id_ t) (sep_id_ t).

Definition with_special_ids (t : TextTokenizer) (unk pad cls sep : Z)
  : TextTokenizer :=
  mkTextTokenizer (delimiters_ t) (lowercase_ t) (keep_punctuation_ t)
    (split_on_punctuation_ t) (vocab_to_id_ t) (id_to_vocab_ t)
    (unk_token_ t) (pad_token_ t) (cls_token_ t) (sep_token_ t)
    (use_vocab_ t) unk pad cls sep.

(** [if (token == unk_token_) unk_id_ = id; else if (token == pad_token_)
    pad_id_ = id; else if (token == cls_token_) cls_id_ = id; else if
    (token == sep_token_) sep_id_ = id;] *)
Definition store_special_id (t : TextTokenizer) (token : string) (id : Z)
  : TextTokenizer :=
  if String.eqb token (unk_token_ t)
  then with_special_ids t id (pad_id_ t) (cls_id_ t) (sep_id_ t)
  else if String.eqb token (pad_token_ t)
  then with_special_ids t (unk_id_ t) id (cls_id_ t) (sep_id_ t)
  else if String.eqb token (cls_token_ t)
  then with_special_ids t (unk_id_ t) (pad_id_ t) id (sep_id_ t)
  else if String.eqb token (sep_token_ t)
  then with_special_ids t (unk_id_ t) (pad_id_ t) (cls_id_ t) id
  else t.

(** [vocab_to_id_[token] = id; id_to_vocab_.push_back(token);] followed by
    the special-id chain. *)
Definition add_entry (t : TextTokenizer) (token : string) (id : Z)
  : TextTokenizer :=
  store_special_id
    (with_vocab t (<[token := id]> (vocab_to_id_ t))
       (push_back (id_to_vocab_ t) token))
    token id.

Definition is_trailing_space (c : ascii) : bool :=
  (Ascii.eqb c " " || Ascii.eqb c "009" || Ascii.eqb c "013" ||
   Ascii.eqb c "010")%char.

(** [token.erase(token.find_last_not_of(" \t\r\n") + 1)] *)
Fixpoint rtrim (token : string) : string :=
  match token with
  | EmptyString => EmptyString
  | String c rest =>
      let rest' := rtrim rest in
      if string_empty rest' && is_trailing_space c then EmptyString
      else String c rest'
  end.

(** One iteration of [while (std::getline(file, token))] on (tokenizer, id). *)
Definition load_line (s : TextTokenizer * Z) (line : string)
  : TextTokenizer * Z :=
  let '(t, id) := s in
  let token := rtrim line in
  if negb (string_empty token) then (add_entry t token id, int_add id 1)
  else (t, id).

(** [load_vocab(vocab_file)], the file being the lines [std::getline] reads
    from it, or [None] when it cannot be opened. *)
Definition load_vocab (t : TextTokenizer) (file : option (list string))
  : bool * TextTokenizer :=
  match file with
  | None => (false, t)
  | Some lines =>
      let cleared := with_vocab t ∅ [] in
      let '(t', _) := fold_left load_line lines (cleared, 0%Z) in
      (true, with_use_vocab t' true)
  end.

(** [token_counts[token]++] over the tokens of every text. *)
Definition count_token (counts : gmap string Z) (token : string)
  : gmap string Z :=
  <[token := int_add (default 0%Z (counts !! token)) 1]> counts.

Definition token_counts (t : TextTokenizer) (texts : list string)
  : gmap string Z :=
  fold_left (fun counts text => fold_left count_token (tokenize t text) counts)
    texts ∅.

(** The order in which an [unordered_map] is traversed is unspecified: any
    arrangement of its entries. *)
Definition iteration_order (counts : gmap string Z) (l : list (string * Z))
  : Prop :=
  l ≡ₚ map_to_list counts.

Definition frequent (min_frequency : Z) (p : string * Z) : bool :=
  (min_frequency <=? p.2)%Z.

(** The order the comparator [a.second > b.second] asks for: [b] is not
    more frequent than [a]. *)
Definition by_frequency (a b : string * Z) : Prop := (b.2 <= a.2)%Z.

(** [std::sort] with that comparator: some rearrangement in which no later
    entry is more frequent than an earlier one. *)
Definition sorted_by_frequency (l l' : list (string * Z)) : Prop :=
  l' ≡ₚ l /\ StronglySorted by_frequency l'.

Definition add_special (t : TextTokenizer) (token : string) : TextTokenizer :=
  match vocab_to_id_ t !! token with
  | None => add_entry t token (int_of_size (List.length (id_to_vocab_ t)))
  | Some _ => t
  end.

Definition add_regular (max_vocab_size : Z) (s : TextTokenizer * Z)
    (p : string * Z) : TextTokenizer * Z :=
  let '(t, added) := s in
  match vocab_to_id_ t !! p.1 with
  | None =>
      if (added <? int_sub max_vocab_size (int_of_size 4))%Z then
        let id := int_of_size (List.length (id_to_vocab_ t)) in
        (with_vocab t (<[p.1 := id]> (vocab_to_id_ t))
           (push_back (id_to_vocab_ t) p.1),
         int_add added 1)
      else (t, added)
  | Some _ => (t, added)
  end.

(** The part of [build_vocab_from_text] after [std::sort]. *)
Definition install_vocab (t : TextTokenizer) (sorted_tokens : list (string * Z))
    (max_vocab_size : Z) : TextTokenizer :=
  let cleared := with_vocab t ∅ [] in
  let special_tokens :=
    [pad_token_ t; unk_token_ t; cls_token_ t; sep_token_ t] in
  let t1 := fold_left add_special special_tokens cleared in
  let '(t2, _) := fold_left (add_regular max_vocab_size) sorted_tokens (t1, 0%Z) in
  with_use_vocab t2 true.

(** [build_vocab_from_text(texts, min_frequency, max_vocab_size)] leaves the
    tokenizer in [t']. *)
Definition build_vocab_from_text (t : TextTokenizer) (texts : list string)
    (min_frequency max_vocab_size : Z) (t' : TextTokenizer) : Prop :=
  exists entries sorted_tokens,
    iteration_order (token_counts t texts) entries /\
    sorted_by_frequency (filter (fun p => frequent min_frequency p) entries)
      sorted_tokens /\
    t' = install_vocab t sorted_tokens max_vocab_size.

(** The states a tokenizer object can be in after it is constructed and
    vocabularies are installed. *)
Inductive installed : TextTokenizer -> Prop :=
| installed_new : installed new_tokenizer
| installed_load t lines :
    installed t -> installed (load_vocab t (Some lines)).2
| installed_build t texts min_frequency max_vocab_size t' :
    installed t ->
    build_vocab_from_text t texts min_frequency max_vocab_size t' ->
    installed t'.

(** ** Helpers the class declares beside the ones above *)

Definition is_utf8_start (c : N) : bool :=
  ((N.land c 0x80 =? 0) || (N.land c 0xE0 =? 0xC0) ||
   (N.land c 0xF0 =? 0xE0) || (N.land c 0xF8 =? 0xF0))%N.

(** ** Vocabulary files *)

(** The lines successive [std::getline(file, token)] calls return for a file
    of the given content: each ends at a newline, which is dropped, or at the
    end of the file; a call that finds the end of the file at once fails. *)
Fixpoint getlines (content : string) : list string :=
  match content with
  | EmptyString => []
  | String c rest =>
      if Ascii.eqb c "010" then EmptyString :: getlines rest
      else match getlines rest with
           | [] => [String c EmptyString]
           | line :: lines => String c line :: lines
           end
  end.

(** [load_vocab(vocab_file)] on the content of the file, [None] when it
    cannot be opened. *)
Definition load_vocab_file (t : TextTokenizer) (file : option string)
  : bool * TextTokenizer :=
  load_vocab t (option_map getlines file).

(** [file << token << "\n"] for every token, on the content written so
    far. *)
Definition write_token (content token : string) : string :=
  content +:+ token +:+ String "010" EmptyString.

(** [save_vocab(vocab_file)]: the flag returned and the content written,
    [None] when nothing is written; [can_open] says whether the output file
    opens. *)
Definition save_vocab (t : TextTokenizer) (can_open : bool)
  : bool * option string :=
  if negb (use_vocab_ t) then (false, None)
  else if negb can_open then (false, None)
  else (true, Some (fold_left write_token (id_to_vocab_ t) "")).

(** * Properties stated about the code *)

(** What [normalize_token] may do to one byte: leave it, or fold it when it
    is ASCII. *)
Definition norm_byte (c c' : ascii) : Prop :=
  c' = c \/ ((uchar c < 128)%N /\ c' = to_ascii_lower c).

(** The invariant of the loop of [normalize_token]: the result is the
    processed prefix, byte for byte up to case folding of ASCII. *)
Definition normalize_inv (token : string) (s : norm_state) : Prop :=
  Forall2 norm_byte (take (norm_i s) (bytes token)) (bytes (norm_result s)).

Definition nonempty (s : string) : Prop := s <> "".

(** What holds of the scanner state of [tokenize] at every iteration. *)
Definition scan_inv (text : string) (s : scan_state) : Prop :=
  scan_start s <= scan_i s /\ scan_start s <= String.length text /\
  Forall nonempty (scan_tokens s).

(** The counting scanner and the tokenizing scanner are at the same place
    and the count is the number of tokens so far. *)
Definition count_rel (cs : count_state) (s : scan_state) : Prop :=
  count_i cs = scan_i s /\ count_start cs = scan_start s /\
  count_n cs = List.length (scan_tokens s).

(** The token strings [decode] is specified to join: for each id in order,
    the vocabulary entry when the id is in [0, vocab_size) and the entry is
    not the pad-token string. *)
Definition decode_kept (t : TextTokenizer) (ids : list Z) : list string :=
  List.filter (fun token => negb (String.eqb token (pad_token_ t)))
    (omap (fun id : Z =>
             if (0 <=? id)%Z && (id <? Z.of_nat (vocab_size t))%Z
             then id_to_vocab_ t !! Z.to_nat id
             else None) ids).

(** [decode] as the specification words it: nothing without a vocabulary,
    otherwise the kept tokens joined by single spaces. *)
Definition decode_spec (t : TextTokenizer) (ids : list Z) : string :=
  if use_vocab_ t then String.concat " " (decode_kept t ids) else "".

(** The ids [encode_sequence] places before and after the content. *)
Definition cls_part (t : TextTokenizer) : list Z :=
  if (0 <=? cls_id_ t)%Z then [cls_id_ t] else [].

Definition sep_part (t : TextTokenizer) : list Z :=
  if (0 <=? sep_id_ t)%Z then [sep_id_ t] else [].

(** The entries a vocabulary file contributes: its lines with trailing
    whitespace removed, blank ones dropped. *)
Definition vocab_entries (lines : list string) : list string :=
  List.filter (fun token => negb (string_empty token)) (map rtrim lines).

(** Every entry of the map names the position of its token in the list. *)
Definition entries_inverse (m : gmap string Z) (l : list string) : Prop :=
  forall token id,
    m !! token = Some id -> (0 <= id)%Z /\ l !! Z.to_nat id = Some token.

(** The map and the list have the same number of entries, and the map sends
    exactly the token at position i to the id i: the ids are 0..N-1 in
    insertion order. *)
Definition entries_consistent (m : gmap string Z) (l : list string) : Prop :=
  size m = List.length l /\
  forall token id,
    m !! token = Some id <-> (0 <= id)%Z /\ l !! Z.to_nat id = Some token.

Definition vocab_inverse (t : TextTokenizer) : Prop :=
  entries_inverse (vocab_to_id_ t) (id_to_vocab_ t).

Definition vocab_consistent (t : TextTokenizer) : Prop :=
  entries_consistent (vocab_to_id_ t) (id_to_vocab_ t).

(** The four special-token strings are pairwise different, as the default
    ones are. *)
Definition special_distinct (t : TextTokenizer) : Prop :=
  NoDup [unk_token_ t; pad_token_ t; cls_token_ t; sep_token_ t].

(** A special-token id is -1 exactly when its string has no entry in the
    installed vocabulary. *)
Definition special_ids_match (t : TextTokenizer) : Prop :=
  (unk_id_ t = (-1)%Z <-> vocab_to_id_ t !! unk_token_ t = None) /\
  (pad_id_ t = (-1)%Z <-> vocab_to_id_ t !! pad_token_ t = None) /\
  (cls_id_ t = (-1)%Z <-> vocab_to_id_ t !! cls_token_ t = None) /\
  (sep_id_ t = (-1)%Z <-> vocab_to_id_ t !! sep_token_ t = None).

(** Every delimiter is an ASCII byte, as the default ones are. *)
Definition ascii_delimiters (t : TextTokenizer) : Prop :=
  forall c, c ∈ delimiters_ t -> (uchar c < 128)%N.

(** The offsets at which a character of [text] starts, each character
    taking the length its lead byte declares. *)
Inductive char_boundary (text : string) : nat -> Prop :=
| boundary_start : char_boundary text 0
| boundary_next k :
    char_boundary text k -> k < String.length text ->
    char_boundary text (k + utf8_char_length (uchar (char_at text k))).

(** A token that is the normalized run of whole characters
    [text[a .. b)]. *)
Definition char_slice (t : TextTokenizer) (text token : string) : Prop :=
  exists a b,
    char_boundary text a /\ char_boundary text b /\ a < b /\
    token = normalize_token t (substr text a (b - a)).

Definition scan_chars (t : TextTokenizer) (text : string) (s : scan_state)
  : Prop :=
  char_boundary text (scan_i s) /\ char_boundary text (scan_start s) /\
  Forall (char_slice t text) (scan_tokens s).

(** [normalize_token] with lowercase enabled, on the bytes of the token:
    [skip] counts the bytes of the current multi-byte character still to be
    copied through. *)
Fixpoint norm_list (skip : nat) (l : list ascii) : list ascii :=
  match l with
  | [] => []
  | c :: l' =>
      match skip with
      | S k => c :: norm_list k l'
      | O =>
          if (uchar c <? 128)%N then to_ascii_lower c :: norm_list 0 l'
          else c :: norm_list (utf8_char_length (uchar c) - 1) l'
      end
  end.

(** The invariant of the loop of [normalize_token] that determines its
    result. *)
Definition normalize_exact (token : string) (s : norm_state) : Prop :=
  bytes (norm_result s) ++ norm_list 0 (drop (norm_i s) (bytes token)) =
  norm_list 0 (bytes token).

(** Two tokenizer objects with the same tokenization settings. *)
Definition same_config (t t' : TextTokenizer) : Prop :=
  delimiters_ t = delimiters_ t' /\ lowercase_ t = lowercase_ t' /\
  keep_punctuation_ t = keep_punctuation_ t' /\
  split_on_punctuation_ t = split_on_punctuation_ t'.

(** The tokens pushed so far are no more than the bytes before [start]. *)
Definition scan_count (text : string) (s : scan_state) : Prop :=
  scan_inv text s /\ List.length (scan_tokens s) <= scan_start s.

(** A string that ends where one of its characters ends. *)
Definition whole_chars (w : string) : Prop :=
  char_boundary w (String.length w).

(** The scanner on a text is [p] bytes and the tokens [T] ahead of the
    scanner on the remainder of that text. *)
Definition scan_shift (p : nat) (T : list string) (sf sr : scan_state) : Prop :=
  scan_i sf = p + scan_i sr /\ scan_start sf = p + scan_start sr /\
  scan_tokens sf = T ++ scan_tokens sr.

(** What makes a string a word for the tokenizer: non-empty, whole
    characters, no splitting byte. *)
Definition is_word (t : TextTokenizer) (w : string) : Prop :=
  w <> "" /\ whole_chars w /\
  Forall (fun c => should_split_at t c = false) (bytes w).

(** The tokenizer [t] with another vocabulary and other special-token ids. *)
Definition vocab_state (t : TextTokenizer) (m : gmap string Z)
    (l : list string) (unk pad cls sep : Z) : TextTokenizer :=
  mkTextTokenizer (delimiters_ t) (lowercase_ t) (keep_punctuation_ t)
    (split_on_punctuation_ t) m l
    (unk_token_ t) (pad_token_ t) (cls_token_ t) (sep_token_ t)
    (use_vocab_ t) unk pad cls sep.

(** How often [token] occurs in a list of tokens. *)
Definition occurrences (token : string) (tokens : list string) : nat :=
  List.length (List.filter (String.eqb token) tokens).

(** The tokens of all texts of a corpus, in order. *)
Definition corpus_tokens (t : TextTokenizer) (texts : list string)
  : list string :=
  concat (map (tokenize t) texts).

(** [counts] holds, for the tokens seen, how often each occurred. *)
Definition counts_of (counts : gmap string Z) (seen : list string) : Prop :=
  forall token,
    counts !! token =
    if occurrences token seen =? 0 then None
    else Some (Z.of_nat (occurrences token seen)).

(** The content [save_vocab] writes for a list of entries: each followed by
    a newline. *)
Definition file_content (entries : list string) : string :=
  fold_right (fun token content => token +:+ String "010" content) "" entries.

(** An entry that a vocabulary file can hold as a line of its own: not
    empty, no trailing whitespace, no newline inside. *)
Definition clean_entry (token : string) : Prop :=
  token <> "" /\ rtrim token = token /\ ~ In "010"%char (bytes token).

(** Two scanner states at the same position whose tokens differ by the
    normalization of [t] only. *)
Definition scan_normalized (t : TextTokenizer) (a b : scan_state) : Prop :=
  scan_i a = scan_i b /\ scan_start a = scan_start b /\
  scan_tokens a = map (normalize_token t) (scan_tokens b).

(** The maximal runs of bytes that [split] rejects, in order: [text] cut at
    every byte [split] accepts, [cur] being the run open where [text]
    starts. *)
Fixpoint split_runs (split : ascii -> bool) (text cur : string) : list string :=
  match text with
  | EmptyString => if string_empty cur then [] else [cur]
  | String c rest =>
      if split c
      then (if string_empty cur then [] else [cur]) ++ split_runs split rest ""
      else split_runs split rest (cur +:+ String c "")
  end.

(** A text made of complete characters, each as long as its lead byte
    declares, whose bytes after the lead byte are not ASCII. *)
Inductive utf8_text : string -> Prop :=
| utf8_text_empty : utf8_text ""
| utf8_text_char c tail rest :
    String.length tail + 1 = utf8_char_length (uchar c) ->
    Forall (fun b => (128 <= uchar b)%N) (bytes tail) ->
    utf8_text rest ->
    utf8_text (String c (tail +:+ rest)).

(** Every special-token string that has an entry in the map has that
    entry's id as its special id. *)
Definition special_ids_agree (t : TextTokenizer) : Prop :=
  (forall id, vocab_to_id_ t !! unk_token_ t = Some id -> unk_id_ t = id) /\
  (forall id, vocab_to_id_ t !! pad_token_ t = Some id -> pad_id_ t = id) /\
  (forall id, vocab_to_id_ t !! cls_token_ t = Some id -> cls_id_ t = id) /\
  (forall id, vocab_to_id_ t !! sep_token_ t = Some id -> sep_id_ t = id).

(** The bytes of a list that have the high bit set, in order. *)
Definition high_bytes (l : list ascii) : list ascii :=
  List.filter (fun c => (128 <=? uchar c)%N) l.

(** A token cut out of [text] at splitting bytes only: the normalized run
    of whole characters [text[a .. b)] that is either one splitting byte
    kept as punctuation, or begins at the start of the text or right after
    a splitting byte and ends at the end of the text or right before a
    splitting byte. *)
Definition delimited_slice (t : TextTokenizer) (text token : string) : Prop :=
  exists a b,
    char_boundary text a /\ char_boundary text b /\ a < b /\
    token = normalize_token t (substr text a (b - a)) /\
    ((b = a + 1 /\ should_split_at t (char_at text a) = true) \/
     ((a = 0 \/ should_split_at t (char_at text (a - 1)) = true) /\
      (String.length text <= b \/ should_split_at t (char_at text b) = true))).

(** What holds of the scanner of [tokenize] at every iteration when the
    delimiters are ASCII: [start] follows a splitting byte, the tokens are
    cut at splitting bytes only and hold every byte with the high bit set
    that comes before [start]. *)
Definition scan_safe (t : TextTokenizer) (text : string) (s : scan_state)
  : Prop :=
  char_boundary text (scan_i s) /\ char_boundary text (scan_start s) /\
  scan_start s <= scan_i s /\
  (scan_start s = 0 \/
   should_split_at t (char_at text (scan_start s - 1)) = true) /\
  Forall (delimited_slice t text) (scan_tokens s) /\
  high_bytes (concat (map bytes (scan_tokens s))) =
  high_bytes (take (scan_start s) (bytes text)).

(** The same for the inner loop entered at [i0]: the bytes it has passed
    are splitting bytes. *)
Definition run_safe (t : TextTokenizer) (text : string) (i0 : nat)
    (s : scan_state) : Prop :=
  char_boundary text (scan_i s) /\ i0 <= scan_i s /\
  (scan_i s = i0 \/ should_split_at t (char_at text (scan_i s - 1)) = true) /\
  Forall (delimited_slice t text) (scan_tokens s) /\
  high_bytes (concat (map bytes (scan_tokens s))) =
  high_bytes (take (scan_i s) (bytes text)).

(** ** Fixtures *)

(** The configuration the demonstration program uses: lowercase, split on
    punctuation, keep punctuation. *)
Definition demo_tokenizer : TextTokenizer :=
  set_keep_punctuation true
    (set_split_on_punctuation true (set_lowercase true new_tokenizer)).

(** [demo_tokenizer] after loading a five-line vocabulary file. *)
Definition demo_vocab : TextTokenizer :=
  (load_vocab demo_tokenizer
     (Some ["[CLS]"; "[SEP]"; "[PAD]"; "hello"; "world"])).2.

(** A first vocabulary file, naming the unknown token, and a second one
    that does not. *)
Definition first_vocab : TextTokenizer :=
  (load_vocab new_tokenizer (Some ["[UNK]"; "hello"])).2.

Definition reloaded_vocab : TextTokenizer :=
  (load_vocab first_vocab (Some ["hello"; "world"])).2.

(** The two bytes of U+00E9 in UTF-8, and the text "cafe" with that last
    letter. *)
Definition e_acute : string := String "195" (String "169" "").
Definition cafe : string := "caf" +:+ e_acute.

(** The two bytes of U+00FC, which shares its lead byte with U+00E9. *)
Definition u_umlaut : string := String "195" (String "188" "").

(** "Cafe, au  lait" with U+00E9 for the e, and the configuration that
    lowercases and splits on punctuation without keeping it. *)
Definition cafe_au_lait : string := "Caf" +:+ e_acute +:+ ", au  lait".

Definition plain_tokenizer : TextTokenizer :=
  set_split_on_punctuation true (set_lowercase true new_tokenizer).

(** * Loop facts *)

Section WhileFacts.
Context {St : Type}.
Variable cond : St -> bool.
Variable body : St -> St.

Lemma while_loop_invariant (Inv : St -> Prop) :
  (forall s, Inv s -> cond s = true -> Inv (body s)) ->
  forall fuel s, Inv s -> Inv (while_loop cond body fuel s).
Proof.
  intros Hstep fuel. induction fuel as [|fuel IH]; intros s Hs; simpl.
  - exact Hs.
  - destruct (cond s) eqn:Hc; [apply IH, Hstep; assumption | exact Hs].
Qed.

(** With fuel no smaller than a measure that every iteration decreases,
    the state returned is the one in which the loop exits. *)
Lemma while_loop_runs (measure : St -> nat) (Inv : St -> Prop) :
  (forall s, Inv s -> cond s = true ->
             Inv (body s) /\ measure (body s) < measure s) ->
  forall fuel s, Inv s -> measure s <= fuel ->
                 while_runs cond body s (while_loop cond body fuel s).
Proof.
  intros Hstep fuel. induction fuel as [|fuel IH]; intros s Hs Hm; simpl.
  - apply while_exit. destruct (cond s) eqn:Hc; [|reflexivity].
    destruct (Hstep s Hs Hc) as [_ Hlt]. lia.
  - destruct (cond s) eqn:Hc.
    + destruct (Hstep s Hs Hc) as [Hinv Hlt].
      apply while_iter; [exact Hc|]. apply IH; [exact Hinv | lia].
    + apply while_exit, Hc.
Qed.

Lemma while_runs_exit s s' : while_runs cond body s s' -> cond s' = false.
Proof. induction 1; assumption. Qed.

Lemma while_loop_first fuel s :
  cond s = true ->
  while_loop cond body (S fuel) s = while_loop cond body fuel (body s).
Proof. intros Hc. simpl. rewrite Hc. reflexivity. Qed.
End WhileFacts.

(** Two loops that test and step in lockstep stay related. *)
Lemma while_loop_sim {A B : Type} (R : A -> B -> Prop)
    (c1 : A -> bool) (b1 : A -> A) (c2 : B -> bool) (b2 : B -> B) :
  (forall a b, R a b -> c1 a = c2 b) ->
  (forall a b, R a b -> c1 a = true -> R (b1 a) (b2 b)) ->
  forall fuel a b, R a b ->
                   R (while_loop c1 b1 fuel a) (while_loop c2 b2 fuel b).
Proof.
  intros Hc Hb fuel. induction fuel as [|fuel IH]; intros a b HR; simpl.
  - exact HR.
  - rewrite <- (Hc a b HR). destruct (c1 a) eqn:E; [|exact HR].
    apply IH, Hb; assumption.
Qed.

(** * Strings as byte lists *)

Lemma bytes_length s : List.length (bytes s) = String.length s.
Proof. induction s as [|c s IH]; simpl; congruence. Qed.

Lemma bytes_app s1 s2 : bytes (s1 +:+ s2) = bytes s1 ++ bytes s2.
Proof. induction s1 as [|c s1 IH]; simpl; [|rewrite IH]; reflexivity. Qed.

Lemma bytes_inj s1 s2 : bytes s1 = bytes s2 -> s1 = s2.
Proof.
  intros H. rewrite <- (string_of_list_ascii_of_string s1),
    <- (string_of_list_ascii_of_string s2), H. reflexivity.
Qed.

Lemma bytes_substring s : forall n m,
  bytes (substring n m s) = take m (drop n (bytes s)).
Proof.
  induction s as [|c s IH]; intros n m; simpl.
  - destruct n, m; reflexivity.
  - destruct n as [|n]; simpl.
    + destruct m as [|m]; simpl; [reflexivity|]. rewrite IH. reflexivity.
    + apply IH.
Qed.

Lemma bytes_lookup s : forall i, bytes s !! i = String.get i s.
Proof.
  induction s as [|c s IH]; intros i; simpl.
  - destruct i; reflexivity.
  - destruct i as [|i]; simpl; [reflexivity | apply IH].
Qed.

Lemma char_at_lookup s i :
  i < String.length s -> bytes s !! i = Some (char_at s i).
Proof.
  intros Hi. unfold char_at. rewrite <- bytes_lookup.
  destruct (bytes s !! i) eqn:E; [reflexivity|].
  apply lookup_ge_None in E. rewrite bytes_length in E. lia.
Qed.

Lemma string_empty_length s : string_empty s = true <-> String.length s = 0.
Proof. destruct s; simpl; split; congruence. Qed.

Lemma length_substr text pos count :
  String.length (substr text pos count) = Nat.min count (String.length text - pos).
Proof.
  unfold substr. rewrite <- !bytes_length, bytes_substring, length_take,
    length_drop, !bytes_length. reflexivity.
Qed.

Lemma length_substr_from text pos :
  String.length (substr_from text pos) = String.length text - pos.
Proof.
  unfold substr_from. fold (substr text pos (String.length text - pos)).
  rewrite length_substr. lia.
Qed.

Lemma length_push_char s c : String.length (push_char s c) = S (String.length s).
Proof.
  unfold push_char. rewrite <- !bytes_length, bytes_app, length_app. simpl. lia.
Qed.

(** * normalize_token *)

(** The test [(c & 0x80) == 0] holds exactly for the bytes below 128. *)
Lemma uchar_high_bit c : (N.land (uchar c) 0x80 =? 0)%N = (uchar c <? 128)%N.
Proof. destruct c as [[] [] [] [] [] [] [] []]; reflexivity. Qed.

Lemma utf8_char_length_pos c : 1 <= utf8_char_length c.
Proof. unfold utf8_char_length. repeat case_match; lia. Qed.

Lemma utf8_char_length_le c : utf8_char_length c <= 4.
Proof. unfold utf8_char_length. repeat case_match; lia. Qed.

(** The copy loop appends the bytes [token[i .. i+len)] that exist. *)
Lemma copy_loop_bytes token i len : forall fuel s,
  len - norm_i s <= fuel ->
  bytes (norm_result
           (while_loop (copy_cond token i len) (copy_body token i) fuel s)) =
  bytes (norm_result s) ++
  take (len - norm_i s) (drop (i + norm_i s) (bytes token)).
Proof.
  induction fuel as [|fuel IH]; intros [j result] Hfuel; simpl in *.
  - replace (len - j) with 0 by lia. rewrite take_0, app_nil_r. reflexivity.
  - unfold copy_cond at 1; simpl.
    destruct (j <? len) eqn:Hj; simpl.
    + destruct (i + j <? String.length token) eqn:Hij.
      * apply Nat.ltb_lt in Hj, Hij.
        unfold copy_body at 2; simpl. rewrite IH by (simpl; lia). simpl.
        unfold push_char. rewrite bytes_app. simpl.
        rewrite (drop_S _ (char_at token (i + j)) (i + j))
          by (apply char_at_lookup; exact Hij).
        replace (len - j) with (S (len - (j + 1))) by lia.
        rewrite <- app_assoc. simpl.
        replace (i + (j + 1)) with (S (i + j)) by lia. reflexivity.
      * apply Nat.ltb_ge in Hij.
        rewrite drop_ge by (rewrite bytes_length; lia).
        rewrite take_nil, app_nil_r. reflexivity.
    + apply Nat.ltb_ge in Hj. replace (len - j) with 0 by lia.
      rewrite take_0, app_nil_r. reflexivity.
Qed.

Lemma norm_byte_refl l : Forall2 norm_byte l l.
Proof. induction l; constructor; [left; reflexivity | assumption]. Qed.

Lemma normalize_body_inv token s :
  normalize_inv token s -> normalize_cond token s = true ->
  normalize_inv token (normalize_body token s) /\
  String.length token - norm_i (normalize_body token s) <
  String.length token - norm_i s.
Proof.
  destruct s as [i result]. unfold normalize_inv, normalize_cond; simpl.
  intros Hinv Hi. apply Nat.ltb_lt in Hi.
  unfold normalize_body; simpl.
  destruct (N.land (uchar (char_at token i)) 128 =? 0)%N eqn:Hc; simpl.
  - split; [|lia].
    replace (i + 1) with (S i) by lia.
    rewrite (take_S_r _ _ (char_at token i)) by (apply char_at_lookup; exact Hi).
    unfold push_char. rewrite bytes_app. apply Forall2_app; [exact Hinv|].
    constructor; [|constructor]. right. split; [|reflexivity].
    rewrite uchar_high_bit in Hc. apply N.ltb_lt in Hc. exact Hc.
  - pose proof (utf8_char_length_pos (uchar (char_at token i))) as Hlen.
    split; [|lia].
    rewrite <- take_take_drop.
    pose proof (copy_loop_bytes token i (utf8_char_length (uchar (char_at token i)))
                  (utf8_char_length (uchar (char_at token i)))
                  {| norm_i := 0; norm_result := result |}) as Hcopy.
    simpl in Hcopy. rewrite Hcopy by lia.
    rewrite Nat.sub_0_r, Nat.add_0_r.
    apply Forall2_app; [exact Hinv | apply norm_byte_refl].
Qed.

Lemma normalize_token_runs token :
  while_runs (normalize_cond token) (normalize_body token)
    {| norm_i := 0; norm_result := "" |}
    (while_loop (normalize_cond token) (normalize_body token)
       (String.length token) {| norm_i := 0; norm_result := "" |}).
Proof.
  apply (while_loop_runs _ _ (fun s => String.length token - norm_i s)
           (normalize_inv token)).
  - apply normalize_body_inv.
  - unfold normalize_inv; simpl. rewrite take_0. constructor.
  - simpl. lia.
Qed.

Lemma normalize_token_bytes t token :
  Forall2 norm_byte (bytes token) (bytes (normalize_token t token)).
Proof.
  unfold normalize_token. destruct (lowercase_ t); simpl; [|apply norm_byte_refl].
  pose proof (normalize_token_runs token) as Hruns.
  apply while_runs_exit in Hruns.
  set (r := while_loop _ _ _ _) in *.
  assert (Hinv : normalize_inv token r).
  { apply while_loop_invariant.
    - intros s Hs Hc. apply normalize_body_inv; assumption.
    - unfold normalize_inv; simpl. rewrite take_0. constructor. }
  unfold normalize_inv in Hinv. unfold normalize_cond in Hruns.
  apply Nat.ltb_ge in Hruns.
  rewrite take_ge in Hinv by (rewrite bytes_length; exact Hruns). exact Hinv.
Qed.

Lemma normalize_token_length t token :
  String.length (normalize_token t token) = String.length token.
Proof.
  rewrite <- !bytes_length. symmetry.
  apply (Forall2_length _ _ _ (normalize_token_bytes t token)).
Qed.

(** * tokenize *)

Lemma nonempty_length s : nonempty s <-> 0 < String.length s.
Proof. unfold nonempty. destruct s; simpl; split; try congruence; lia. Qed.

Lemma normalize_token_nonempty t s : nonempty s -> nonempty (normalize_token t s).
Proof. rewrite !nonempty_length, normalize_token_length. trivial. Qed.

Lemma substr_one_nonempty text i :
  i < String.length text -> nonempty (substr text i 1).
Proof. intros Hi. apply nonempty_length. rewrite length_substr. lia. Qed.

Lemma Forall_push_back {A} (P : A -> Prop) l x :
  Forall P l -> P x -> Forall P (push_back l x).
Proof. intros Hl Hx. apply Forall_app. split; [exact Hl | constructor; auto]. Qed.

(** The inner loop only moves [i] forward, never past the end, keeps
    [start], and only appends non-empty tokens. *)
Lemma run_loop_inv t text : forall fuel s,
  let r := while_loop (run_cond t text) (run_body t text) fuel s in
  scan_i s <= scan_i r /\ scan_start r = scan_start s /\
  (scan_i s <= String.length text -> scan_i r <= String.length text) /\
  (Forall nonempty (scan_tokens s) -> Forall nonempty (scan_tokens r)).
Proof.
  induction fuel as [|fuel IH]; intros s; simpl.
  - auto.
  - destruct (run_cond t text s) eqn:Hc; [|auto].
    unfold run_cond in Hc. apply andb_true_iff in Hc as [Hi _].
    apply Nat.ltb_lt in Hi.
    destruct (IH (run_body t text s)) as (H1 & H2 & H3 & H4).
    simpl in *. repeat split.
    + lia.
    + exact H2.
    + intros _. apply H3. lia.
    + intros Htok. apply H4.
      destruct (_ && _ && _); [|exact Htok].
      apply Forall_push_back; [exact Htok|].
      apply normalize_token_nonempty, substr_one_nonempty, Hi.
Qed.

Lemma run_loop_runs t text fuel s :
  String.length text - scan_i s <= fuel ->
  while_runs (run_cond t text) (run_body t text) s
    (while_loop (run_cond t text) (run_body t text) fuel s).
Proof.
  apply (while_loop_runs _ _ (fun s => String.length text - scan_i s)
           (fun _ => True)); [|exact I].
  intros s' _ Hc. split; [exact I|].
  unfold run_cond in Hc. apply andb_true_iff in Hc as [Hi _].
  apply Nat.ltb_lt in Hi. simpl. lia.
Qed.

(** A run entered on a splitting byte consumes at least that byte. *)
Lemma run_loop_advances t text i start tokens :
  i < String.length text -> should_split_at t (char_at text i) = true ->
  i < scan_i (while_loop (run_cond t text) (run_body t text)
                (String.length text - i)
                {| scan_i := i; scan_start := start; scan_tokens := tokens |}).
Proof.
  intros Hi Hsplit.
  destruct (String.length text - i) as [|fuel] eqn:Hfuel; [lia|].
  rewrite while_loop_first
    by (unfold run_cond; simpl; rewrite Hsplit;
        apply andb_true_iff; split; [apply Nat.ltb_lt; exact Hi | reflexivity]).
  destruct (run_loop_inv t text fuel
              (run_body t text
                 {| scan_i := i; scan_start := start; scan_tokens := tokens |}))
    as (H1 & _). simpl in H1. lia.
Qed.

Lemma tokenize_body_inv t text s :
  scan_inv text s -> tokenize_cond text s = true ->
  scan_inv text (tokenize_body t text s) /\
  String.length text - scan_i (tokenize_body t text s) <
  String.length text - scan_i s.
Proof.
  destruct s as [i start tokens]. unfold scan_inv, tokenize_cond; simpl.
  intros (Hsi & Hsl & Htok) Hi. apply Nat.ltb_lt in Hi.
  unfold tokenize_body; simpl.
  destruct (negb _) eqn:Hhigh; simpl.
  { pose proof (utf8_char_length_pos (uchar (char_at text i))).
    repeat split; try assumption; lia. }
  destruct (should_split_at t (char_at text i)) eqn:Hsplit; simpl.
  2:{ repeat split; try assumption; lia. }
  set (tokens1 := if start <? i then _ else _).
  set (tokens2 := if keep_punctuation_ t && _ then _ else _).
  assert (Htok1 : Forall nonempty tokens1).
  { subst tokens1. destruct (start <? i); [|exact Htok].
    destruct (string_empty (substr text start (i - start))) eqn:He; simpl;
      [exact Htok|].
    apply Forall_push_back; [exact Htok|].
    apply normalize_token_nonempty. intros Hn. rewrite Hn in He. discriminate. }
  assert (Htok2 : Forall nonempty tokens2).
  { subst tokens2. destruct (_ && _); [|exact Htok1].
    apply Forall_push_back; [exact Htok1|].
    apply normalize_token_nonempty, substr_one_nonempty, Hi. }
  pose proof (run_loop_advances t text i start tokens2 Hi Hsplit) as Hadv.
  destruct (run_loop_inv t text (String.length text - i)
              {| scan_i := i; scan_start := start; scan_tokens := tokens2 |})
    as (_ & _ & Hle & Hne). simpl in Hle, Hne.
  specialize (Hle ltac:(lia)). specialize (Hne Htok2).
  simpl. split; [split; [lia | split; [exact Hle | exact Hne]] | lia].
Qed.

Lemma scan_inv_init text :
  scan_inv text {| scan_i := 0; scan_start := 0; scan_tokens := [] |}.
Proof. unfold scan_inv; simpl. repeat split; try lia. constructor. Qed.

(** [start <= i] and [start <= text.size()] hold after any number of
    iterations of the outer loop: the unsigned subtraction [i - start] never
    wraps and every [substr] is called within bounds. *)
Lemma tokenize_start_bounds t text fuel :
  let s := while_loop (tokenize_cond text) (tokenize_body t text) fuel
             {| scan_i := 0; scan_start := 0; scan_tokens := [] |} in
  scan_start s <= scan_i s /\ scan_start s <= String.length text.
Proof.
  assert (H : scan_inv text
                (while_loop (tokenize_cond text) (tokenize_body t text) fuel
                   {| scan_i := 0; scan_start := 0; scan_tokens := [] |})).
  { apply while_loop_invariant; [|apply scan_inv_init].
    intros s Hs Hc. apply tokenize_body_inv; assumption. }
  destruct H as (H1 & H2 & _). auto.
Qed.

(** The outer loop of [tokenize] exits within [text.size()] iterations, in
    the state [tokenize_scan]. *)
Lemma tokenize_scan_runs t text :
  while_runs (tokenize_cond text) (tokenize_body t text)
    {| scan_i := 0; scan_start := 0; scan_tokens := [] |}
    (tokenize_scan t text).
Proof.
  apply (while_loop_runs _ _ (fun s => String.length text - scan_i s)
           (scan_inv text)).
  - intros s Hs Hc. apply tokenize_body_inv; assumption.
  - apply scan_inv_init.
  - simpl. lia.
Qed.

Lemma tokenize_scan_inv t text : scan_inv text (tokenize_scan t text).
Proof.
  unfold tokenize_scan. apply while_loop_invariant; [|apply scan_inv_init].
  intros s Hs Hc. apply tokenize_body_inv; assumption.
Qed.

(** C10: every token returned by [tokenize] is a non-empty string, for every
    byte sequence and every configuration. *)
Theorem tokenize_tokens_nonempty (t : TextTokenizer) (text : string) :
  Forall (fun token => token <> "" /\ 0 < String.length token) (tokenize t text).
Proof.
  assert (H : Forall nonempty (tokenize t text)).
  { unfold tokenize.
    destruct (tokenize_scan_inv t text) as (_ & _ & Htok).
    destruct (scan_start (tokenize_scan t text) <? String.length text);
      [|exact Htok].
    destruct (string_empty _) eqn:He; simpl; [exact Htok|].
    apply Forall_push_back; [exact Htok|].
    apply normalize_token_nonempty. intros Hn. rewrite Hn in He. discriminate. }
  eapply Forall_impl; [exact H|].
  intros token Hne. split; [exact Hne | apply nonempty_length, Hne].
Qed.

(** C1 at its failing inputs: with lowercase, split_on_punctuation and
    keep_punctuation enabled, the punctuation byte that ends a word of two
    or more bytes is emitted twice, and the second byte of a punctuation run
    that opens the text is not emitted. *)
Theorem tokenize_punctuation_not_once :
  tokenize demo_tokenizer "Hello, world!" =
    ["hello"; ","; ","; "world"; "!"; "!"] /\
  tokenize demo_tokenizer "!!!" = ["!"; "!"].
Proof. split; vm_compute; reflexivity. Qed.

(** * count_tokens *)

Lemma length_push_back {A} (l : list A) x :
  List.length (push_back l x) = List.length l + 1.
Proof. unfold push_back. rewrite length_app. reflexivity. Qed.

Lemma count_run_sim t text fuel cs s :
  count_rel cs s ->
  count_rel (while_loop (count_run_cond t text) (count_run_body t text) fuel cs)
            (while_loop (run_cond t text) (run_body t text) fuel s).
Proof.
  apply while_loop_sim.
  - intros [ci cst cn] [i st tok] (Hi & Hs & Hn); simpl in *; subst.
    reflexivity.
  - intros [ci cst cn] [i st tok] (Hi & Hs & Hn) _; simpl in *; subst.
    unfold count_rel; simpl. repeat split.
    destruct (_ && _ && _); [rewrite length_push_back|]; reflexivity.
Qed.

Lemma count_body_sim t text cs s :
  count_rel cs s -> count_cond text cs = true ->
  count_rel (count_body t text cs) (tokenize_body t text s).
Proof.
  destruct cs as [ci cst cn], s as [i start tokens].
  intros (Hi & Hs & Hn) Hc; simpl in *; subst.
  unfold count_cond in Hc; simpl in Hc. apply Nat.ltb_lt in Hc.
  unfold count_body, tokenize_body; simpl.
  destruct (negb _); [repeat split|].
  destruct (should_split_at t (char_at text i)); [|repeat split].
  match goal with
  | |- count_rel {| count_i := count_i ?a |} {| scan_i := scan_i ?b |} =>
      assert (Hrel : count_rel a b)
  end.
  { apply count_run_sim. unfold count_rel; simpl. repeat split.
    assert (H1 : (if start <? i then List.length tokens + 1 else List.length tokens) =
                 List.length
                   (if start <? i
                    then if negb (string_empty (substr text start (i - start)))
                         then push_back tokens
                                (normalize_token t (substr text start (i - start)))
                         else tokens
                    else tokens)).
    { destruct (start <? i) eqn:Hsi; [|reflexivity].
      apply Nat.ltb_lt in Hsi.
      destruct (string_empty _) eqn:He; simpl.
      - apply string_empty_length in He. rewrite length_substr in He. lia.
      - rewrite length_push_back. reflexivity. }
    rewrite H1.
    destruct (_ && _); [rewrite length_push_back|]; reflexivity. }
  destruct Hrel as (H1 & H2 & H3). unfold count_rel; simpl.
  rewrite H1, H3. repeat split.
Qed.

(** C3: for every byte sequence and every configuration, [count_tokens]
    returns the number of tokens [tokenize] returns. *)
Theorem count_tokens_tokenize (t : TextTokenizer) (text : string) :
  count_tokens t text = List.length (tokenize t text).
Proof.
  assert (Hrel : count_rel (count_scan t text) (tokenize_scan t text)).
  { unfold count_scan, tokenize_scan.
    apply (while_loop_sim count_rel).
    - intros cs s (Hi & _). unfold count_cond, tokenize_cond. rewrite Hi.
      reflexivity.
    - intros cs s HR Hc. apply count_body_sim; assumption.
    - repeat split. }
  destruct Hrel as (_ & Hs & Hn).
  unfold count_tokens, tokenize. rewrite Hs, Hn.
  destruct (scan_start (tokenize_scan t text) <? String.length text) eqn:Hlt;
    [|reflexivity].
  apply Nat.ltb_lt in Hlt.
  destruct (string_empty _) eqn:He; simpl.
  - apply string_empty_length in He. rewrite length_substr_from in He. lia.
  - rewrite length_push_back. reflexivity.
Qed.

(** The loop of [count_tokens] exits within [text.size()] iterations. *)
Lemma count_scan_runs t text :
  while_runs (count_cond text) (count_body t text)
    {| count_i := 0; count_start := 0; count_n := 0 |} (count_scan t text).
Proof.
  apply (while_loop_runs _ _ (fun s => String.length text - count_i s)
           (fun cs => exists s, count_rel cs s /\ scan_inv text s)).
  - intros cs (s & HR & Hinv) Hc.
    assert (Hc' : tokenize_cond text s = true).
    { destruct HR as (Hi & _). unfold tokenize_cond. rewrite <- Hi. exact Hc. }
    destruct (tokenize_body_inv t text s Hinv Hc') as (Hinv' & Hlt).
    pose proof (count_body_sim t text cs s HR Hc) as HR'.
    split; [exists (tokenize_body t text s); split; assumption|].
    destruct HR as (Hi & _), HR' as (Hi' & _). rewrite Hi, Hi'. exact Hlt.
  - exists {| scan_i := 0; scan_start := 0; scan_tokens := [] |}.
    split; [repeat split | apply scan_inv_init].
  - simpl. lia.
Qed.

(** * Machine integers *)

Lemma int_wrap_small z : (int_min <= z <= int_max)%Z -> int_wrap z = z.
Proof.
  unfold int_min, int_max, int_wrap. intros H.
  rewrite Z.mod_small by lia. lia.
Qed.

Lemma int_of_size_small n : (Z.of_nat n <= int_max)%Z -> int_of_size n = Z.of_nat n.
Proof.
  intros H. apply int_wrap_small. unfold int_min, int_max in *. lia.
Qed.

(** * encode *)

Lemma fold_left_push_back {A B} (f : A -> B) (l : list A) : forall acc,
  fold_left (fun ids x => push_back ids (f x)) l acc = acc ++ map f l.
Proof.
  induction l as [|x l IH]; intros acc; simpl.
  - rewrite app_nil_r. reflexivity.
  - rewrite IH. unfold push_back. rewrite <- app_assoc. reflexivity.
Qed.

(** C8: without a vocabulary [encode] returns the positions 0, 1, 2, ... of
    the tokens of [tokenize] (exactly so while the positions fit an [int]);
    with a vocabulary each token is replaced by its id in [vocab_to_id_], or
    by [unk_id_] when it has none. *)
Theorem encode_ids (t : TextTokenizer) (text : string) :
  (use_vocab_ t = false ->
   (Z.of_nat (List.length (tokenize t text)) <= int_max + 1)%Z ->
   encode t text = map Z.of_nat (seq 0 (List.length (tokenize t text)))) /\
  (use_vocab_ t = true ->
   encode t text =
   map (fun token => match vocab_to_id_ t !! token with
                     | Some id => id
                     | None => unk_id_ t
                     end) (tokenize t text)).
Proof.
  unfold encode. split; intros Hv; rewrite Hv; simpl.
  - intros Hlen. rewrite fold_left_push_back. simpl.
    apply map_ext_in. intros i Hi. apply in_seq in Hi.
    apply int_of_size_small. lia.
  - rewrite fold_left_push_back. reflexivity.
Qed.

Lemma encode_length t text :
  List.length (encode t text) = List.length (tokenize t text).
Proof.
  unfold encode.
  destruct (negb (use_vocab_ t)); rewrite fold_left_push_back; simpl;
    rewrite length_map; [apply length_seq | reflexivity].
Qed.

(** * decode *)

Lemma concat_snoc (kept : list string) (token : string) :
  String.concat " " (kept ++ [token]) =
  match kept with
  | [] => token
  | _ :: _ => String.concat " " kept +:+ " " +:+ token
  end.
Proof.
  induction kept as [|x kept IH]; [reflexivity|].
  destruct kept as [|y kept].
  - reflexivity.
  - change (String.concat " " ((x :: y :: kept) ++ [token]))
      with (x +:+ " " +:+ String.concat " " ((y :: kept) ++ [token])).
    rewrite IH.
    change (String.concat " " (x :: y :: kept))
      with (x +:+ " " +:+ String.concat " " (y :: kept)).
    apply bytes_inj. rewrite !bytes_app, <- !app_assoc. reflexivity.
Qed.

Lemma decode_step_kept t s id kept :
  use_vocab_ t = true ->
  (Z.of_nat (List.length (id_to_vocab_ t)) <= int_max)%Z ->
  decode_result s = String.concat " " kept ->
  decode_first s = match kept with [] => true | _ => false end ->
  let s' := decode_step t s id in
  let kept' := kept ++ decode_kept t [id] in
  decode_result s' = String.concat " " kept' /\
  decode_first s' = match kept' with [] => true | _ => false end.
Proof.
  intros Hv Hsize Hres Hfirst. unfold decode_step, decode_kept, vocab_size; simpl.
  rewrite Hv, int_of_size_small by exact Hsize.
  destruct ((0 <=? id)%Z && (id <? Z.of_nat (List.length (id_to_vocab_ t)))%Z)
    eqn:Hrange; simpl.
  2:{ rewrite app_nil_r. auto. }
  apply andb_true_iff in Hrange as [H0 H1].
  apply Z.leb_le in H0. apply Z.ltb_lt in H1.
  destruct (id_to_vocab_ t !! Z.to_nat id) as [token|] eqn:Hlook.
  2:{ apply lookup_ge_None in Hlook. lia. }
  rewrite (nth_lookup_Some _ _ _ _ Hlook). simpl.
  destruct (String.eqb token (pad_token_ t)); simpl.
  { rewrite app_nil_r. auto. }
  rewrite concat_snoc. destruct kept as [|x kept]; simpl in *.
  - rewrite Hfirst, Hres. auto.
  - rewrite Hfirst, Hres. split; [|reflexivity].
    apply bytes_inj. rewrite !bytes_app, <- !app_assoc. reflexivity.
Qed.

Lemma decode_fold t : forall ids s kept,
  use_vocab_ t = true ->
  (Z.of_nat (List.length (id_to_vocab_ t)) <= int_max)%Z ->
  decode_result s = String.concat " " kept ->
  decode_first s = match kept with [] => true | _ => false end ->
  decode_result (fold_left (decode_step t) ids s) =
  String.concat " " (kept ++ decode_kept t ids).
Proof.
  induction ids as [|id ids IH]; intros s kept Hv Hsize Hres Hfirst; simpl.
  - unfold decode_kept; simpl. rewrite app_nil_r. exact Hres.
  - destruct (decode_step_kept t s id kept Hv Hsize Hres Hfirst) as [H1 H2].
    rewrite (IH _ _ Hv Hsize H1 H2), <- app_assoc.
    change (id :: ids) with ([id] ++ ids).
    unfold decode_kept. rewrite omap_app, List.filter_app. reflexivity.
Qed.

(** C7: [decode] returns the empty string without a vocabulary; otherwise it
    skips the ids outside [0, vocab_size) and those naming the pad token and
    joins the remaining vocabulary entries, in order, with single spaces
    (for a vocabulary whose size fits an [int]). *)
Theorem decode_refines_spec (t : TextTokenizer) (ids : list Z) :
  (Z.of_nat (List.length (id_to_vocab_ t)) <= int_max)%Z ->
  decode t ids = decode_spec t ids.
Proof.
  intros Hsize. unfold decode, decode_spec.
  destruct (use_vocab_ t) eqn:Hv; simpl; [|reflexivity].
  apply (decode_fold t ids _ [] Hv Hsize); reflexivity.
Qed.

(** * encode_sequence *)

(** The copy loop appends the ids [token_ids[i .. bound)]. *)
Lemma seq_copy_loop token_ids available_length : forall fuel s,
  let bound := Z.min (int_of_size (List.length token_ids)) available_length in
  (0 <= copy_i s)%Z ->
  (bound <= Z.of_nat (List.length token_ids))%Z ->
  (bound <= int_max)%Z ->
  Z.to_nat (bound - copy_i s) <= fuel ->
  copy_result
    (while_loop (seq_copy_cond token_ids available_length)
       (seq_copy_body token_ids) fuel s) =
  copy_result s ++
  take (Z.to_nat (bound - copy_i s)) (drop (Z.to_nat (copy_i s)) token_ids).
Proof.
  intros fuel s bound. revert s.
  induction fuel as [|fuel IH]; intros [i result] Hi Hb Hmax Hfuel;
    simpl in *.
  - replace (Z.to_nat (bound - i)) with 0 by lia.
    rewrite take_0, app_nil_r. reflexivity.
  - unfold seq_copy_cond at 1; simpl. fold bound.
    destruct (i <? bound)%Z eqn:Hlt.
    + apply Z.ltb_lt in Hlt.
      assert (Hnext : int_add i 1 = (i + 1)%Z).
      { apply int_wrap_small. unfold int_min, int_max in *. lia. }
      unfold seq_copy_body at 2; simpl. rewrite Hnext.
      rewrite IH by (simpl; lia). simpl.
      destruct (token_ids !! Z.to_nat i) as [x|] eqn:Hx.
      2:{ apply lookup_ge_None in Hx. lia. }
      rewrite (nth_lookup_Some _ _ _ _ Hx), (drop_S _ x _ Hx).
      replace (Z.to_nat (bound - i)) with (S (Z.to_nat (bound - (i + 1)))) by lia.
      replace (Z.to_nat (i + 1)) with (S (Z.to_nat i)) by lia.
      unfold push_back. rewrite <- app_assoc. reflexivity.
    + apply Z.ltb_ge in Hlt.
      replace (Z.to_nat (bound - i)) with 0 by lia.
      rewrite take_0, app_nil_r. reflexivity.
Qed.

(** The copy loop of [encode_sequence] exits within [token_ids.size()]
    iterations. *)
Lemma seq_copy_runs token_ids available_length result :
  while_runs (seq_copy_cond token_ids available_length)
    (seq_copy_body token_ids) {| copy_i := 0; copy_result := result |}
    (while_loop (seq_copy_cond token_ids available_length)
       (seq_copy_body token_ids) (List.length token_ids)
       {| copy_i := 0; copy_result := result |}).
Proof.
  set (bound := Z.min (int_of_size (List.length token_ids)) available_length).
  assert (Hwrap : (int_of_size (List.length token_ids) <= int_max)%Z).
  { unfold int_of_size, int_wrap, int_max.
    pose proof (Z.mod_pos_bound (Z.of_nat (List.length token_ids) + 2 ^ 31)
                  (2 ^ 32) ltac:(lia)). lia. }
  assert (Hsize : (int_of_size (List.length token_ids) <=
                   Z.of_nat (List.length token_ids))%Z).
  { unfold int_of_size, int_wrap.
    pose proof (Z.mod_le (Z.of_nat (List.length token_ids) + 2 ^ 31) (2 ^ 32)
                  ltac:(lia) ltac:(lia)). lia. }
  apply (while_loop_runs _ _ (fun s => Z.to_nat (bound - copy_i s))
           (fun s => (0 <= copy_i s)%Z)).
  - intros s Hs Hc. unfold seq_copy_cond in Hc. fold bound in Hc.
    apply Z.ltb_lt in Hc. simpl.
    assert (Hnext : int_add (copy_i s) 1 = (copy_i s + 1)%Z).
    { apply int_wrap_small. unfold int_min, int_max in *. lia. }
    rewrite Hnext. lia.
  - simpl. lia.
  - simpl. lia.
Qed.

Lemma take_min_length {A} (l : list A) n :
  take (Nat.min n (List.length l)) l = take n l.
Proof.
  destruct (Nat.le_ge_cases n (List.length l)).
  - rewrite Nat.min_l by lia. reflexivity.
  - rewrite Nat.min_r by lia. rewrite !take_ge by lia. reflexivity.
Qed.

(** The shape of the result on the special-token path, when the budget
    arithmetic does not overflow. *)
Lemma encode_sequence_shape t text max_length :
  use_vocab_ t = true ->
  (int_min + 2 <= max_length <= int_max)%Z ->
  (Z.of_nat (List.length (encode t text)) <= int_max)%Z ->
  encode_sequence t text max_length true =
  Returns (cls_part t ++
           take (Z.to_nat (max_length -
                           Z.of_nat (List.length (cls_part t ++ sep_part t))))
             (encode t text) ++
           sep_part t).
Proof.
  intros Hv Hm Hlen. unfold encode_sequence, cls_part, sep_part.
  rewrite Hv. simpl. unfold int_min, int_max in Hm.
  set (ids := encode t text) in *.
  assert (Hcopy : forall available_length result,
             (int_min <= available_length <= int_max)%Z ->
             copy_result
               (while_loop (seq_copy_cond ids available_length)
                  (seq_copy_body ids) (List.length ids)
                  {| copy_i := 0; copy_result := result |}) =
             result ++ take (Z.to_nat available_length) ids).
  { intros a r Ha. unfold int_min, int_max in *.
    rewrite seq_copy_loop; simpl; rewrite ?int_of_size_small by exact Hlen;
      unfold int_max; try lia.
    rewrite Z.sub_0_r, drop_0. f_equal.
    rewrite <- take_min_length. symmetry. rewrite <- take_min_length.
    f_equal. lia. }
  destruct (0 <=? cls_id_ t)%Z eqn:Hcls, (0 <=? sep_id_ t)%Z eqn:Hsep; simpl;
    unfold int_sub;
    rewrite ?(int_wrap_small (max_length - 1)),
            ?(int_wrap_small (max_length - 1 - 1)),
            ?(int_wrap_small (max_length - 0)),
            ?(int_wrap_small (max_length - 1 - 0))
      by (unfold int_min, int_max; lia);
    rewrite Hcopy by (unfold int_min, int_max; lia);
    unfold push_back; simpl; rewrite ?app_nil_r.
  all: change (Z.of_nat 2) with 2%Z; change (Z.of_nat 1) with 1%Z;
    change (Z.of_nat 0) with 0%Z; rewrite ?Z.sub_0_r; try reflexivity.
  replace (max_length - 1 - 1)%Z with (max_length - 2)%Z by lia. reflexivity.
Qed.

(** C2 (amended): with a vocabulary installed, special tokens requested and
    no overflow in the budget arithmetic, [encode_sequence] returns
    [cls if valid] ++ (the first max(0, max_length - k) encoded ids) ++
    [sep if valid], k being the number of valid ids among cls and sep; its
    length is at most the larger of max_length and k, hence at most
    max_length whenever max_length >= k. *)
Theorem encode_sequence_special_tokens (t : TextTokenizer) (text : string)
    (max_length : Z) :
  use_vocab_ t = true ->
  (int_min + 2 <= max_length <= int_max)%Z ->
  (Z.of_nat (List.length (encode t text)) <= int_max)%Z ->
  let k := Z.of_nat (List.length (cls_part t ++ sep_part t)) in
  exists ids,
    encode_sequence t text max_length true = Returns ids /\
    ids = cls_part t ++ take (Z.to_nat (max_length - k)) (encode t text) ++
          sep_part t /\
    (Z.of_nat (List.length ids) <= Z.max max_length k)%Z /\
    ((k <= max_length)%Z -> (Z.of_nat (List.length ids) <= max_length)%Z).
Proof.
  intros Hv Hm Hlen k. eexists. split; [|split; [reflexivity|]].
  - apply encode_sequence_shape; assumption.
  - subst k. rewrite !length_app, length_take. split; [|intros Hk]; lia.
Qed.

Lemma encode_sequence_special_tokens_witness :
  use_vocab_ demo_vocab = true /\
  exists ids,
    encode_sequence demo_vocab "Hello big world" 3 true = Returns ids /\
    ids = [0; 3; 1]%Z /\ (Z.of_nat (List.length ids) <= 3)%Z.
Proof.
  split; [reflexivity|].
  destruct (encode_sequence_special_tokens demo_vocab "Hello big world" 3)
    as (ids & Hret & Hids & _ & Hlen).
  - reflexivity.
  - vm_compute. split; discriminate.
  - vm_compute. discriminate.
  - exists ids. split; [exact Hret|]. split; [exact Hids|].
    apply Hlen. vm_compute. discriminate.
Defined.

(** C2 as stated fails: with cls and sep both valid and max_length = 1 the
    result still holds both markers, so its length exceeds max_length. *)
Lemma encode_sequence_exceeds_max_length :
  ~ (forall ids, encode_sequence demo_vocab "Hello big world" 1 true = Returns ids ->
                 (Z.of_nat (List.length ids) <= 1)%Z).
Proof.
  intros H. specialize (H [0; 1]%Z eq_refl). vm_compute in H. apply H. reflexivity.
Qed.

(** On the truncation-only path every negative max_length reaches
    [token_ids.resize] as a size beyond [max_size()]. *)
Lemma encode_sequence_truncation_negative t text max_length add_special_tokens :
  negb add_special_tokens || negb (use_vocab_ t) = true ->
  (int_min <= max_length < 0)%Z ->
  (Z.of_nat (List.length (encode t text)) <= int_max)%Z ->
  encode_sequence t text max_length add_special_tokens = Throws length_error.
Proof.
  intros Hpath Hm Hlen. unfold encode_sequence. rewrite Hpath.
  rewrite int_of_size_small by exact Hlen. unfold int_min in Hm.
  assert (Hlt : (max_length <? Z.of_nat (List.length (encode t text)))%Z = true)
    by (apply Z.ltb_lt; lia).
  rewrite Hlt. unfold vector_resize, size_of_int, vector_int_max_size.
  assert (Hconv : (max_length mod 2 ^ 64 = max_length + 2 ^ 64)%Z).
  { symmetry. apply (Z.mod_unique _ _ (-1)); lia. }
  rewrite Hconv.
  assert (H1 : (max_length + 2 ^ 64 <=? Z.of_nat (List.length (encode t text)))%Z
               = false) by (apply Z.leb_gt; unfold int_max in Hlen; lia).
  assert (H2 : (2 ^ 61 - 1 <? max_length + 2 ^ 64)%Z = true)
    by (apply Z.ltb_lt; lia).
  rewrite H1, H2. reflexivity.
Qed.

(** With max_length <= 0 the special-token path copies no content id. *)
Lemma encode_sequence_special_nonpositive t text max_length :
  use_vocab_ t = true ->
  (int_min + 2 <= max_length <= 0)%Z ->
  (Z.of_nat (List.length (encode t text)) <= int_max)%Z ->
  encode_sequence t text max_length true = Returns (cls_part t ++ sep_part t).
Proof.
  intros Hv Hm Hlen. rewrite encode_sequence_shape; try assumption.
  - replace (Z.to_nat _) with 0 by lia. rewrite take_0. reflexivity.
  - unfold int_max. lia.
Qed.

(** With max_length = 0 the truncation-only path returns no id. *)
Lemma encode_sequence_truncation_zero t text add_special_tokens :
  negb add_special_tokens || negb (use_vocab_ t) = true ->
  (Z.of_nat (List.length (encode t text)) <= int_max)%Z ->
  encode_sequence t text 0 add_special_tokens = Returns [].
Proof.
  intros Hpath Hlen. unfold encode_sequence. rewrite Hpath.
  rewrite int_of_size_small by exact Hlen.
  destruct (encode t text) as [|x ids]; simpl; reflexivity.
Qed.

(** At max_length = INT_MIN the decrement for the cls slot overflows, which
    C++ leaves undefined; with two's-complement wrap-around the budget
    becomes INT_MAX - 1 and every content id is copied. *)
Lemma encode_sequence_int_min_wraps :
  encode_sequence demo_vocab "Hello big world" int_min true =
  Returns [0; 3; -1; 4; 1]%Z.
Proof. vm_compute. reflexivity. Qed.

(** C6 at its failing input: on the truncation-only path (special tokens
    not requested, or no vocabulary installed) max_length = -1 makes
    [encode_sequence] throw [std::length_error] instead of returning no
    content ids. *)
Theorem encode_sequence_negative_max_length_throws :
  encode_sequence demo_vocab "Hello big world" (-1) false = Throws length_error /\
  encode_sequence new_tokenizer "Hello big world" (-1) true = Throws length_error /\
  encode_sequence new_tokenizer "" (-1) false = Throws length_error.
Proof. repeat split; vm_compute; reflexivity. Qed.

(** * Vocabulary installation *)

Lemma entries_inverse_insert m l token :
  entries_inverse m l ->
  entries_inverse (<[token := Z.of_nat (List.length l)]> m) (l ++ [token]).
Proof.
  intros Hinv token' id'. rewrite lookup_insert. case_decide as Heq.
  - intros [= <-]. subst token'. split; [lia|].
    rewrite Nat2Z.id. apply list_lookup_middle. reflexivity.
  - intros Hlook. destruct (Hinv _ _ Hlook) as [H0 Hl]. split; [exact H0|].
    apply lookup_app_l_Some. exact Hl.
Qed.

Lemma entries_consistent_inverse m l :
  entries_consistent m l -> entries_inverse m l.
Proof. intros [_ H] token id. apply H. Qed.

Lemma entries_consistent_insert m l token :
  entries_consistent m l -> m !! token = None ->
  entries_consistent (<[token := Z.of_nat (List.length l)]> m) (l ++ [token]).
Proof.
  intros [Hsize Hiff] Hfresh. split.
  - rewrite map_size_insert_None by exact Hfresh.
    rewrite length_app, Hsize. simpl. lia.
  - intros token' id'. split.
    + apply entries_inverse_insert. intros ? ?. apply Hiff.
    + intros [H0 Hl]. rewrite lookup_insert. case_decide as Heq.
      * subst token'. f_equal.
        destruct (Nat.lt_ge_cases (Z.to_nat id') (List.length l)) as [Hlt|Hge].
        -- rewrite lookup_app_l in Hl by exact Hlt.
           assert (Hm : m !! token = Some id')
             by (apply Hiff; split; assumption).
           congruence.
        -- apply lookup_lt_Some in Hl. rewrite length_app in Hl. simpl in Hl.
           lia.
      * destruct (Nat.lt_ge_cases (Z.to_nat id') (List.length l)) as [Hlt|Hge].
        -- rewrite lookup_app_l in Hl by exact Hlt. apply Hiff. auto.
        -- rewrite lookup_app_r in Hl by exact Hge.
           destruct (Z.to_nat id' - List.length l) as [|n]; simpl in Hl;
             [congruence | discriminate].
Qed.

Lemma entries_consistent_fresh m l token :
  entries_consistent m l -> token ∉ l -> m !! token = None.
Proof.
  intros [_ Hiff] Hnotin. destruct (m !! token) as [id|] eqn:Hm; [|reflexivity].
  apply Hiff in Hm as [_ Hl]. exfalso. apply Hnotin.
  apply list_elem_of_lookup. eauto.
Qed.

Lemma entries_consistent_empty : entries_consistent ∅ [].
Proof.
  split; [reflexivity|]. intros token id. rewrite lookup_empty.
  split; [discriminate | intros [_ H]; discriminate].
Qed.

Lemma store_special_id_vocab t token id :
  vocab_to_id_ (store_special_id t token id) = vocab_to_id_ t /\
  id_to_vocab_ (store_special_id t token id) = id_to_vocab_ t.
Proof. unfold store_special_id. repeat case_match; auto. Qed.

Lemma add_entry_vocab t token id :
  vocab_to_id_ (add_entry t token id) = <[token := id]> (vocab_to_id_ t) /\
  id_to_vocab_ (add_entry t token id) = id_to_vocab_ t ++ [token].
Proof. unfold add_entry. apply store_special_id_vocab. Qed.

(** The loop of [load_vocab]: the list collects the entries in file order,
    the running id is the size of the list, every map entry points at its
    token, and with pairwise distinct entries map and list stay consistent. *)
Lemma load_fold lines : forall t id,
  id = Z.of_nat (List.length (id_to_vocab_ t)) ->
  (Z.of_nat (List.length (id_to_vocab_ t) + List.length lines) <= int_max)%Z ->
  let t' := (fold_left load_line lines (t, id)).1 in
  id_to_vocab_ t' = id_to_vocab_ t ++ vocab_entries lines /\
  (vocab_inverse t -> vocab_inverse t') /\
  (NoDup (id_to_vocab_ t ++ vocab_entries lines) ->
   vocab_consistent t -> vocab_consistent t').
Proof.
  induction lines as [|line lines IH]; intros t id Hid Hmax; simpl.
  - unfold vocab_entries; simpl. rewrite app_nil_r. auto.
  - unfold vocab_entries; simpl. fold (vocab_entries lines).
    destruct (string_empty (rtrim line)) eqn:He; simpl.
    + apply IH; [exact Hid | simpl in Hmax; lia].
    + destruct (add_entry_vocab t (rtrim line) id) as [Hm Hl].
      assert (Hnext : int_add id 1 = (id + 1)%Z).
      { apply int_wrap_small. unfold int_min, int_max in *. simpl in Hmax. lia. }
      rewrite Hnext.
      destruct (IH (add_entry t (rtrim line) id) (id + 1)%Z) as (H1 & H2 & H3).
      { rewrite Hl, length_app. simpl. lia. }
      { rewrite Hl, length_app. simpl in *. lia. }
      rewrite Hl, <- app_assoc in H1, H3. simpl in H1, H3.
      split; [exact H1|]. split.
      * intros Hinv. apply H2. unfold vocab_inverse. rewrite Hm, Hl, Hid.
        apply entries_inverse_insert, Hinv.
      * intros Hnd Hcons. apply H3; [exact Hnd|].
        unfold vocab_consistent. rewrite Hm, Hl, Hid.
        apply entries_consistent_insert; [exact Hcons|].
        apply entries_consistent_fresh with (l := id_to_vocab_ t);
          [exact Hcons|].
        apply NoDup_app in Hnd as (_ & Hdisj & _). intros Hin.
        apply (Hdisj _ Hin). left.
Qed.

Lemma load_vocab_fields t lines :
  let t' := (load_vocab t (Some lines)).2 in
  vocab_to_id_ t' =
    vocab_to_id_ (fold_left load_line lines (with_vocab t ∅ [], 0%Z)).1 /\
  id_to_vocab_ t' =
    id_to_vocab_ (fold_left load_line lines (with_vocab t ∅ [], 0%Z)).1.
Proof.
  unfold load_vocab.
  destruct (fold_left load_line lines (with_vocab t ∅ [], 0%Z)) as [t' id].
  simpl. auto.
Qed.

Lemma add_special_consistent t token :
  vocab_consistent t ->
  (Z.of_nat (List.length (id_to_vocab_ t)) <= int_max)%Z ->
  vocab_consistent (add_special t token) /\
  List.length (id_to_vocab_ (add_special t token)) <=
  List.length (id_to_vocab_ t) + 1.
Proof.
  intros Hcons Hmax. unfold add_special.
  destruct (vocab_to_id_ t !! token) eqn:Hlook; [split; [exact Hcons | lia]|].
  destruct (add_entry_vocab t token (int_of_size (List.length (id_to_vocab_ t))))
    as [Hm Hl].
  unfold vocab_consistent. rewrite Hm, Hl, int_of_size_small by exact Hmax.
  split; [apply entries_consistent_insert; assumption|].
  rewrite length_app. simpl. lia.
Qed.

Lemma add_regular_fold max_vocab_size sorted_tokens : forall t added,
  (int_min + 4 <= max_vocab_size <= int_max)%Z ->
  vocab_consistent t ->
  (0 <= added)%Z ->
  (Z.of_nat (List.length (id_to_vocab_ t)) <= 4 + added)%Z ->
  vocab_consistent (fold_left (add_regular max_vocab_size) sorted_tokens
                      (t, added)).1.
Proof.
  induction sorted_tokens as [|p sorted_tokens IH];
    intros t added Hmax Hcons Hadd Hlen; simpl; [exact Hcons|].
  destruct (vocab_to_id_ t !! p.1) eqn:Hlook; [apply IH; assumption|].
  assert (Hbudget : int_sub max_vocab_size (int_of_size 4) = (max_vocab_size - 4)%Z).
  { unfold int_sub. rewrite (int_of_size_small 4) by (unfold int_max; simpl; lia).
    apply int_wrap_small. unfold int_min, int_max in *. simpl. lia. }
  rewrite Hbudget.
  destruct (added <? max_vocab_size - 4)%Z eqn:Hlt; [|apply IH; assumption].
  apply Z.ltb_lt in Hlt.
  assert (Hnext : int_add added 1 = (added + 1)%Z).
  { apply int_wrap_small. unfold int_min, int_max in *. lia. }
  rewrite Hnext.
  apply IH; [exact Hmax | | lia |].
  - unfold vocab_consistent; simpl.
    rewrite int_of_size_small by (unfold int_max in *; lia).
    apply entries_consistent_insert; assumption.
  - simpl. unfold push_back. rewrite length_app. simpl. lia.
Qed.

Lemma install_vocab_consistent t sorted_tokens max_vocab_size :
  (int_min + 4 <= max_vocab_size <= int_max)%Z ->
  vocab_consistent (install_vocab t sorted_tokens max_vocab_size).
Proof.
  intros Hmax. unfold install_vocab.
  set (cleared := with_vocab t ∅ []).
  assert (H0 : vocab_consistent cleared /\
               List.length (id_to_vocab_ cleared) <= 0)
    by (split; [apply entries_consistent_empty | simpl; lia]).
  simpl fold_left at 2.
  destruct H0 as [C0 L0].
  destruct (add_special_consistent cleared (pad_token_ t) C0) as [C1 L1];
    [unfold int_max; lia|].
  destruct (add_special_consistent _ (unk_token_ t) C1) as [C2 L2];
    [unfold int_max; lia|].
  destruct (add_special_consistent _ (cls_token_ t) C2) as [C3 L3];
    [unfold int_max; lia|].
  destruct (add_special_consistent _ (sep_token_ t) C3) as [C4 L4];
    [unfold int_max; lia|].
  pose proof (add_regular_fold max_vocab_size sorted_tokens _ 0%Z Hmax C4
                ltac:(lia) ltac:(lia)) as Hfold.
  destruct (fold_left (add_regular max_vocab_size) sorted_tokens _) as [t2 added].
  exact Hfold.
Qed.

#[local] Instance by_frequency_dec a b : Decision (by_frequency a b).
Proof. unfold by_frequency. apply _. Defined.

#[local] Instance by_frequency_total : Total by_frequency.
Proof. intros a b. unfold by_frequency. lia. Qed.

#[local] Instance by_frequency_trans : Transitive by_frequency.
Proof. intros a b c. unfold by_frequency. lia. Qed.

(** [build_vocab_from_text] always has an outcome: whatever the traversal
    order of the counts, sorting it yields an admissible [sorted_tokens]. *)
Lemma build_vocab_from_text_total t texts min_frequency max_vocab_size :
  exists t', build_vocab_from_text t texts min_frequency max_vocab_size t'.
Proof.
  set (entries := map_to_list (token_counts t texts)).
  set (kept := filter (fun p => frequent min_frequency p) entries).
  exists (install_vocab t (merge_sort by_frequency kept) max_vocab_size),
    entries, (merge_sort by_frequency kept).
  split; [unfold iteration_order; reflexivity|]. split; [|reflexivity]. split.
  - apply merge_sort_Permutation.
  - apply (StronglySorted_merge_sort by_frequency).
Qed.

(** C5 (amended): after [load_vocab] the list holds the trimmed non-empty
    lines in file order and every map entry names the position of its token
    ([id_to_vocab_[vocab_to_id_[t]] == t]); when those lines are pairwise
    distinct, map and list have the same size and the ids are 0..N-1 in
    insertion order.  After [build_vocab_from_text] the latter always holds.
    Both are for installations whose sizes fit an [int]. *)
Theorem vocab_installation_consistent :
  (forall t lines,
      (Z.of_nat (List.length lines) <= int_max)%Z ->
      let t' := (load_vocab t (Some lines)).2 in
      id_to_vocab_ t' = vocab_entries lines /\
      vocab_inverse t' /\
      (NoDup (vocab_entries lines) -> vocab_consistent t')) /\
  (forall t texts min_frequency max_vocab_size t',
      (int_min + 4 <= max_vocab_size <= int_max)%Z ->
      build_vocab_from_text t texts min_frequency max_vocab_size t' ->
      vocab_consistent t').
Proof.
  split.
  - intros t lines Hmax t'.
    destruct (load_vocab_fields t lines) as [Hm Hl]. fold t' in Hm, Hl.
    destruct (load_fold lines (with_vocab t ∅ []) 0%Z) as (H1 & H2 & H3);
      [reflexivity | simpl; lia |].
    simpl in H1, H3. unfold vocab_inverse, vocab_consistent in *.
    rewrite Hm, Hl. split; [exact H1|]. split.
    + apply H2. intros token id. simpl. rewrite lookup_empty. discriminate.
    + intros Hnd. apply H3; [exact Hnd | apply entries_consistent_empty].
  - intros t texts min_frequency max_vocab_size t' Hmax
      (entries & sorted_tokens & _ & _ & ->).
    apply install_vocab_consistent, Hmax.
Qed.

(** The element count of the map is not the size of the list once a line
    of the vocabulary file repeats. *)
Lemma load_vocab_duplicate_lines :
  ~ vocab_consistent (load_vocab new_tokenizer (Some ["the"; "cat"; "the"])).2.
Proof. intros [Hsize _]. vm_compute in Hsize. discriminate Hsize. Qed.

Lemma vocab_installation_consistent_witness :
  vocab_consistent
    (load_vocab demo_tokenizer
       (Some ["[CLS]"; "[SEP]"; "[PAD]"; "hello"; "world"])).2 /\
  vocab_consistent
    (install_vocab demo_tokenizer [("b", 2%Z); ("a", 1%Z)] 50000).
Proof.
  split.
  - apply (proj1 vocab_installation_consistent demo_tokenizer
             ["[CLS]"; "[SEP]"; "[PAD]"; "hello"; "world"]).
    + vm_compute. discriminate.
    + apply (bool_decide_unpack _). vm_compute. exact I.
  - apply (proj2 vocab_installation_consistent demo_tokenizer ["b a b"] 1%Z
             50000%Z).
    + vm_compute. split; discriminate.
    + exists [("a", 1%Z); ("b", 2%Z)], [("b", 2%Z); ("a", 1%Z)].
      split; [vm_compute; reflexivity|]. split; [|reflexivity].
      split; [apply perm_swap|].
      apply (bool_decide_unpack _). vm_compute. exact I.
Defined.

(** * Special-token ids *)

Lemma special_distinct_neq t :
  special_distinct t ->
  unk_token_ t <> pad_token_ t /\ unk_token_ t <> cls_token_ t /\
  unk_token_ t <> sep_token_ t /\ pad_token_ t <> cls_token_ t /\
  pad_token_ t <> sep_token_ t /\ cls_token_ t <> sep_token_ t.
Proof.
  unfold special_distinct. rewrite !NoDup_cons.
  intros (H1 & H2 & H3 & _). set_solver.
Qed.

Lemma add_entry_special_tokens t token id :
  unk_token_ (add_entry t token id) = unk_token_ t /\
  pad_token_ (add_entry t token id) = pad_token_ t /\
  cls_token_ (add_entry t token id) = cls_token_ t /\
  sep_token_ (add_entry t token id) = sep_token_ t.
Proof.
  unfold add_entry, store_special_id. simpl. repeat case_match; auto.
Qed.

(** Recording an entry under a non-negative id keeps the ids in step with
    the map, when the special strings are pairwise different. *)
Lemma add_entry_special_match t token id :
  special_distinct t -> (0 <= id)%Z ->
  special_ids_match t -> special_ids_match (add_entry t token id).
Proof.
  intros Hd Hid (Hu & Hp & Hc & Hs).
  apply special_distinct_neq in Hd as (N1 & N2 & N3 & N4 & N5 & N6).
  unfold special_ids_match, add_entry, store_special_id. simpl.
  destruct (String.eqb_spec token (unk_token_ t)) as [->|E1]; simpl.
  { rewrite lookup_insert_eq, !lookup_insert_ne by congruence.
    repeat split; try assumption; try apply Hp; try apply Hc; try apply Hs;
      try discriminate; intros; lia. }
  destruct (String.eqb_spec token (pad_token_ t)) as [->|E2]; simpl.
  { rewrite lookup_insert_eq, !lookup_insert_ne by congruence.
    repeat split; try assumption; try apply Hu; try apply Hc; try apply Hs;
      try discriminate; intros; lia. }
  destruct (String.eqb_spec token (cls_token_ t)) as [->|E3]; simpl.
  { rewrite lookup_insert_eq, !lookup_insert_ne by congruence.
    repeat split; try assumption; try apply Hu; try apply Hp; try apply Hs;
      try discriminate; intros; lia. }
  destruct (String.eqb_spec token (sep_token_ t)) as [->|E4]; simpl.
  { rewrite lookup_insert_eq, !lookup_insert_ne by congruence.
    repeat split; try assumption; try apply Hu; try apply Hp; try apply Hc;
      try discriminate; intros; lia. }
  rewrite !lookup_insert_ne by congruence.
  repeat split; try apply Hu; try apply Hp; try apply Hc; try apply Hs.
Qed.

Lemma load_fold_special_match lines : forall t id,
  special_distinct t -> special_ids_match t ->
  (0 <= id)%Z -> (id + Z.of_nat (List.length lines) <= int_max)%Z ->
  special_distinct (fold_left load_line lines (t, id)).1 /\
  special_ids_match (fold_left load_line lines (t, id)).1.
Proof.
  induction lines as [|line lines IH]; intros t id Hd Hm Hid Hmax; simpl;
    [auto|].
  destruct (string_empty (rtrim line)); simpl.
  - apply IH; try assumption. simpl in Hmax. lia.
  - assert (Hnext : int_add id 1 = (id + 1)%Z).
    { apply int_wrap_small. unfold int_min, int_max in *. simpl in Hmax. lia. }
    rewrite Hnext. apply IH.
    + unfold special_distinct.
      destruct (add_entry_special_tokens t (rtrim line) id)
        as (-> & -> & -> & ->). exact Hd.
    + apply add_entry_special_match; assumption.
    + lia.
    + simpl in Hmax. lia.
Qed.

(** On a tokenizer that has no vocabulary yet (its four ids still -1) and
    whose special strings are pairwise different, [load_vocab] leaves each
    id at -1 exactly when its string is not in the vocabulary. *)
Lemma load_vocab_first_special_match t lines :
  special_distinct t ->
  unk_id_ t = (-1)%Z -> pad_id_ t = (-1)%Z ->
  cls_id_ t = (-1)%Z -> sep_id_ t = (-1)%Z ->
  (Z.of_nat (List.length lines) <= int_max)%Z ->
  special_ids_match (load_vocab t (Some lines)).2.
Proof.
  intros Hd Hu Hp Hc Hs Hmax. unfold load_vocab.
  destruct (load_fold_special_match lines (with_vocab t ∅ []) 0%Z) as [_ Hm];
    try assumption; try lia.
  { unfold special_ids_match; simpl. rewrite !lookup_empty. tauto. }
  destruct (fold_left load_line lines (with_vocab t ∅ [], 0%Z)) as [t' id].
  exact Hm.
Qed.

(** C4 at its failing input: a vocabulary with "[UNK]" is loaded, then one
    without it.  The second load replaces the vocabulary but leaves
    [unk_id_] at 0, the id of a different token now, although "[UNK]" is no
    entry of the installed vocabulary. *)
Theorem special_id_stale_after_reload :
  installed reloaded_vocab /\
  vocab_to_id_ reloaded_vocab !! unk_token_ reloaded_vocab = None /\
  unk_id_ reloaded_vocab = 0%Z /\
  id_to_vocab_ reloaded_vocab !! 0 = Some "hello" /\
  ~ special_ids_match reloaded_vocab.
Proof.
  split; [apply installed_load, installed_load, installed_new|].
  split; [vm_compute; reflexivity|].
  split; [vm_compute; reflexivity|].
  split; [vm_compute; reflexivity|].
  intros (Hu & _).
  assert (H : unk_id_ reloaded_vocab = (-1)%Z)
    by (apply Hu; vm_compute; reflexivity).
  vm_compute in H. discriminate H.
Qed.

(** * UTF-8 safety *)

(** [normalize_token] leaves every byte with the high bit set where and as
    it was. *)
Lemma normalize_token_keeps_high_bytes t token k c :
  bytes token !! k = Some c -> (128 <= uchar c)%N ->
  bytes (normalize_token t token) !! k = Some c.
Proof.
  intros Hk Hc.
  destruct (Forall2_lookup_l _ _ _ _ _ (normalize_token_bytes t token) Hk)
    as (c' & Hk' & [->|[Hlow _]]); [exact Hk' | lia].
Qed.

Lemma tokenize_cafe :
  tokenize (set_lowercase true new_tokenizer) cafe = [cafe] /\
  tokenize (set_lowercase true new_tokenizer) ("CAF" +:+ e_acute) = [cafe].
Proof. split; vm_compute; reflexivity. Qed.

Lemma ascii_char_length c : (uchar c < 128)%N -> utf8_char_length (uchar c) = 1.
Proof.
  intros H. unfold utf8_char_length. rewrite uchar_high_bit.
  apply N.ltb_lt in H. rewrite H. reflexivity.
Qed.

Lemma is_ascii_punct_ascii c : is_ascii_punct c = true -> (uchar c < 128)%N.
Proof.
  destruct c as [[] [] [] [] [] [] [] []]; vm_compute; intros H;
    first [reflexivity | discriminate H].
Qed.

Lemma should_split_at_ascii t c :
  ascii_delimiters t -> should_split_at t c = true -> (uchar c < 128)%N.
Proof.
  intros Hd. unfold should_split_at. intros H.
  apply orb_true_iff in H as [H|H].
  - apply Hd. apply bool_decide_eq_true in H. exact H.
  - apply andb_true_iff in H as [_ H]. apply is_ascii_punct_ascii, H.
Qed.

Lemma boundary_after_ascii text i :
  char_boundary text i -> i < String.length text ->
  (uchar (char_at text i) < 128)%N -> char_boundary text (i + 1).
Proof.
  intros Hb Hi Hc. rewrite <- (ascii_char_length _ Hc).
  apply boundary_next; assumption.
Qed.

Lemma char_slice_one t text i :
  char_boundary text i -> char_boundary text (i + 1) ->
  char_slice t text (normalize_token t (substr text i 1)).
Proof.
  intros Hi Hi'. exists i, (i + 1). repeat split; try assumption; try lia.
  replace (i + 1 - i) with 1 by lia. reflexivity.
Qed.

Lemma run_loop_chars t text :
  ascii_delimiters t ->
  forall fuel s, scan_chars t text s ->
    scan_chars t text (while_loop (run_cond t text) (run_body t text) fuel s).
Proof.
  intros Hd fuel s Hs. apply while_loop_invariant; [|exact Hs].
  clear s Hs. intros [i start tokens] (Hi & Hst & Htok) Hc.
  unfold run_cond in Hc; simpl in *.
  apply andb_true_iff in Hc as [Hlt Hsplit]. apply Nat.ltb_lt in Hlt.
  pose proof (should_split_at_ascii t _ Hd Hsplit) as Hascii.
  pose proof (boundary_after_ascii text i Hi Hlt Hascii) as Hnext.
  unfold scan_chars; simpl. repeat split; try assumption.
  destruct (_ && _ && _); [|exact Htok].
  apply Forall_push_back; [exact Htok | apply char_slice_one; assumption].
Qed.

Lemma tokenize_body_chars t text s :
  ascii_delimiters t -> scan_chars t text s -> tokenize_cond text s = true ->
  scan_chars t text (tokenize_body t text s).
Proof.
  intros Hd. destruct s as [i start tokens].
  intros (Hi & Hst & Htok) Hc. unfold tokenize_cond in Hc; simpl in *.
  apply Nat.ltb_lt in Hc. unfold tokenize_body; simpl.
  destruct (N.land (uchar (char_at text i)) 128 =? 0)%N eqn:Hhigh; simpl.
  2:{ repeat split; simpl; try assumption. apply boundary_next; assumption. }
  rewrite uchar_high_bit in Hhigh. apply N.ltb_lt in Hhigh.
  pose proof (boundary_after_ascii text i Hi Hc Hhigh) as Hnext.
  destruct (should_split_at t (char_at text i)) eqn:Hsplit; simpl.
  2:{ repeat split; simpl; assumption. }
  set (tokens1 := if start <? i then _ else _).
  set (tokens2 := if keep_punctuation_ t && _ then _ else _).
  assert (Htok1 : Forall (char_slice t text) tokens1).
  { subst tokens1. destruct (start <? i) eqn:Hsi; [|exact Htok].
    apply Nat.ltb_lt in Hsi.
    destruct (negb _); [|exact Htok].
    apply Forall_push_back; [exact Htok|].
    exists start, i. repeat split; assumption. }
  assert (Htok2 : Forall (char_slice t text) tokens2).
  { subst tokens2. destruct (_ && _); [|exact Htok1].
    apply Forall_push_back; [exact Htok1 | apply char_slice_one; assumption]. }
  destruct (run_loop_chars t text Hd (String.length text - i)
              {| scan_i := i; scan_start := start; scan_tokens := tokens2 |})
    as (Hri & _ & Hrt); [repeat split; assumption|].
  repeat split; assumption.
Qed.

(** When every delimiter is an ASCII byte, each token of [tokenize] is the
    normalized run of whole characters between two character boundaries of
    the text: no multi-byte character is split or taken for a delimiter. *)
Lemma tokenize_whole_characters t text :
  ascii_delimiters t -> Forall (char_slice t text) (tokenize t text).
Proof.
  intros Hd.
  assert (Hinv : scan_chars t text (tokenize_scan t text)).
  { unfold tokenize_scan. apply while_loop_invariant.
    - intros s Hs Hc. apply tokenize_body_chars; assumption.
    - repeat split; simpl; try apply boundary_start. constructor. }
  pose proof (while_runs_exit _ _ _ _ (tokenize_scan_runs t text)) as Hexit.
  unfold tokenize_cond in Hexit. apply Nat.ltb_ge in Hexit.
  destruct Hinv as (Hi & Hst & Htok). unfold tokenize.
  destruct (scan_start (tokenize_scan t text) <? String.length text) eqn:Hlt;
    [|exact Htok].
  apply Nat.ltb_lt in Hlt. destruct (negb _); [|exact Htok].
  apply Forall_push_back; [exact Htok|].
  exists (scan_start (tokenize_scan t text)), (scan_i (tokenize_scan t text)).
  repeat split; try assumption; try lia.
  f_equal. apply bytes_inj. unfold substr_from, substr.
  rewrite !bytes_substring.
  rewrite !take_ge by (rewrite length_drop, bytes_length; lia). reflexivity.
Qed.

Lemma new_tokenizer_ascii_delimiters : ascii_delimiters new_tokenizer.
Proof.
  intros c Hc. simpl in Hc.
  repeat (apply elem_of_union in Hc as [Hc|Hc]);
    apply elem_of_singleton in Hc; subst c; reflexivity.
Qed.

(** C9 as stated fails: once a lead byte is among the delimiters (here
    through [add_delimiters] with the two bytes of U+00E9), the run loop
    consumes it after another delimiter and a character is cut in two: the
    token returned for " " followed by U+00FC is the lone continuation
    byte 188. *)
Lemma tokenize_splits_character_after_delimiter :
  tokenize (add_delimiters e_acute new_tokenizer) (" " +:+ u_umlaut) =
    [String "188" ""] /\
  ~ Forall (char_slice (add_delimiters e_acute new_tokenizer) (" " +:+ u_umlaut))
      (tokenize (add_delimiters e_acute new_tokenizer) (" " +:+ u_umlaut)).
Proof.
  assert (Heval : tokenize (add_delimiters e_acute new_tokenizer)
                    (" " +:+ u_umlaut) = [String "188" ""])
    by (vm_compute; reflexivity).
  split; [exact Heval|]. rewrite Heval. intros Hall.
  apply Forall_inv in Hall. destruct Hall as (a & b & Ha & Hb & Hab & Htok).
  assert (Hbound : forall k, char_boundary (" " +:+ u_umlaut) k ->
                             k = 0 \/ k = 1 \/ k = 3).
  { intros k Hk. induction Hk as [|k Hk IH Hlt]; [auto|].
    simpl in Hlt. destruct IH as [->|[->| ->]]; simpl; auto; lia. }
  destruct (Hbound a Ha) as [->|[->| ->]], (Hbound b Hb) as [->|[->| ->]];
    try lia; vm_compute in Htok; discriminate Htok.
Qed.

Lemma high_bytes_app l1 l2 :
  high_bytes (l1 ++ l2) = high_bytes l1 ++ high_bytes l2.
Proof. unfold high_bytes. apply List.filter_app. Qed.

Lemma high_bytes_ascii l :
  Forall (fun c => (uchar c < 128)%N) l -> high_bytes l = [].
Proof.
  induction 1 as [|c l Hc _ IH]; [reflexivity|].
  unfold high_bytes in *. simpl.
  destruct (N.leb_spec 128 (uchar c)); [lia | exact IH].
Qed.

Lemma to_ascii_lower_low c :
  (uchar c < 128)%N -> (uchar (to_ascii_lower c) < 128)%N.
Proof.
  destruct c as [[] [] [] [] [] [] [] []]; vm_compute; intros H; exact H.
Qed.

Lemma high_bytes_norm l l' :
  Forall2 norm_byte l l' -> high_bytes l' = high_bytes l.
Proof.
  induction 1 as [|c c' l l' Hc _ IH]; [reflexivity|].
  unfold high_bytes in *. simpl.
  destruct Hc as [->|[Hlow ->]]; [rewrite IH; reflexivity|].
  pose proof (to_ascii_lower_low c Hlow) as Hlow'.
  destruct (N.leb_spec 128 (uchar (to_ascii_lower c))); [lia|].
  destruct (N.leb_spec 128 (uchar c)); [lia | exact IH].
Qed.

(** [push_back] of a normalized slice adds the high bytes of the slice. *)
Lemma high_bytes_push t text tokens a n :
  high_bytes
    (concat (map bytes (push_back tokens (normalize_token t (substr text a n))))) =
  high_bytes (concat (map bytes tokens)) ++
  high_bytes (take n (drop a (bytes text))).
Proof.
  unfold push_back. rewrite map_app, concat_app, high_bytes_app. simpl.
  rewrite app_nil_r, (high_bytes_norm _ _ (normalize_token_bytes t _)).
  unfold substr. rewrite bytes_substring. reflexivity.
Qed.

Lemma high_bytes_take_ascii text j :
  j < String.length text -> (uchar (char_at text j) < 128)%N ->
  high_bytes (take (j + 1) (bytes text)) = high_bytes (take j (bytes text)).
Proof.
  intros Hj Hc.
  rewrite Nat.add_1_r, (take_S_r _ _ _ (char_at_lookup text j Hj)).
  rewrite high_bytes_app, (high_bytes_ascii [char_at text j]), app_nil_r;
    [reflexivity | repeat constructor; exact Hc].
Qed.

Lemma high_bytes_one text j :
  j < String.length text -> (uchar (char_at text j) < 128)%N ->
  high_bytes (take 1 (drop j (bytes text))) = [].
Proof.
  intros Hj Hc. rewrite (drop_S _ _ _ (char_at_lookup text j Hj)).
  cbn [take]. rewrite ?take_0. apply high_bytes_ascii. repeat constructor. exact Hc.
Qed.

Lemma delimited_slice_one t text i :
  char_boundary text i -> char_boundary text (i + 1) ->
  should_split_at t (char_at text i) = true ->
  delimited_slice t text (normalize_token t (substr text i 1)).
Proof.
  intros Hi Hi' Hsplit. exists i, (i + 1).
  split; [exact Hi|]. split; [exact Hi'|]. split; [lia|].
  split; [replace (i + 1 - i) with 1 by lia; reflexivity|].
  left. split; [reflexivity | exact Hsplit].
Qed.

Lemma run_loop_safe t text i0 :
  ascii_delimiters t ->
  forall fuel s, run_safe t text i0 s ->
    run_safe t text i0
      (while_loop (run_cond t text) (run_body t text) fuel s).
Proof.
  intros Hd fuel s Hs. apply while_loop_invariant; [|exact Hs].
  clear s Hs. intros [j start tokens] (Hj & Hle & Hprev & Htok & Hhigh) Hc.
  unfold run_cond in Hc. cbn [scan_i scan_start scan_tokens] in *.
  apply andb_true_iff in Hc as [Hlt Hsplit]. apply Nat.ltb_lt in Hlt.
  pose proof (should_split_at_ascii t _ Hd Hsplit) as Hascii.
  pose proof (boundary_after_ascii text j Hj Hlt Hascii) as Hnext.
  unfold run_safe, run_body. cbn [scan_i scan_start scan_tokens].
  split; [exact Hnext|]. split; [lia|].
  split; [right; replace (j + 1 - 1) with j by lia; exact Hsplit|].
  rewrite (high_bytes_take_ascii text j Hlt Hascii).
  destruct (_ && _ && _); [|split; assumption].
  split.
  - apply Forall_push_back; [exact Htok|].
    apply delimited_slice_one; assumption.
  - rewrite high_bytes_push, (high_bytes_one text j Hlt Hascii), app_nil_r.
    exact Hhigh.
Qed.

Lemma tokenize_body_safe t text s :
  ascii_delimiters t -> scan_safe t text s -> tokenize_cond text s = true ->
  scan_safe t text (tokenize_body t text s).
Proof.
  intros Hd. destruct s as [i start tokens].
  intros (Hi & Hst & Hle & Hprev & Htok & Hhigh) Hc.
  unfold tokenize_cond in Hc. cbn [scan_i scan_start scan_tokens] in *.
  apply Nat.ltb_lt in Hc.
  unfold tokenize_body, scan_safe. cbn [scan_i scan_start scan_tokens].
  destruct (N.land (uchar (char_at text i)) 128 =? 0)%N eqn:Hhb; cbn [negb].
  2:{ cbn [scan_i scan_start scan_tokens].
      pose proof (utf8_char_length_pos (uchar (char_at text i))).
      split; [apply boundary_next; assumption|]. split; [exact Hst|].
      split; [lia|]. split; [exact Hprev|]. split; assumption. }
  rewrite uchar_high_bit in Hhb. apply N.ltb_lt in Hhb.
  pose proof (boundary_after_ascii text i Hi Hc Hhb) as Hnext.
  destruct (should_split_at t (char_at text i)) eqn:Hsplit;
    cbn [scan_i scan_start scan_tokens].
  2:{ split; [exact Hnext|]. split; [exact Hst|]. split; [lia|].
      split; [exact Hprev|]. split; assumption. }
  set (tokens1 := if start <? i then _ else _).
  set (tokens2 := if keep_punctuation_ t && _ then _ else _).
  assert (Htok1 : Forall (delimited_slice t text) tokens1 /\
                  high_bytes (concat (map bytes tokens1)) =
                  high_bytes (take i (bytes text))).
  { subst tokens1. destruct (Nat.ltb_spec start i) as [Hsi|Hsi].
    - assert (Hne : string_empty (substr text start (i - start)) = false).
      { destruct (string_empty _) eqn:E; [|reflexivity].
        apply string_empty_length in E. rewrite length_substr in E. lia. }
      rewrite Hne. cbn [negb]. split.
      + apply Forall_push_back; [exact Htok|]. exists start, i.
        split; [exact Hst|]. split; [exact Hi|]. split; [exact Hsi|].
        split; [reflexivity|]. right.
        split; [exact Hprev | right; exact Hsplit].
      + rewrite high_bytes_push, Hhigh, <- high_bytes_app, take_take_drop.
        do 2 f_equal. lia.
    - assert (start = i) by lia. subst start. split; assumption. }
  destruct Htok1 as [Htok1 Hhigh1].
  assert (Htok2 : Forall (delimited_slice t text) tokens2 /\
                  high_bytes (concat (map bytes tokens2)) =
                  high_bytes (take i (bytes text))).
  { subst tokens2. destruct (_ && _); [|split; assumption]. split.
    - apply Forall_push_back; [exact Htok1|].
      apply delimited_slice_one; assumption.
    - rewrite high_bytes_push, (high_bytes_one text i Hc Hhb), app_nil_r.
      exact Hhigh1. }
  destruct Htok2 as [Htok2 Hhigh2].
  pose proof (run_loop_advances t text i start tokens2 Hc Hsplit) as Hadv.
  destruct (run_loop_safe t text i Hd (String.length text - i)
              {| scan_i := i; scan_start := start; scan_tokens := tokens2 |})
    as (Hri & Hrle & Hrprev & Hrtok & Hrhigh).
  { unfold run_safe. cbn [scan_i scan_start scan_tokens].
    split; [exact Hi|]. split; [lia|]. split; [left; reflexivity|].
    split; assumption. }
  split; [exact Hri|]. split; [exact Hri|]. split; [lia|].
  split; [right; destruct Hrprev as [E|E]; [lia | exact E]|].
  split; assumption.
Qed.

(** When every delimiter is an ASCII byte, [tokenize] cuts the text at
    splitting bytes only and every byte with the high bit set reaches a
    token: the tokens hold those bytes of the text, all of them, once and in
    order. *)
Lemma tokenize_delimited t text :
  ascii_delimiters t ->
  Forall (delimited_slice t text) (tokenize t text) /\
  high_bytes (concat (map bytes (tokenize t text))) = high_bytes (bytes text).
Proof.
  intros Hd.
  assert (Hinv : scan_safe t text (tokenize_scan t text)).
  { unfold tokenize_scan. apply while_loop_invariant.
    - intros s Hs Hc. apply tokenize_body_safe; assumption.
    - unfold scan_safe. cbn [scan_i scan_start scan_tokens].
      split; [apply boundary_start|]. split; [apply boundary_start|].
      split; [lia|]. split; [left; reflexivity|].
      split; [constructor | reflexivity]. }
  pose proof (while_runs_exit _ _ _ _ (tokenize_scan_runs t text)) as Hexit.
  unfold tokenize_cond in Hexit. apply Nat.ltb_ge in Hexit.
  destruct Hinv as (Hi & Hst & Hle & Hprev & Htok & Hhigh). unfold tokenize.
  destruct (tokenize_scan t text) as [i start tokens].
  cbn [scan_i scan_start scan_tokens] in *.
  destruct (Nat.ltb_spec start (String.length text)) as [Hlt|Hge].
  - assert (Hne : string_empty (substr_from text start) = false).
    { destruct (string_empty _) eqn:E; [|reflexivity].
      apply string_empty_length in E. rewrite length_substr_from in E. lia. }
    rewrite Hne. cbn [negb].
    assert (Hsub : substr_from text start = substr text start (i - start)).
    { apply bytes_inj. unfold substr_from, substr. rewrite !bytes_substring.
      rewrite !take_ge by (rewrite length_drop, bytes_length; lia).
      reflexivity. }
    rewrite Hsub. split.
    + apply Forall_push_back; [exact Htok|]. exists start, i.
      split; [exact Hst|]. split; [exact Hi|]. split; [lia|].
      split; [reflexivity|]. right. split; [exact Hprev | left; exact Hexit].
    + rewrite high_bytes_push, Hhigh, <- high_bytes_app, take_take_drop.
      f_equal. apply take_ge. rewrite bytes_length. lia.
  - split; [exact Htok|]. rewrite Hhigh. f_equal. apply take_ge.
    rewrite bytes_length. lia.
Qed.

(** C9 (amended): when every delimiter is an ASCII byte, as by default,
    [tokenize] takes no byte with the high bit set for a delimiter: every
    splitting byte is ASCII, every token is cut out of the text at
    splitting bytes only (it is one kept punctuation byte, or a run that
    begins at the start of the text or right after a splitting byte and
    ends at the end of the text or right before one), and the bytes with
    the high bit set reach the tokens, all of them, once and in order.
    Every token is the normalized run of whole characters between two
    character boundaries, so no multi-byte character is split across
    tokens.  Under every configuration [normalize_token] leaves each byte
    with the high bit set unchanged, and "cafe" with U+00E9 as last letter
    comes back as one token with lowercase enabled. *)
Theorem tokenize_utf8_safe (t : TextTokenizer) (text : string) :
  (ascii_delimiters t ->
   (forall c, should_split_at t c = true -> (uchar c < 128)%N) /\
   Forall (char_slice t text) (tokenize t text) /\
   Forall (delimited_slice t text) (tokenize t text) /\
   high_bytes (concat (map bytes (tokenize t text))) =
   high_bytes (bytes text)) /\
  (forall k c, bytes text !! k = Some c -> (128 <= uchar c)%N ->
               bytes (normalize_token t text) !! k = Some c) /\
  tokenize (set_lowercase true new_tokenizer) cafe = [cafe].
Proof.
  split; [|split].
  - intros Hd. split; [|split].
    + intros c. apply should_split_at_ascii, Hd.
    + apply tokenize_whole_characters, Hd.
    + apply tokenize_delimited, Hd.
  - intros k c. apply normalize_token_keeps_high_bytes.
  - apply tokenize_cafe.
Qed.

Lemma tokenize_utf8_safe_witness :
  Forall (char_slice demo_tokenizer ("Caf" +:+ e_acute +:+ ", " +:+ u_umlaut))
    (tokenize demo_tokenizer ("Caf" +:+ e_acute +:+ ", " +:+ u_umlaut)) /\
  Forall (delimited_slice demo_tokenizer
            ("Caf" +:+ e_acute +:+ ", " +:+ u_umlaut))
    (tokenize demo_tokenizer ("Caf" +:+ e_acute +:+ ", " +:+ u_umlaut)) /\
  high_bytes
    (concat (map bytes
               (tokenize demo_tokenizer
                  ("Caf" +:+ e_acute +:+ ", " +:+ u_umlaut)))) =
  bytes (e_acute +:+ u_umlaut) /\
  tokenize demo_tokenizer ("Caf" +:+ e_acute +:+ ", " +:+ u_umlaut) =
    [cafe; ","; ","; u_umlaut] /\
  bytes (normalize_token demo_tokenizer ("Caf" +:+ e_acute)) !! 3 =
    Some "195"%char.
Proof.
  destruct (proj1 (tokenize_utf8_safe demo_tokenizer
                     ("Caf" +:+ e_acute +:+ ", " +:+ u_umlaut))
              new_tokenizer_ascii_delimiters) as (_ & Hslice & Hcut & Hhigh).
  split; [exact Hslice|]. split; [exact Hcut|]. split; [exact Hhigh|].
  split; [vm_compute; reflexivity|].
  apply (proj1 (proj2 (tokenize_utf8_safe demo_tokenizer ("Caf" +:+ e_acute)))).
  - reflexivity.
  - vm_compute. discriminate.
Defined.

(** * Remaining loops and instances of the theorems *)

(** The copy loop of [normalize_token] exits within [len] iterations. *)
Lemma copy_loop_runs token i len result :
  while_runs (copy_cond token i len) (copy_body token i)
    {| norm_i := 0; norm_result := result |}
    (while_loop (copy_cond token i len) (copy_body token i) len
       {| norm_i := 0; norm_result := result |}).
Proof.
  apply (while_loop_runs _ _ (fun s => len - norm_i s) (fun _ => True));
    [|exact I | simpl; lia].
  intros s _ Hc. split; [exact I|].
  unfold copy_cond in Hc. apply andb_true_iff in Hc as [Hj _].
  apply Nat.ltb_lt in Hj. simpl. lia.
Qed.

(** The inner loop of [count_tokens] exits within the bytes that remain. *)
Lemma count_run_loop_runs t text fuel s :
  String.length text - count_i s <= fuel ->
  while_runs (count_run_cond t text) (count_run_body t text) s
    (while_loop (count_run_cond t text) (count_run_body t text) fuel s).
Proof.
  apply (while_loop_runs _ _ (fun s => String.length text - count_i s)
           (fun _ => True)); [|exact I].
  intros s' _ Hc. split; [exact I|].
  unfold count_run_cond in Hc. apply andb_true_iff in Hc as [Hi _].
  apply Nat.ltb_lt in Hi. simpl. lia.
Qed.

Lemma decode_refines_spec_witness :
  (Z.of_nat (List.length (id_to_vocab_ demo_vocab)) <= int_max)%Z /\
  decode demo_vocab [0; 3; 7; 2; -1; 4; 1]%Z =
  decode_spec demo_vocab [0; 3; 7; 2; -1; 4; 1]%Z /\
  decode_spec demo_vocab [0; 3; 7; 2; -1; 4; 1]%Z = "[CLS] hello world [SEP]".
Proof.
  split; [vm_compute; discriminate|]. split; [|vm_compute; reflexivity].
  apply decode_refines_spec. vm_compute. discriminate.
Defined.

Lemma encode_ids_witness :
  encode new_tokenizer "to be or not" =
    map Z.of_nat (seq 0 (List.length (tokenize new_tokenizer "to be or not"))) /\
  encode demo_vocab "Hello big world" =
    map (fun token => match vocab_to_id_ demo_vocab !! token with
                      | Some id => id
                      | None => unk_id_ demo_vocab
                      end) (tokenize demo_vocab "Hello big world").
Proof.
  split.
  - apply (proj1 (encode_ids new_tokenizer "to be or not")).
    + reflexivity.
    + vm_compute. discriminate.
  - apply (proj2 (encode_ids demo_vocab "Hello big world")). reflexivity.
Defined.

(** * Further properties of the code *)

(** ** Bytes *)

(** X1: the bit masks of [utf8_char_length] and [is_utf8_start] as byte
    ranges: the declared length is 1 below 0xC0 and from 0xF8 on, 2 for
    0xC0-0xDF, 3 for 0xE0-0xEF and 4 for 0xF0-0xF7, and a byte starts a
    character exactly when it is ASCII or in 0xC0-0xF7. *)
Theorem utf8_lead_byte_ranges (c : ascii) :
  let n := uchar c in
  utf8_char_length n =
    (if (n <? 0xC0)%N then 1 else if (n <? 0xE0)%N then 2
     else if (n <? 0xF0)%N then 3 else if (n <? 0xF8)%N then 4 else 1) /\
  is_utf8_start n = ((n <? 0x80) || (0xC0 <=? n) && (n <? 0xF8))%N.
Proof. destruct c as [[] [] [] [] [] [] [] []]; split; reflexivity. Qed.

Lemma to_ascii_lower_facts c :
  to_ascii_lower (to_ascii_lower c) = to_ascii_lower c /\
  (uchar (to_ascii_lower c) <? 128)%N = (uchar c <? 128)%N /\
  is_ascii_punct (to_ascii_lower c) = is_ascii_punct c.
Proof. destruct c as [[] [] [] [] [] [] [] []]; repeat split; reflexivity. Qed.

(** ** rtrim *)

Lemma rtrim_empty_iff s :
  string_empty (rtrim s) = true <->
  Forall (fun c => is_trailing_space c = true) (bytes s).
Proof.
  induction s as [|c s IH]; simpl.
  - split; [constructor | reflexivity].
  - destruct (string_empty (rtrim s)) eqn:He; simpl.
    + destruct (is_trailing_space c) eqn:Hc; simpl.
      * split; [intros _; constructor; [exact Hc | apply IH; reflexivity]
               | reflexivity].
      * split; [discriminate|]. intros H. apply Forall_cons in H as [H _].
        congruence.
    + split; [discriminate|]. intros H. apply Forall_cons in H as [_ H].
      apply IH in H. discriminate.
Qed.

Lemma rtrim_facts (line : string) :
  (exists ws, line = rtrim line +:+ ws /\
              Forall (fun c => is_trailing_space c = true) (bytes ws)) /\
  (forall c, last (bytes (rtrim line)) = Some c -> is_trailing_space c = false) /\
  rtrim (rtrim line) = rtrim line.
Proof.
  induction line as [|c s (IH1 & IH2 & IH3)]; simpl.
  - split; [exists ""; split; [reflexivity | constructor]|].
    split; [discriminate | reflexivity].
  - destruct (string_empty (rtrim s)) eqn:He; simpl.
    + pose proof (proj1 (rtrim_empty_iff s) He) as Hall.
      destruct (is_trailing_space c) eqn:Hc; simpl.
      * split; [exists (String c s); split; [reflexivity|constructor; assumption]|].
        split; [discriminate | reflexivity].
      * destruct (rtrim s) eqn:Hr; [|discriminate]. simpl.
        split; [|split].
        -- destruct IH1 as (ws & Hs & Hws). exists ws.
           split; [cbn; f_equal; exact Hs | exact Hws].
        -- intros c' [= <-]. exact Hc.
        -- rewrite Hc. reflexivity.
    + split; [|split].
      * destruct IH1 as (ws & Hs & Hws). exists ws.
        split; [|exact Hws].
        change (String c (rtrim s) +:+ ws) with (String c (rtrim s +:+ ws)).
        f_equal. exact Hs.
      * destruct (rtrim s) as [|c1 r] eqn:Hr; [discriminate|].
        simpl in *. exact IH2.
      * rewrite IH3, He. reflexivity.
Qed.

(** X2: the trimming [load_vocab] applies to a line removes exactly its
    maximal trailing run of spaces, tabs, carriage returns and newlines: the
    line is the result followed by such bytes only, the result does not end
    in one, and trimming again changes nothing. *)
Theorem rtrim_spec (line : string) :
  (exists ws, line = rtrim line +:+ ws /\
              Forall (fun c => is_trailing_space c = true) (bytes ws)) /\
  (forall c, last (bytes (rtrim line)) = Some c -> is_trailing_space c = false) /\
  rtrim (rtrim line) = rtrim line.
Proof. apply rtrim_facts. Qed.

(** ** normalize_token, exactly *)

Lemma norm_list_skip k : forall l,
  norm_list k l = take k l ++ norm_list 0 (drop k l).
Proof.
  induction k as [|k IH]; intros l; [reflexivity|].
  destruct l as [|c l]; [reflexivity|]. simpl. rewrite IH. reflexivity.
Qed.

Lemma normalize_body_exact token s :
  normalize_exact token s -> normalize_cond token s = true ->
  normalize_exact token (normalize_body token s).
Proof.
  destruct s as [i result]. unfold normalize_exact, normalize_cond; simpl.
  intros Hinv Hi. apply Nat.ltb_lt in Hi.
  pose proof (char_at_lookup token i Hi) as Hc.
  rewrite (drop_S _ _ _ Hc) in Hinv. simpl in Hinv.
  unfold normalize_body; simpl. rewrite uchar_high_bit.
  destruct (uchar (char_at token i) <? 128)%N eqn:Hlow; simpl.
  - unfold push_char. rewrite bytes_app, <- app_assoc. simpl.
    replace (i + 1) with (S i) by lia. exact Hinv.
  - pose proof (utf8_char_length_pos (uchar (char_at token i))) as Hlen.
    set (len := utf8_char_length (uchar (char_at token i))) in *.
    pose proof (copy_loop_bytes token i len len
                  {| norm_i := 0; norm_result := result |}) as Hcopy.
    simpl in Hcopy. rewrite Hcopy by lia.
    rewrite Nat.sub_0_r, Nat.add_0_r, <- app_assoc, <- Hinv. f_equal.
    destruct len as [|k]; [lia|].
    rewrite (drop_S _ _ _ Hc). simpl. rewrite Nat.sub_0_r. f_equal.
    rewrite (norm_list_skip k), drop_drop. do 3 f_equal. lia.
Qed.

Lemma normalize_token_norm_list t token :
  lowercase_ t = true ->
  bytes (normalize_token t token) = norm_list 0 (bytes token).
Proof.
  intros Hl. unfold normalize_token. rewrite Hl. simpl.
  pose proof (while_runs_exit _ _ _ _ (normalize_token_runs token)) as Hexit.
  set (r := while_loop _ _ _ _) in *.
  assert (Hinv : normalize_exact token r).
  { apply while_loop_invariant.
    - intros s Hs Hc. apply normalize_body_exact; assumption.
    - unfold normalize_exact; simpl. rewrite drop_0. reflexivity. }
  unfold normalize_exact in Hinv. unfold normalize_cond in Hexit.
  apply Nat.ltb_ge in Hexit.
  rewrite drop_ge in Hinv by (rewrite bytes_length; exact Hexit).
  simpl in Hinv. rewrite app_nil_r in Hinv. exact Hinv.
Qed.

Lemma norm_list_idemp : forall l k, norm_list k (norm_list k l) = norm_list k l.
Proof.
  induction l as [|c l IH]; intros k; [reflexivity|].
  destruct k as [|k]; simpl.
  - destruct (to_ascii_lower_facts c) as (H1 & H2 & _).
    destruct (uchar c <? 128)%N eqn:Hc; simpl.
    + rewrite H2, H1, IH. reflexivity.
    + rewrite Hc, IH. reflexivity.
  - rewrite IH. reflexivity.
Qed.

Lemma norm_list_ascii l :
  Forall (fun c => (uchar c < 128)%N) l -> norm_list 0 l = map to_ascii_lower l.
Proof.
  induction 1 as [|c l Hc _ IH]; [reflexivity|]. simpl.
  apply N.ltb_lt in Hc. rewrite Hc, IH. reflexivity.
Qed.

(** X3: [normalize_token] is idempotent under every configuration, and on a
    token of ASCII bytes with lowercase enabled it is the byte-wise
    [to_ascii_lower]. *)
Theorem normalize_token_idempotent (t : TextTokenizer) (token : string) :
  normalize_token t (normalize_token t token) = normalize_token t token /\
  (lowercase_ t = true ->
   Forall (fun c => (uchar c < 128)%N) (bytes token) ->
   bytes (normalize_token t token) = map to_ascii_lower (bytes token)).
Proof.
  split.
  - destruct (lowercase_ t) eqn:Hl.
    + apply bytes_inj. rewrite !normalize_token_norm_list by exact Hl.
      apply norm_list_idemp.
    + unfold normalize_token. rewrite Hl. reflexivity.
  - intros Hl Hascii. rewrite normalize_token_norm_list by exact Hl.
    apply norm_list_ascii, Hascii.
Qed.

Lemma normalize_token_idempotent_witness :
  bytes (normalize_token demo_tokenizer "Hello World") =
  map to_ascii_lower (bytes "Hello World") /\
  normalize_token demo_tokenizer "Hello World" = "hello world".
Proof.
  split; [|vm_compute; reflexivity].
  apply (proj2 (normalize_token_idempotent demo_tokenizer "Hello World")).
  - reflexivity.
  - apply (bool_decide_unpack _). vm_compute. exact I.
Defined.

(** ** tokenize: size and edge cases *)

Lemma run_guard_true i start : run_guard i start = true -> start + 2 <= i.
Proof.
  unfold run_guard. destruct (0 <? i - start) eqn:H; intros Hg;
    apply Nat.ltb_lt in Hg; [lia|]. apply Nat.ltb_ge in H. lia.
Qed.

Lemma run_loop_count t text start i0 B fuel s :
  scan_start s = start -> i0 <= scan_i s ->
  List.length (scan_tokens s) <= B + (scan_i s - Nat.max i0 (start + 2)) ->
  List.length (scan_tokens
                 (while_loop (run_cond t text) (run_body t text) fuel s)) <=
  B + (scan_i (while_loop (run_cond t text) (run_body t text) fuel s) -
       Nat.max i0 (start + 2)).
Proof.
  intros Hs Hi Hlen.
  assert (H : (fun s => scan_start s = start /\ i0 <= scan_i s /\
                        List.length (scan_tokens s) <=
                        B + (scan_i s - Nat.max i0 (start + 2)))
                (while_loop (run_cond t text) (run_body t text) fuel s)).
  { apply while_loop_invariant; [|auto].
    clear. intros [i st tokens] (Hs & Hi & Hlen) _. simpl in *. subst st.
    split; [reflexivity|]. split; [lia|].
    destruct (keep_punctuation_ t && is_ascii_punct (char_at text i)); simpl;
      [|lia].
    destruct (run_guard i start) eqn:Hg; [|lia].
    apply run_guard_true in Hg. rewrite length_push_back. lia. }
  apply H.
Qed.

Lemma tokenize_body_count t text s :
  scan_count text s -> tokenize_cond text s = true ->
  scan_count text (tokenize_body t text s).
Proof.
  intros [Hinv Hlen] Hc.
  split; [apply tokenize_body_inv; assumption|].
  destruct s as [i start tokens]. destruct Hinv as (Hsi & Hsl & _).
  unfold tokenize_cond in Hc. simpl in *. apply Nat.ltb_lt in Hc.
  unfold tokenize_body; simpl.
  destruct (negb _); simpl; [exact Hlen|].
  destruct (should_split_at t (char_at text i)) eqn:Hsplit; simpl;
    [|exact Hlen].
  set (tokens1 := if start <? i then _ else _).
  set (tokens2 := if keep_punctuation_ t && _ then _ else _).
  assert (H1 : List.length tokens1 <=
               List.length tokens + (if start <? i then 1 else 0)).
  { subst tokens1. destruct (start <? i); [|lia].
    destruct (negb _); [rewrite length_push_back|]; lia. }
  assert (H2 : List.length tokens2 <= List.length tokens1 + 1).
  { subst tokens2. destruct (_ && _); [rewrite length_push_back|]; lia. }
  pose proof (run_loop_advances t text i start tokens2 Hc Hsplit) as Hadv.
  pose proof (run_loop_count t text start i
                (List.length tokens + (if start <? i then 1 else 0) + 1)
                (String.length text - i)
                {| scan_i := i; scan_start := start; scan_tokens := tokens2 |}
                eq_refl (Nat.le_refl _)) as Hrun.
  simpl in Hrun. specialize (Hrun ltac:(lia)).
  destruct (start <? i) eqn:Hlt;
    [apply Nat.ltb_lt in Hlt | apply Nat.ltb_ge in Hlt]; lia.
Qed.

(** X4: [tokenize] never returns more tokens than the text has bytes, for
    every byte sequence and configuration (although a punctuation byte can be
    pushed twice). *)
Theorem tokenize_length_le_bytes (t : TextTokenizer) (text : string) :
  List.length (tokenize t text) <= String.length text.
Proof.
  assert (H : scan_count text (tokenize_scan t text)).
  { unfold tokenize_scan. apply while_loop_invariant.
    - intros s Hs Hc. apply tokenize_body_count; assumption.
    - split; [apply scan_inv_init | simpl; lia]. }
  destruct H as [(_ & Hsl & _) Hlen]. unfold tokenize.
  destruct (scan_start (tokenize_scan t text) <? String.length text) eqn:Hlt;
    [|lia].
  apply Nat.ltb_lt in Hlt.
  destruct (negb _); [rewrite length_push_back|]; lia.
Qed.

Lemma char_at_in_bytes text i :
  i < String.length text -> In (char_at text i) (bytes text).
Proof.
  intros Hi. apply list_elem_of_In, list_elem_of_lookup.
  exists i. apply char_at_lookup, Hi.
Qed.

Lemma substr_from_zero text : substr_from text 0 = text.
Proof.
  apply bytes_inj. unfold substr_from. rewrite bytes_substring, drop_0.
  apply take_ge. rewrite bytes_length. lia.
Qed.

Lemma tokenize_no_split (t : TextTokenizer) (text : string) :
  text <> "" ->
  Forall (fun c => should_split_at t c = false) (bytes text) ->
  tokenize t text = [normalize_token t text].
Proof.
  intros Hne Hall.
  assert (H : (fun s => scan_start s = 0 /\ scan_tokens s = [])
                (tokenize_scan t text)).
  { unfold tokenize_scan. apply while_loop_invariant; [|auto].
    intros [i start tokens] [Hs Ht] Hc. simpl in *. subst.
    unfold tokenize_cond in Hc. simpl in Hc. apply Nat.ltb_lt in Hc.
    unfold tokenize_body; simpl.
    destruct (negb _); [auto|].
    rewrite (proj1 (List.Forall_forall _ _) Hall _ (char_at_in_bytes text i Hc)).
    auto. }
  destruct H as [Hs Ht]. unfold tokenize. rewrite Hs, Ht.
  assert (Hlen : 0 < String.length text) by (apply nonempty_length, Hne).
  apply Nat.ltb_lt in Hlen. rewrite Hlen, substr_from_zero.
  destruct text; [congruence|]. reflexivity.
Qed.

(** X5: a non-empty text none of whose bytes splits comes back as one token,
    the whole text normalized; this covers any single word, multi-byte
    characters included. *)
Theorem tokenize_single_token (t : TextTokenizer) (text : string) :
  text <> "" ->
  Forall (fun c => should_split_at t c = false) (bytes text) ->
  tokenize t text = [normalize_token t text].
Proof. apply tokenize_no_split. Qed.

Lemma tokenize_single_token_witness :
  tokenize (set_lowercase true new_tokenizer) ("Na" +:+ e_acute +:+ "VE") =
  [normalize_token (set_lowercase true new_tokenizer)
     ("Na" +:+ e_acute +:+ "VE")].
Proof.
  apply tokenize_single_token.
  - discriminate.
  - apply (bool_decide_unpack _). vm_compute. exact I.
Defined.

(** X6: the empty text gives no token, and neither does a text made only of
    ASCII splitting bytes none of which is a punctuation byte to keep (for
    instance whitespace only). *)
Theorem tokenize_only_delimiters (t : TextTokenizer) (text : string) :
  Forall (fun c => (uchar c < 128)%N /\ should_split_at t c = true /\
                   keep_punctuation_ t && is_ascii_punct c = false)
    (bytes text) ->
  tokenize t text = [].
Proof.
  intros Hall.
  assert (Hat : forall i, i < String.length text ->
                          (uchar (char_at text i) < 128)%N /\
                          should_split_at t (char_at text i) = true /\
                          keep_punctuation_ t && is_ascii_punct (char_at text i)
                          = false).
  { intros i Hi.
    apply (proj1 (List.Forall_forall _ _) Hall _ (char_at_in_bytes text i Hi)). }
  assert (Hrun : forall fuel s, scan_tokens s = [] ->
            scan_tokens (while_loop (run_cond t text) (run_body t text) fuel s)
            = []).
  { intros fuel s Hs.
    apply (while_loop_invariant _ _ (fun s => scan_tokens s = [])); [|exact Hs].
    intros [i st tokens] Ht Hc. simpl in *. subst tokens.
    unfold run_cond in Hc. simpl in Hc.
    apply andb_true_iff in Hc as [Hi _]. apply Nat.ltb_lt in Hi.
    destruct (Hat i Hi) as (_ & _ & ->). reflexivity. }
  assert (H : (fun s => scan_tokens s = [] /\
                        (scan_start s = scan_i s \/ scan_i s = 0))
                (tokenize_scan t text)).
  { unfold tokenize_scan. apply while_loop_invariant; [|simpl; auto].
    intros [i start tokens] [Ht Hs] Hc. simpl in *. subst tokens.
    unfold tokenize_cond in Hc. simpl in Hc. apply Nat.ltb_lt in Hc.
    destruct (Hat i Hc) as (Hlow & Hsplit & Hkeep).
    unfold tokenize_body; simpl.
    rewrite uchar_high_bit. apply N.ltb_lt in Hlow. rewrite Hlow. simpl.
    rewrite Hsplit, Hkeep.
    assert (Hsi : (start <? i) = false).
    { apply Nat.ltb_ge. destruct Hs as [->| ->]; lia. }
    rewrite Hsi. split; [apply Hrun; reflexivity | left; reflexivity]. }
  destruct H as [Ht Hs].
  pose proof (while_runs_exit _ _ _ _ (tokenize_scan_runs t text)) as Hexit.
  unfold tokenize_cond in Hexit. apply Nat.ltb_ge in Hexit.
  unfold tokenize. rewrite Ht.
  destruct (scan_start (tokenize_scan t text) <? String.length text) eqn:Hlt;
    [|reflexivity].
  apply Nat.ltb_lt in Hlt.
  destruct Hs as [Hs|Hs]; [lia|].
  assert (String.length text = 0) by lia. lia.
Qed.

Lemma tokenize_only_delimiters_witness :
  tokenize demo_vocab (String " " (String "009" (String "010" "  "))) = [].
Proof.
  apply tokenize_only_delimiters.
  apply (bool_decide_unpack _). vm_compute. exact I.
Defined.

(** ** Tokenization depends on the four settings only *)

Lemma normalize_token_config t t' token :
  lowercase_ t = lowercase_ t' -> normalize_token t token = normalize_token t' token.
Proof. intros H. unfold normalize_token. rewrite H. reflexivity. Qed.

Lemma should_split_at_config t t' c :
  same_config t t' -> should_split_at t c = should_split_at t' c.
Proof.
  intros (Hd & _ & _ & Hs). unfold should_split_at. rewrite Hd, Hs. reflexivity.
Qed.

Lemma run_loop_config t t' text fuel s :
  same_config t t' ->
  while_loop (run_cond t text) (run_body t text) fuel s =
  while_loop (run_cond t' text) (run_body t' text) fuel s.
Proof.
  intros Hcfg. apply (while_loop_sim eq); [| |reflexivity].
  - intros a b <-. unfold run_cond.
    rewrite (should_split_at_config t t' _ Hcfg). reflexivity.
  - intros a b <- _. unfold run_body.
    destruct Hcfg as (_ & Hl & Hk & _).
    rewrite Hk, (normalize_token_config t t' _ Hl). reflexivity.
Qed.

Lemma tokenize_config t t' text :
  same_config t t' -> tokenize t text = tokenize t' text.
Proof.
  intros Hcfg.
  assert (Hscan : tokenize_scan t text = tokenize_scan t' text).
  { unfold tokenize_scan. apply (while_loop_sim eq); [| |reflexivity].
    - intros a b <-. reflexivity.
    - intros a b <- _. unfold tokenize_body.
      rewrite (should_split_at_config t t' _ Hcfg).
      pose proof Hcfg as (_ & Hl & Hk & _).
      rewrite Hk, !(normalize_token_config t t' _ Hl).
      rewrite (run_loop_config t t' text _ _ Hcfg). reflexivity. }
  unfold tokenize. rewrite Hscan.
  destruct Hcfg as (_ & Hl & _).
  rewrite (normalize_token_config t t' _ Hl). reflexivity.
Qed.

Lemma count_run_loop_config t t' text fuel s :
  same_config t t' ->
  while_loop (count_run_cond t text) (count_run_body t text) fuel s =
  while_loop (count_run_cond t' text) (count_run_body t' text) fuel s.
Proof.
  intros Hcfg. apply (while_loop_sim eq); [| |reflexivity].
  - intros a b <-. unfold count_run_cond.
    rewrite (should_split_at_config t t' _ Hcfg). reflexivity.
  - intros a b <- _. unfold count_run_body.
    destruct Hcfg as (_ & _ & Hk & _). rewrite Hk. reflexivity.
Qed.

Lemma count_tokens_config t t' text :
  same_config t t' -> count_tokens t text = count_tokens t' text.
Proof.
  intros Hcfg.
  assert (Hscan : count_scan t text = count_scan t' text).
  { unfold count_scan. apply (while_loop_sim eq); [| |reflexivity].
    - intros a b <-. reflexivity.
    - intros a b <- _. unfold count_body.
      rewrite (should_split_at_config t t' _ Hcfg).
      pose proof Hcfg as (_ & _ & Hk & _). rewrite Hk.
      rewrite (count_run_loop_config t t' text _ _ Hcfg). reflexivity. }
  unfold count_tokens. rewrite Hscan. reflexivity.
Qed.

Lemma same_config_refl t : same_config t t.
Proof. repeat split. Qed.

Lemma same_config_trans t1 t2 t3 :
  same_config t1 t2 -> same_config t2 t3 -> same_config t1 t3.
Proof.
  intros (A1 & A2 & A3 & A4) (B1 & B2 & B3 & B4).
  repeat split; congruence.
Qed.

Lemma add_entry_config t token id : same_config t (add_entry t token id).
Proof. unfold add_entry, store_special_id. simpl. repeat case_match; repeat split. Qed.

Lemma load_fold_config lines : forall s,
  same_config s.1 (fold_left load_line lines s).1.
Proof.
  induction lines as [|line lines IH]; intros [t id]; simpl;
    [apply same_config_refl|].
  destruct (negb _).
  - eapply same_config_trans; [apply add_entry_config | apply (IH (_, _))].
  - apply (IH (_, _)).
Qed.

Lemma load_vocab_config t file : same_config t (load_vocab t file).2.
Proof.
  destruct file as [lines|]; simpl; [|apply same_config_refl].
  pose proof (load_fold_config lines (with_vocab t ∅ [], 0%Z)) as H.
  destruct (fold_left load_line lines (with_vocab t ∅ [], 0%Z)) as [t' id].
  exact H.
Qed.

Lemma add_regular_fold_config max_vocab_size sorted_tokens : forall s,
  same_config s.1 (fold_left (add_regular max_vocab_size) sorted_tokens s).1.
Proof.
  induction sorted_tokens as [|p l IH]; intros [t added]; simpl;
    [apply same_config_refl|].
  destruct (vocab_to_id_ t !! p.1); [apply (IH (_, _))|].
  destruct (_ <? _)%Z; [|apply (IH (_, _))].
  eapply same_config_trans; [|apply (IH (_, _))]. repeat split.
Qed.

Lemma add_special_config t token : same_config t (add_special t token).
Proof.
  unfold add_special. destruct (vocab_to_id_ t !! token);
    [apply same_config_refl | apply add_entry_config].
Qed.

Lemma install_vocab_config t sorted_tokens max_vocab_size :
  same_config t (install_vocab t sorted_tokens max_vocab_size).
Proof.
  unfold install_vocab. simpl fold_left at 2.
  match goal with
  | |- context [fold_left (add_regular _) _ (?t1, _)] =>
      assert (H1 : same_config t t1)
  end.
  { repeat (eapply same_config_trans; [|apply add_special_config]).
    repeat split. }
  match goal with
  | |- context [fold_left (add_regular ?m) ?l ?s] =>
      pose proof (add_regular_fold_config m l s) as H2;
      destruct (fold_left (add_regular m) l s) as [t2 added]
  end.
  simpl in H2. eapply same_config_trans; [exact H1|].
  eapply same_config_trans; [exact H2|]. repeat split.
Qed.

(** X7: installing a vocabulary or renaming the special tokens never changes
    how text is tokenized or counted: [tokenize] and [count_tokens] give the
    same results after [load_vocab] (whether or not the file opens), after
    [build_vocab_from_text] and after [set_special_tokens]. *)
Theorem vocabulary_keeps_tokenization (t : TextTokenizer) (text : string) :
  (forall file,
      tokenize (load_vocab t file).2 text = tokenize t text /\
      count_tokens (load_vocab t file).2 text = count_tokens t text) /\
  (forall texts min_frequency max_vocab_size t',
      build_vocab_from_text t texts min_frequency max_vocab_size t' ->
      tokenize t' text = tokenize t text /\
      count_tokens t' text = count_tokens t text) /\
  (forall unk pad cls sep,
      tokenize (set_special_tokens unk pad cls sep t) text = tokenize t text /\
      count_tokens (set_special_tokens unk pad cls sep t) text =
      count_tokens t text).
Proof.
  split; [|split].
  - intros file. pose proof (load_vocab_config t file) as H.
    split; symmetry; [apply tokenize_config | apply count_tokens_config]; exact H.
  - intros texts mf mv t' (entries & sorted_tokens & _ & _ & ->).
    pose proof (install_vocab_config t sorted_tokens mv) as H.
    split; symmetry; [apply tokenize_config | apply count_tokens_config]; exact H.
  - intros unk pad cls sep.
    assert (H : same_config t (set_special_tokens unk pad cls sep t))
      by (repeat split).
    split; symmetry; [apply tokenize_config | apply count_tokens_config]; exact H.
Qed.

Lemma vocabulary_keeps_tokenization_witness :
  tokenize (install_vocab demo_tokenizer [("b", 2%Z); ("a", 1%Z)] 50000)
    "Hello, world!" = tokenize demo_tokenizer "Hello, world!".
Proof.
  apply (proj1 (proj2 (vocabulary_keeps_tokenization demo_tokenizer
                         "Hello, world!")) ["b a b"] 1%Z 50000%Z).
  exists [("a", 1%Z); ("b", 2%Z)], [("b", 2%Z); ("a", 1%Z)].
  split; [vm_compute; reflexivity|]. split; [|reflexivity].
  split; [apply perm_swap|].
  apply (bool_decide_unpack _). vm_compute. exact I.
Defined.

(** ** tokenize: a word, a delimiter, the rest *)

Lemma while_runs_det {St} (cond : St -> bool) (body : St -> St) s a b :
  while_runs cond body s a -> while_runs cond body s b -> a = b.
Proof.
  intros Ha. revert b. induction Ha as [s Hc|s a Hc _ IH]; intros b Hb.
  - inversion Hb; subst; [reflexivity | congruence].
  - inversion Hb; subst; [congruence | apply IH; assumption].
Qed.

Lemma while_runs_iter_inv {St} (cond : St -> bool) (body : St -> St) s f :
  cond s = true -> while_runs cond body s f -> while_runs cond body (body s) f.
Proof. intros Hc Hr. inversion Hr; subst; [congruence | assumption]. Qed.

Lemma while_runs_sim {A B} (R : A -> B -> Prop)
    (c1 : A -> bool) (b1 : A -> A) (c2 : B -> bool) (b2 : B -> B) :
  (forall a b, R a b -> c1 a = c2 b) ->
  (forall a b, R a b -> c2 b = true -> R (b1 a) (b2 b)) ->
  forall b b', while_runs c2 b2 b b' ->
  forall a, R a b -> exists a', while_runs c1 b1 a a' /\ R a' b'.
Proof.
  intros Hc Hb b b' Hr. induction Hr as [b Hcb|b b' Hcb _ IH]; intros a HR.
  - exists a. split; [|exact HR]. apply while_exit.
    rewrite (Hc a b HR). exact Hcb.
  - destruct (IH (b1 a) (Hb a b HR Hcb)) as (a' & Hra & HR').
    exists a'. split; [|exact HR']. apply while_iter; [|exact Hra].
    rewrite (Hc a b HR). exact Hcb.
Qed.

Lemma while_loop_exit_now {St} (cond : St -> bool) (body : St -> St) fuel s :
  cond s = false -> while_loop cond body fuel s = s.
Proof. intros Hc. destruct fuel; simpl; [|rewrite Hc]; reflexivity. Qed.

Section Shift.
Variables (text rest : string) (pre : list ascii).
Hypothesis Htext : bytes text = pre ++ bytes rest.

Lemma shift_length : String.length text = List.length pre + String.length rest.
Proof. rewrite <- !bytes_length, Htext, length_app. reflexivity. Qed.

Lemma shift_char_at j : char_at text (List.length pre + j) = char_at rest j.
Proof.
  unfold char_at. rewrite <- !bytes_lookup, Htext.
  rewrite lookup_app_r by lia.
  replace (List.length pre + j - List.length pre) with j by lia. reflexivity.
Qed.

Lemma shift_substr s n :
  substr text (List.length pre + s) n = substr rest s n.
Proof.
  apply bytes_inj. unfold substr. rewrite !bytes_substring, Htext.
  rewrite drop_app_add. reflexivity.
Qed.

Lemma shift_substr_from s :
  substr_from text (List.length pre + s) = substr_from rest s.
Proof.
  unfold substr_from. fold (substr text (List.length pre + s)
                              (String.length text - (List.length pre + s))).
  rewrite shift_substr, shift_length. unfold substr. f_equal. lia.
Qed.

Lemma run_guard_shift j s :
  run_guard (List.length pre + j) (List.length pre + s) = run_guard j s.
Proof.
  unfold run_guard.
  replace (List.length pre + j - (List.length pre + s)) with (j - s) by lia.
  destruct (0 <? j - s);
    destruct (Nat.ltb_spec (List.length pre + s + 1) (List.length pre + j));
    destruct (Nat.ltb_spec (s + 1) j);
    destruct (Nat.ltb_spec (List.length pre + s + 0) (List.length pre + j));
    destruct (Nat.ltb_spec (s + 0) j); try reflexivity; lia.
Qed.

Lemma run_loop_shift t T fuel sf sr :
  scan_shift (List.length pre) T sf sr ->
  scan_shift (List.length pre) T
    (while_loop (run_cond t text) (run_body t text) fuel sf)
    (while_loop (run_cond t rest) (run_body t rest) fuel sr).
Proof.
  apply while_loop_sim.
  - intros [i st tok] [j s tok'] (Hi & Hs & Ht). simpl in *. subst.
    unfold run_cond. simpl. rewrite shift_char_at, shift_length.
    f_equal. destruct (Nat.ltb_spec (List.length pre + j)
                         (List.length pre + String.length rest));
      destruct (Nat.ltb_spec j (String.length rest)); try reflexivity; lia.
  - intros [i st tok] [j s tok'] (Hi & Hs & Ht) _. simpl in *. subst.
    unfold scan_shift. simpl. split; [lia|]. split; [reflexivity|].
    rewrite shift_char_at, run_guard_shift, shift_substr.
    destruct (_ && _ && _); [|reflexivity].
    unfold push_back. rewrite app_assoc. reflexivity.
Qed.

Lemma tokenize_cond_shift T sf sr :
  scan_shift (List.length pre) T sf sr ->
  tokenize_cond text sf = tokenize_cond rest sr.
Proof.
  intros (Hi & _). unfold tokenize_cond. rewrite Hi, shift_length.
  destruct (Nat.ltb_spec (List.length pre + scan_i sr)
              (List.length pre + String.length rest));
    destruct (Nat.ltb_spec (scan_i sr) (String.length rest));
    try reflexivity; lia.
Qed.

Lemma tokenize_body_shift t T sf sr :
  scan_shift (List.length pre) T sf sr ->
  scan_shift (List.length pre) T (tokenize_body t text sf)
    (tokenize_body t rest sr).
Proof.
  destruct sf as [i st tok], sr as [j s tok'].
  intros (Hi & Hs & Ht). simpl in *. subst.
  unfold tokenize_body. simpl. rewrite shift_char_at.
  destruct (negb _); [repeat split; simpl; lia|].
  destruct (should_split_at t (char_at rest j)); [|repeat split; simpl; lia].
  match goal with
  | |- scan_shift _ _ {| scan_i := scan_i ?a |} {| scan_i := scan_i ?b |} =>
      assert (Hrun : scan_shift (List.length pre) T a b)
  end.
  { rewrite shift_length.
    replace (List.length pre + String.length rest - (List.length pre + j))
      with (String.length rest - j) by lia.
    apply run_loop_shift. unfold scan_shift. simpl.
    split; [reflexivity|]. split; [reflexivity|].
    replace (List.length pre + j - (List.length pre + s)) with (j - s) by lia.
    rewrite !shift_substr.
    assert (Hlt : (List.length pre + s <? List.length pre + j) = (s <? j)).
    { destruct (Nat.ltb_spec (List.length pre + s) (List.length pre + j));
        destruct (Nat.ltb_spec s j); try reflexivity; lia. }
    rewrite Hlt. unfold push_back.
    destruct (s <? j); [destruct (negb (string_empty _))|];
      destruct (keep_punctuation_ t && _);
      rewrite <- ?app_assoc; reflexivity. }
  destruct Hrun as (H1 & _ & H3). unfold scan_shift. simpl.
  rewrite H1, H3. repeat split.
Qed.
End Shift.

Lemma tokenize_split_first t w d rest :
  ascii_delimiters t ->
  whole_chars w ->
  Forall (fun c => should_split_at t c = false) (bytes w) ->
  should_split_at t d = true ->
  keep_punctuation_ t && is_ascii_punct d = false ->
  (keep_punctuation_ t = false \/ rest = "" \/
   should_split_at t (char_at rest 0) = false) ->
  tokenize t (w +:+ String d rest) =
  (if string_empty w then [] else [normalize_token t w]) ++ tokenize t rest.
Proof.
  intros Hd Hw Hns Hsplit Hkeep Hk.
  remember (w +:+ String d rest) as text eqn:Etext.
  set (pre := bytes w ++ [d]).
  set (T := if string_empty w then [] else [normalize_token t w]).
  assert (Htext : bytes text = pre ++ bytes rest).
  { subst text pre. rewrite bytes_app. simpl. rewrite <- app_assoc. reflexivity. }
  assert (Hp : List.length pre = String.length w + 1).
  { subst pre. rewrite length_app, bytes_length. reflexivity. }
  pose proof (shift_length text rest pre Htext) as Hlen. rewrite Hp in Hlen.
  assert (Hwchar : forall k, k < String.length w -> char_at text k = char_at w k).
  { intros k Hk'. unfold char_at. rewrite <- !bytes_lookup, Htext. subst pre.
    rewrite !lookup_app_l by (rewrite ?length_app, bytes_length; lia).
    reflexivity. }
  assert (Hdchar : char_at text (String.length w) = d).
  { unfold char_at. rewrite <- bytes_lookup, Htext. subst pre.
    rewrite <- app_assoc. simpl.
    rewrite (list_lookup_middle _ _ d) by (rewrite bytes_length; reflexivity).
    reflexivity. }
  assert (Hdlow : (uchar d <? 128)%N = true)
    by (apply N.ltb_lt, (should_split_at_ascii t d Hd Hsplit)).
  (* the scanner crosses the word without splitting *)
  assert (Hprefix : forall k, char_boundary w k ->
            forall f, while_runs (tokenize_cond text) (tokenize_body t text)
                        {| scan_i := k; scan_start := 0; scan_tokens := [] |} f ->
                      while_runs (tokenize_cond text) (tokenize_body t text)
                        {| scan_i := 0; scan_start := 0; scan_tokens := [] |} f).
  { intros k Hb. induction Hb as [|k Hb IH Hlt]; intros f Hf; [exact Hf|].
    apply IH. apply while_iter.
    - unfold tokenize_cond. simpl. apply Nat.ltb_lt. lia.
    - assert (Hbody : tokenize_body t text
                        {| scan_i := k; scan_start := 0; scan_tokens := [] |} =
                      {| scan_i := k + utf8_char_length (uchar (char_at w k));
                         scan_start := 0; scan_tokens := [] |}).
      { unfold tokenize_body. simpl. rewrite (Hwchar k Hlt), uchar_high_bit.
        destruct (uchar (char_at w k) <? 128)%N eqn:Hlow; simpl;
          [|reflexivity].
        rewrite (proj1 (List.Forall_forall _ _) Hns _ (char_at_in_bytes w k Hlt)).
        rewrite ascii_char_length by (apply N.ltb_lt; exact Hlow).
        reflexivity. }
      rewrite Hbody. exact Hf. }
  (* the split at the delimiter *)
  set (rf := while_loop (run_cond t text) (run_body t text) (String.length rest)
               {| scan_i := String.length w + 1; scan_start := 0;
                  scan_tokens := T |}).
  assert (Hsplit_body :
            tokenize_body t text
              {| scan_i := String.length w; scan_start := 0; scan_tokens := [] |} =
            {| scan_i := scan_i rf; scan_start := scan_i rf;
               scan_tokens := scan_tokens rf |}).
  { unfold tokenize_body. simpl. rewrite Hdchar, uchar_high_bit, Hdlow. simpl.
    rewrite Hsplit, Hkeep.
    assert (Htok1 : (if 0 <? String.length w
                     then if negb (string_empty
                                     (substr text 0 (String.length w - 0)))
                          then push_back []
                                 (normalize_token t
                                    (substr text 0 (String.length w - 0)))
                          else []
                     else []) = T).
    { subst T. destruct w as [|c w']; [reflexivity|].
      assert (Hsub : substr text 0 (String.length (String c w') - 0) =
                     String c w').
      { apply bytes_inj. unfold substr. rewrite bytes_substring, Htext, drop_0.
        subst pre. rewrite <- app_assoc, Nat.sub_0_r, <- bytes_length.
        apply take_app_length. }
      rewrite Hsub. reflexivity. }
    rewrite Htok1.
    replace (String.length text - String.length w) with (S (String.length rest))
      by lia.
    rewrite while_loop_first.
    2:{ unfold run_cond. simpl. rewrite Hdchar, Hsplit.
        apply andb_true_iff. split; [apply Nat.ltb_lt; lia | reflexivity]. }
    unfold run_body at 2 4 6. simpl. rewrite Hdchar, Hkeep. simpl.
    reflexivity. }
  set (rr := while_loop (run_cond t rest) (run_body t rest) (String.length rest)
               {| scan_i := 0; scan_start := 0; scan_tokens := [] |}).
  assert (Hcond0 : run_cond t text
                     {| scan_i := String.length w + 1; scan_start := 0;
                        scan_tokens := T |} =
                   run_cond t rest
                     {| scan_i := 0; scan_start := 0; scan_tokens := [] |}).
  { unfold run_cond. simpl.
    replace (String.length w + 1) with (List.length pre + 0) by lia.
    rewrite (shift_char_at text rest pre Htext 0), Hp, Hlen. f_equal.
    destruct (Nat.ltb_spec (String.length w + 1 + 0)
                (String.length w + 1 + String.length rest));
      destruct (Nat.ltb_spec 0 (String.length rest)); try reflexivity; lia. }
  (* the state on the rest that the state after the split corresponds to *)
  assert (Hstart : exists sr,
             scan_shift (List.length pre) T
               {| scan_i := scan_i rf; scan_start := scan_i rf;
                  scan_tokens := scan_tokens rf |} sr /\
             while_runs (tokenize_cond rest) (tokenize_body t rest) sr
               (tokenize_scan t rest)).
  { pose proof (tokenize_scan_runs t rest) as Hruns.
    destruct (run_cond t rest
                {| scan_i := 0; scan_start := 0; scan_tokens := [] |}) eqn:Hc0.
    - assert (Hkf : keep_punctuation_ t = false).
      { unfold run_cond in Hc0. simpl in Hc0.
        apply andb_true_iff in Hc0 as [Hl Hs0]. apply Nat.ltb_lt in Hl.
        destruct Hk as [Hk|[Hk|Hk]]; [exact Hk | subst rest; simpl in Hl; lia
                                      | congruence]. }
      set (Rk := fun sf sr : scan_state =>
                   scan_i sf = List.length pre + scan_i sr /\
                   scan_tokens sf = T /\ scan_tokens sr = []).
      assert (Hrel : Rk rf rr).
      { subst rf rr. apply (while_loop_sim Rk); subst Rk; simpl.
        - intros [i st tok] [j s tok'] (Hi & _). simpl in *. subst i.
          unfold run_cond. simpl.
          rewrite (shift_char_at text rest pre Htext j), Hp, Hlen. f_equal.
          destruct (Nat.ltb_spec (String.length w + 1 + j)
                      (String.length w + 1 + String.length rest));
            destruct (Nat.ltb_spec j (String.length rest)); try reflexivity; lia.
        - intros [i st tok] [j s tok'] (Hi & Ht1 & Ht2) _. simpl in *.
          rewrite Hkf. simpl. repeat split; try assumption; lia.
        - simpl. repeat split. lia. }
      destruct Hrel as (Hi & Ht1 & Ht2).
      exists (tokenize_body t rest
                {| scan_i := 0; scan_start := 0; scan_tokens := [] |}).
      unfold run_cond in Hc0. simpl in Hc0.
      apply andb_true_iff in Hc0 as [Hl Hs0].
      assert (Hbody0 : tokenize_body t rest
                         {| scan_i := 0; scan_start := 0; scan_tokens := [] |} =
                       {| scan_i := scan_i rr; scan_start := scan_i rr;
                          scan_tokens := scan_tokens rr |}).
      { unfold tokenize_body. simpl. rewrite uchar_high_bit.
        assert (Hlow0 : (uchar (char_at rest 0) <? 128)%N = true)
          by (apply N.ltb_lt, (should_split_at_ascii t _ Hd Hs0)).
        rewrite Hlow0. simpl. rewrite Hs0, Hkf. simpl.
        rewrite Nat.sub_0_r. reflexivity. }
      split.
      + rewrite Hbody0. unfold scan_shift. simpl.
        rewrite Hi, Ht1, Ht2, app_nil_r. repeat split.
      + apply while_runs_iter_inv; [exact Hl | exact Hruns].
    - exists {| scan_i := 0; scan_start := 0; scan_tokens := [] |}.
      split; [|exact Hruns].
      subst rf. rewrite while_loop_exit_now by exact Hcond0.
      unfold scan_shift. simpl. rewrite app_nil_r. repeat split; lia. }
  destruct Hstart as (sr & Hshift & Hruns_sr).
  destruct (while_runs_sim (scan_shift (List.length pre) T)
              (tokenize_cond text) (tokenize_body t text)
              (tokenize_cond rest) (tokenize_body t rest)
              (tokenize_cond_shift text rest pre Htext T)
              (fun a b HR _ => tokenize_body_shift text rest pre Htext t T a b HR)
              sr (tokenize_scan t rest) Hruns_sr _ Hshift)
    as (F & HrunsF & HshiftF).
  assert (HF : F = tokenize_scan t text).
  { apply (while_runs_det (tokenize_cond text) (tokenize_body t text)
             {| scan_i := 0; scan_start := 0; scan_tokens := [] |});
      [|apply tokenize_scan_runs].
    apply (Hprefix _ Hw). apply while_iter.
    - unfold tokenize_cond. simpl. apply Nat.ltb_lt. lia.
    - rewrite Hsplit_body. exact HrunsF. }
  subst F. destruct HshiftF as (_ & Hs & Ht).
  unfold tokenize. rewrite Hs, Ht.
  rewrite (shift_substr_from text rest pre Htext).
  assert (Hlt : (List.length pre + scan_start (tokenize_scan t rest) <?
                 String.length text) =
                (scan_start (tokenize_scan t rest) <? String.length rest)).
  { rewrite Hp, Hlen.
    destruct (Nat.ltb_spec (String.length w + 1 + scan_start (tokenize_scan t rest))
                (String.length w + 1 + String.length rest));
      destruct (Nat.ltb_spec (scan_start (tokenize_scan t rest))
                  (String.length rest)); try reflexivity; lia. }
  rewrite Hlt. clear Hlt. unfold push_back.
  destruct (scan_start (tokenize_scan t rest) <? String.length rest);
    [destruct (negb _)|]; rewrite <- ?app_assoc; reflexivity.
Qed.

(** X8: when a text is a run of whole characters without splitting byte,
    then one splitting byte that is not kept as punctuation, then a
    remainder, its tokens are the normalized run (if not empty) followed by
    the tokens of the remainder; this needs ASCII delimiters and either
    keep_punctuation off or a remainder that does not start with a splitting
    byte. *)
Theorem tokenize_word_delimiter_rest (t : TextTokenizer) (w : string)
    (d : ascii) (rest : string) :
  ascii_delimiters t ->
  whole_chars w ->
  Forall (fun c => should_split_at t c = false) (bytes w) ->
  should_split_at t d = true ->
  keep_punctuation_ t && is_ascii_punct d = false ->
  (keep_punctuation_ t = false \/ rest = "" \/
   should_split_at t (char_at rest 0) = false) ->
  tokenize t (w +:+ String d rest) =
  (if string_empty w then [] else [normalize_token t w]) ++ tokenize t rest.
Proof. apply tokenize_split_first. Qed.

Lemma ascii_whole_chars w :
  Forall (fun c => (uchar c < 128)%N) (bytes w) -> whole_chars w.
Proof.
  intros Hall. unfold whole_chars.
  assert (H : forall k, k <= String.length w -> char_boundary w k).
  { induction k as [|k IH]; intros Hk; [apply boundary_start|].
    replace (S k) with (k + utf8_char_length (uchar (char_at w k))).
    - apply boundary_next; [apply IH; lia | lia].
    - rewrite ascii_char_length; [lia|].
      apply (proj1 (List.Forall_forall _ _) Hall), char_at_in_bytes. lia. }
  apply H. lia.
Qed.

Lemma tokenize_word_delimiter_rest_witness :
  tokenize new_tokenizer ("Hello" +:+ String " " "  big world") =
  ["Hello"] ++ tokenize new_tokenizer "  big world".
Proof.
  apply (tokenize_word_delimiter_rest new_tokenizer "Hello" " " "  big world").
  - exact new_tokenizer_ascii_delimiters.
  - apply ascii_whole_chars. apply (bool_decide_unpack _). vm_compute. exact I.
  - apply (bool_decide_unpack _). vm_compute. exact I.
  - reflexivity.
  - reflexivity.
  - left. reflexivity.
Defined.

Lemma concat_first_char d w ws c w' :
  w = String c w' ->
  char_at (String.concat (String d "") (w :: ws)) 0 = c.
Proof. intros ->. destruct ws; reflexivity. Qed.

Lemma tokenize_words_join (t : TextTokenizer) (d : ascii) (words : list string) :
  ascii_delimiters t ->
  should_split_at t d = true ->
  keep_punctuation_ t && is_ascii_punct d = false ->
  Forall (is_word t) words ->
  tokenize t (String.concat (String d "") words) =
  map (normalize_token t) words.
Proof.
  intros Hd Hsplit Hkeep Hwords.
  induction Hwords as [|w ws (Hne & Hwc & Hns) Hrest IH]; [reflexivity|].
  destruct ws as [|w2 ws].
  - simpl. apply tokenize_no_split; assumption.
  - change (String.concat (String d "") (w :: w2 :: ws))
      with (w +:+ String d (String.concat (String d "") (w2 :: ws))).
    rewrite tokenize_split_first; try assumption.
    + rewrite IH. destruct w; [congruence | reflexivity].
    + right. right.
      apply Forall_cons in Hrest as [(Hne2 & _ & Hns2) _].
      destruct w2 as [|c w2']; [congruence|].
      rewrite (concat_first_char d _ ws c w2' eq_refl).
      simpl in Hns2. apply Forall_cons in Hns2 as [Hc _]. exact Hc.
Qed.

(** X9: words joined by one delimiter byte are tokenized into exactly those
    words, normalized and in order.  A word is a non-empty run of whole
    characters without splitting byte; the delimiter is any splitting byte
    that is not kept as punctuation (a space, say); the delimiters of the
    configuration are ASCII. *)
Theorem tokenize_words (t : TextTokenizer) (d : ascii) (words : list string) :
  ascii_delimiters t ->
  should_split_at t d = true ->
  keep_punctuation_ t && is_ascii_punct d = false ->
  Forall (is_word t) words ->
  tokenize t (String.concat (String d "") words) =
  map (normalize_token t) words.
Proof. apply tokenize_words_join. Qed.

Lemma tokenize_words_witness :
  tokenize demo_tokenizer "The Quick brown Fox" =
  map (normalize_token demo_tokenizer) ["The"; "Quick"; "brown"; "Fox"] /\
  map (normalize_token demo_tokenizer) ["The"; "Quick"; "brown"; "Fox"] =
  ["the"; "quick"; "brown"; "fox"].
Proof.
  split; [|vm_compute; reflexivity].
  apply (tokenize_words demo_tokenizer " " ["The"; "Quick"; "brown"; "Fox"]).
  - exact new_tokenizer_ascii_delimiters.
  - reflexivity.
  - reflexivity.
  - repeat (apply List.Forall_cons;
            [split; [discriminate|];
             split; [apply ascii_whole_chars|];
             apply (bool_decide_unpack _); vm_compute; exact I|]).
    apply List.Forall_nil.
Defined.

(** ** encode, decode and encode_sequence together *)

Lemma encode_with_vocab t text :
  use_vocab_ t = true -> encode t text = map (lookup_id t) (tokenize t text).
Proof.
  intros Hv. unfold encode. rewrite Hv. simpl.
  rewrite fold_left_push_back. reflexivity.
Qed.

Lemma decode_as_kept t ids :
  use_vocab_ t = true ->
  (Z.of_nat (List.length (id_to_vocab_ t)) <= int_max)%Z ->
  decode t ids = String.concat " " (decode_kept t ids).
Proof.
  intros Hv Hsize. unfold decode. rewrite Hv. simpl.
  apply (decode_fold t ids _ [] Hv Hsize); reflexivity.
Qed.

Lemma decode_kept_cons t id ids :
  decode_kept t (id :: ids) = decode_kept t [id] ++ decode_kept t ids.
Proof.
  change (id :: ids) with ([id] ++ ids). unfold decode_kept.
  rewrite omap_app, List.filter_app. reflexivity.
Qed.

Lemma decode_kept_known t token id :
  use_vocab_ t = true ->
  (0 <= id)%Z -> id_to_vocab_ t !! Z.to_nat id = Some token ->
  decode_kept t [id] =
  if String.eqb token (pad_token_ t) then [] else [token].
Proof.
  intros Hv H0 Hl. unfold decode_kept, vocab_size. rewrite Hv. simpl.
  pose proof (lookup_lt_Some _ _ _ Hl) as Hlt.
  assert (Hr : (0 <=? id)%Z && (id <? Z.of_nat (List.length (id_to_vocab_ t)))%Z
               = true).
  { apply andb_true_iff. split; [apply Z.leb_le | apply Z.ltb_lt]; lia. }
  rewrite Hr, Hl. simpl. destruct (String.eqb token (pad_token_ t)); reflexivity.
Qed.

Lemma decode_encode_tokens t tokens :
  use_vocab_ t = true -> vocab_inverse t ->
  Forall (fun token => is_Some (vocab_to_id_ t !! token) /\
                       token <> pad_token_ t) tokens ->
  decode_kept t (map (lookup_id t) tokens) = tokens.
Proof.
  intros Hv Hinv Hall. induction Hall as [|token tokens [[id Hid] Hpad] _ IH];
    [reflexivity|].
  simpl. rewrite decode_kept_cons, IH. unfold lookup_id at 1. rewrite Hid.
  destruct (Hinv _ _ Hid) as [H0 Hl].
  rewrite (decode_kept_known t token id Hv H0 Hl).
  apply String.eqb_neq in Hpad. rewrite Hpad. reflexivity.
Qed.

(** X10: decoding what [encode] returns gives back the tokens of the text
    joined by single spaces, whenever every token has an entry in the map,
    none is the pad string, every map entry names the position of its token
    in [id_to_vocab_] and the vocabulary size fits an [int]. *)
Theorem decode_encode_roundtrip (t : TextTokenizer) (text : string) :
  use_vocab_ t = true ->
  vocab_inverse t ->
  (Z.of_nat (List.length (id_to_vocab_ t)) <= int_max)%Z ->
  Forall (fun token => is_Some (vocab_to_id_ t !! token) /\
                       token <> pad_token_ t) (tokenize t text) ->
  decode t (encode t text) = String.concat " " (tokenize t text).
Proof.
  intros Hv Hinv Hsize Hall.
  rewrite (decode_as_kept t _ Hv Hsize), (encode_with_vocab t text Hv).
  rewrite (decode_encode_tokens t _ Hv Hinv Hall). reflexivity.
Qed.

Lemma demo_vocab_inverse : vocab_inverse demo_vocab.
Proof.
  unfold demo_vocab.
  destruct (load_vocab_fields demo_tokenizer
              ["[CLS]"; "[SEP]"; "[PAD]"; "hello"; "world"]) as [Hm Hl].
  destruct (load_fold ["[CLS]"; "[SEP]"; "[PAD]"; "hello"; "world"]
              (with_vocab demo_tokenizer ∅ []) 0%Z) as (_ & H2 & _);
    [reflexivity | vm_compute; discriminate|].
  unfold vocab_inverse in *. rewrite Hm, Hl. apply H2.
  intros token id. simpl. rewrite lookup_empty. discriminate.
Qed.

Lemma decode_encode_roundtrip_witness :
  decode demo_vocab (encode demo_vocab "Hello  WORLD hello") =
  String.concat " " (tokenize demo_vocab "Hello  WORLD hello") /\
  String.concat " " (tokenize demo_vocab "Hello  WORLD hello") =
  "hello world hello".
Proof.
  split; [|vm_compute; reflexivity].
  apply decode_encode_roundtrip.
  - reflexivity.
  - exact demo_vocab_inverse.
  - vm_compute. discriminate.
  - vm_compute.
    repeat (apply List.Forall_cons;
            [split; [eexists; reflexivity | discriminate]|]).
    apply List.Forall_nil.
Defined.

(** X11: with a vocabulary whose map entries name positions of
    [id_to_vocab_], every id [encode] returns is either [unk_id_] or a valid
    position in [0, vocab_size), and there is one id per token. *)
Theorem encode_ids_in_range (t : TextTokenizer) (text : string) :
  use_vocab_ t = true ->
  vocab_inverse t ->
  List.length (encode t text) = List.length (tokenize t text) /\
  Forall (fun id => id = unk_id_ t \/
                    (0 <= id < Z.of_nat (vocab_size t))%Z) (encode t text).
Proof.
  intros Hv Hinv. split; [apply encode_length|].
  rewrite (encode_with_vocab t text Hv). apply List.Forall_forall.
  intros id Hin. apply in_map_iff in Hin as (token & <- & _).
  unfold lookup_id, vocab_size. rewrite Hv.
  destruct (vocab_to_id_ t !! token) as [id|] eqn:Hid; [|left; reflexivity].
  right. destruct (Hinv _ _ Hid) as [H0 Hl].
  apply lookup_lt_Some in Hl. lia.
Qed.

Lemma encode_ids_in_range_witness :
  Forall (fun id => id = unk_id_ demo_vocab \/
                    (0 <= id < Z.of_nat (vocab_size demo_vocab))%Z)
    (encode demo_vocab "Hello big world").
Proof.
  apply (encode_ids_in_range demo_vocab "Hello big world");
    [reflexivity | exact demo_vocab_inverse].
Defined.

(** X12: without special tokens, or without a vocabulary, [encode_sequence]
    returns the first max_length ids of [encode] (all of them when there are
    fewer) for every max_length from 0 to INT_MAX, and throws
    [std::length_error] for every negative max_length. *)
Theorem encode_sequence_truncates (t : TextTokenizer) (text : string)
    (max_length : Z) (add_special_tokens : bool) :
  negb add_special_tokens || negb (use_vocab_ t) = true ->
  (Z.of_nat (List.length (encode t text)) <= int_max)%Z ->
  ((0 <= max_length <= int_max)%Z ->
   encode_sequence t text max_length add_special_tokens =
   Returns (take (Z.to_nat max_length) (encode t text))) /\
  ((int_min <= max_length < 0)%Z ->
   encode_sequence t text max_length add_special_tokens = Throws length_error).
Proof.
  intros Hpath Hlen. split; intros Hm.
  - unfold encode_sequence. rewrite Hpath.
    rewrite int_of_size_small by exact Hlen.
    destruct (max_length <? Z.of_nat (List.length (encode t text)))%Z eqn:Hlt.
    + apply Z.ltb_lt in Hlt. unfold vector_resize, size_of_int.
      unfold int_max in *. rewrite Z.mod_small by lia.
      assert (Hle : (max_length <=? Z.of_nat (List.length (encode t text)))%Z
                    = true) by (apply Z.leb_le; lia).
      rewrite Hle. reflexivity.
    + apply Z.ltb_ge in Hlt. rewrite take_ge by lia. reflexivity.
  - apply encode_sequence_truncation_negative; assumption.
Qed.

Lemma encode_sequence_truncates_witness :
  encode_sequence demo_vocab "Hello big world" 2 false = Returns [3; -1]%Z /\
  encode_sequence demo_vocab "Hello big world" (-5) false = Throws length_error.
Proof.
  split.
  - apply (proj1 (encode_sequence_truncates demo_vocab "Hello big world" 2 false
                    eq_refl ltac:(vm_compute; discriminate))).
    vm_compute. split; discriminate.
  - apply (proj2 (encode_sequence_truncates demo_vocab "Hello big world" (-5)
                    false eq_refl ltac:(vm_compute; discriminate))).
    vm_compute. split; [discriminate | reflexivity].
Defined.

(** X13: an id that is out of range, or that names the pad token, has no
    effect on what [decode] returns, wherever it stands in the list. *)
Theorem decode_ignores_id (t : TextTokenizer) (ids1 ids2 : list Z) (id : Z) :
  use_vocab_ t = true ->
  (Z.of_nat (List.length (id_to_vocab_ t)) <= int_max)%Z ->
  ((id < 0)%Z \/ (Z.of_nat (vocab_size t) <= id)%Z \/
   id_to_vocab_ t !! Z.to_nat id = Some (pad_token_ t)) ->
  decode t (ids1 ++ id :: ids2) = decode t (ids1 ++ ids2).
Proof.
  intros Hv Hsize Hid. rewrite !(decode_as_kept t _ Hv Hsize). f_equal.
  assert (Hnone : decode_kept t [id] = []).
  { destruct Hid as [Hid|[Hid|Hid]].
    - unfold decode_kept. simpl.
      assert (H : (0 <=? id)%Z = false) by (apply Z.leb_gt; lia).
      rewrite H. reflexivity.
    - unfold decode_kept. simpl.
      assert (H : (id <? Z.of_nat (vocab_size t))%Z = false)
        by (apply Z.ltb_ge; lia).
      rewrite H, andb_false_r. reflexivity.
    - destruct (Z.lt_ge_cases id 0) as [Hneg|Hpos].
      + unfold decode_kept. simpl.
        assert (H : (0 <=? id)%Z = false) by (apply Z.leb_gt; lia).
        rewrite H. reflexivity.
      + rewrite (decode_kept_known t _ id Hv Hpos Hid), String.eqb_refl.
        reflexivity. }
  unfold decode_kept in *. rewrite !omap_app, !List.filter_app.
  change (id :: ids2) with ([id] ++ ids2).
  rewrite omap_app, List.filter_app, Hnone. reflexivity.
Qed.

Lemma decode_ignores_id_witness :
  decode demo_vocab ([3] ++ 2 :: [4])%Z = decode demo_vocab ([3] ++ [4])%Z /\
  decode demo_vocab ([3] ++ 99 :: [4])%Z = decode demo_vocab ([3] ++ [4])%Z.
Proof.
  split; apply decode_ignores_id; try reflexivity;
    try (vm_compute; discriminate).
  - right. right. reflexivity.
  - right. left. vm_compute. discriminate.
Defined.

(** ** build_vocab_from_text *)

Lemma add_special_new t token :
  vocab_to_id_ t !! token = None ->
  add_special t token =
  add_entry t token (int_of_size (List.length (id_to_vocab_ t))).
Proof. intros H. unfold add_special. rewrite H. reflexivity. Qed.

Lemma add_special_state t m l u p c s token :
  m !! token = None ->
  add_special (vocab_state t m l u p c s) token =
  vocab_state t (<[token := int_of_size (List.length l)]> m) (l ++ [token])
    (if String.eqb token (unk_token_ t) then int_of_size (List.length l) else u)
    (if String.eqb token (unk_token_ t) then p
     else if String.eqb token (pad_token_ t) then int_of_size (List.length l)
     else p)
    (if String.eqb token (unk_token_ t) then c
     else if String.eqb token (pad_token_ t) then c
     else if String.eqb token (cls_token_ t) then int_of_size (List.length l)
     else c)
    (if String.eqb token (unk_token_ t) then s
     else if String.eqb token (pad_token_ t) then s
     else if String.eqb token (cls_token_ t) then s
     else if String.eqb token (sep_token_ t) then int_of_size (List.length l)
     else s).
Proof.
  intros H. unfold add_special. simpl. rewrite H.
  unfold add_entry, store_special_id. simpl.
  destruct (String.eqb token (unk_token_ t)); [reflexivity|].
  destruct (String.eqb token (pad_token_ t)); [reflexivity|].
  destruct (String.eqb token (cls_token_ t)); [reflexivity|].
  destruct (String.eqb token (sep_token_ t)); reflexivity.
Qed.

(** The four special tokens, added to the cleared vocabulary. *)
Lemma special_tokens_installed t :
  special_distinct t ->
  fold_left add_special
    [pad_token_ t; unk_token_ t; cls_token_ t; sep_token_ t]
    (with_vocab t ∅ []) =
  vocab_state t
    (<[sep_token_ t := 3%Z]>
       (<[cls_token_ t := 2%Z]>
          (<[unk_token_ t := 1%Z]> (<[pad_token_ t := 0%Z]> ∅))))
    [pad_token_ t; unk_token_ t; cls_token_ t; sep_token_ t] 1 0 2 3.
Proof.
  intros Hd. apply special_distinct_neq in Hd as (N1 & N2 & N3 & N4 & N5 & N6).
  assert (E1 : String.eqb (pad_token_ t) (unk_token_ t) = false)
    by (apply String.eqb_neq; congruence).
  assert (E2 : String.eqb (cls_token_ t) (unk_token_ t) = false)
    by (apply String.eqb_neq; congruence).
  assert (E3 : String.eqb (cls_token_ t) (pad_token_ t) = false)
    by (apply String.eqb_neq; congruence).
  assert (E4 : String.eqb (sep_token_ t) (unk_token_ t) = false)
    by (apply String.eqb_neq; congruence).
  assert (E5 : String.eqb (sep_token_ t) (pad_token_ t) = false)
    by (apply String.eqb_neq; congruence).
  assert (E6 : String.eqb (sep_token_ t) (cls_token_ t) = false)
    by (apply String.eqb_neq; congruence).
  change (with_vocab t ∅ [])
    with (vocab_state t ∅ [] (unk_id_ t) (pad_id_ t) (cls_id_ t) (sep_id_ t)).
  cbn [fold_left].
  rewrite add_special_state by apply lookup_empty.
  rewrite add_special_state
    by (rewrite lookup_insert_ne by congruence; apply lookup_empty).
  rewrite add_special_state
    by (rewrite !lookup_insert_ne by congruence; apply lookup_empty).
  rewrite add_special_state
    by (rewrite !lookup_insert_ne by congruence; apply lookup_empty).
  rewrite !String.eqb_refl, E1, E2, E3, E4, E5, E6. reflexivity.
Qed.

Lemma occurrences_snoc token seen tok :
  occurrences token (seen ++ [tok]) =
  occurrences token seen + (if String.eqb token tok then 1 else 0).
Proof.
  unfold occurrences. rewrite List.filter_app, length_app. simpl.
  destruct (String.eqb token tok); reflexivity.
Qed.

Lemma occurrences_le token seen : occurrences token seen <= List.length seen.
Proof. unfold occurrences. apply List.filter_length_le. Qed.

Lemma count_token_counts counts seen tok :
  counts_of counts seen ->
  (Z.of_nat (List.length seen) < int_max)%Z ->
  counts_of (count_token counts tok) (seen ++ [tok]).
Proof.
  intros Hc Hlen token. unfold count_token.
  rewrite occurrences_snoc, lookup_insert.
  pose proof (occurrences_le tok seen) as Hle.
  case_decide as Heq.
  - subst token. rewrite String.eqb_refl, (Hc tok).
    replace (occurrences tok seen + 1 =? 0) with false
      by (symmetry; apply Nat.eqb_neq; lia).
    f_equal. unfold int_add.
    destruct (occurrences tok seen =? 0) eqn:E; simpl.
    + apply Nat.eqb_eq in E. rewrite E. reflexivity.
    + rewrite int_wrap_small by (unfold int_min, int_max in *; lia). lia.
  - assert (E : String.eqb token tok = false)
      by (apply String.eqb_neq; congruence).
    rewrite E, Nat.add_0_r. apply Hc.
Qed.

Lemma count_token_fold tokens : forall counts seen,
  counts_of counts seen ->
  (Z.of_nat (List.length seen + List.length tokens) <= int_max)%Z ->
  counts_of (fold_left count_token tokens counts) (seen ++ tokens).
Proof.
  induction tokens as [|tok tokens IH]; intros counts seen Hc Hlen; simpl.
  - rewrite app_nil_r. exact Hc.
  - change (tok :: tokens) with ([tok] ++ tokens). rewrite app_assoc.
    apply IH.
    + apply count_token_counts; [exact Hc | simpl in Hlen; lia].
    + rewrite length_app. simpl in *. lia.
Qed.

Lemma token_counts_fold t texts : forall counts seen,
  counts_of counts seen ->
  (Z.of_nat (List.length seen + List.length (corpus_tokens t texts)) <= int_max)%Z ->
  counts_of
    (fold_left (fun counts text => fold_left count_token (tokenize t text) counts)
       texts counts)
    (seen ++ corpus_tokens t texts).
Proof.
  induction texts as [|text texts IH]; intros counts seen Hc Hlen.
  - simpl. rewrite app_nil_r. exact Hc.
  - unfold corpus_tokens in *. simpl in *. rewrite length_app in Hlen.
    rewrite app_assoc. apply IH.
    + apply count_token_fold; [exact Hc | lia].
    + rewrite length_app. lia.
Qed.

(** X14: for a corpus of at most INT_MAX tokens, the frequency table of
    [build_vocab_from_text] maps every token to the number of times it
    occurs among the tokens of all texts, and has no entry for a string that
    does not occur. *)
Theorem token_counts_occurrences (t : TextTokenizer) (texts : list string)
    (token : string) :
  (Z.of_nat (List.length (corpus_tokens t texts)) <= int_max)%Z ->
  token_counts t texts !! token =
  if occurrences token (corpus_tokens t texts) =? 0 then None
  else Some (Z.of_nat (occurrences token (corpus_tokens t texts))).
Proof.
  intros Hlen.
  apply (token_counts_fold t texts ∅ []); [|simpl; exact Hlen].
  intros tok. rewrite lookup_empty. reflexivity.
Qed.

Lemma token_counts_occurrences_witness :
  token_counts demo_tokenizer ["to be or"; "not To be"] !! "to" = Some 2%Z /\
  token_counts demo_tokenizer ["to be or"; "not To be"] !! "two" = None.
Proof.
  split.
  - apply (token_counts_occurrences demo_tokenizer ["to be or"; "not To be"] "to").
    vm_compute. discriminate.
  - apply (token_counts_occurrences demo_tokenizer ["to be or"; "not To be"] "two").
    vm_compute. discriminate.
Defined.

Lemma add_special_length t token :
  List.length (id_to_vocab_ (add_special t token)) <=
  List.length (id_to_vocab_ t) + 1.
Proof.
  unfold add_special. destruct (vocab_to_id_ t !! token); [lia|].
  destruct (add_entry_vocab t token (int_of_size (List.length (id_to_vocab_ t))))
    as [_ ->].
  rewrite length_app. simpl. lia.
Qed.

(** The loop over the sorted tokens only appends first components of its
    entries and keeps what the map already holds, the special ids and the
    special strings. *)
Lemma add_regular_fold_facts max_vocab_size sorted_tokens : forall t added,
  let r := (fold_left (add_regular max_vocab_size) sorted_tokens (t, added)).1 in
  (exists extra, id_to_vocab_ r = id_to_vocab_ t ++ extra /\
                 Forall (fun token => exists p, In p sorted_tokens /\ p.1 = token)
                   extra) /\
  (forall token id, vocab_to_id_ t !! token = Some id ->
                    vocab_to_id_ r !! token = Some id) /\
  (unk_id_ r = unk_id_ t /\ pad_id_ r = pad_id_ t /\ cls_id_ r = cls_id_ t /\
   sep_id_ r = sep_id_ t) /\
  (unk_token_ r = unk_token_ t /\ pad_token_ r = pad_token_ t /\
   cls_token_ r = cls_token_ t /\ sep_token_ r = sep_token_ t).
Proof.
  induction sorted_tokens as [|p l IH]; intros t added; simpl.
  - split; [exists []; rewrite app_nil_r; split; [reflexivity | constructor]|].
    repeat split; auto.
  - assert (Hskip : let r := (fold_left (add_regular max_vocab_size) l
                                (t, added)).1 in
              (exists extra, id_to_vocab_ r = id_to_vocab_ t ++ extra /\
                 Forall (fun token => exists p0, (p = p0 \/ In p0 l) /\
                                                 p0.1 = token) extra) /\
              (forall token id, vocab_to_id_ t !! token = Some id ->
                                vocab_to_id_ r !! token = Some id) /\
              (unk_id_ r = unk_id_ t /\ pad_id_ r = pad_id_ t /\
               cls_id_ r = cls_id_ t /\ sep_id_ r = sep_id_ t) /\
              (unk_token_ r = unk_token_ t /\ pad_token_ r = pad_token_ t /\
               cls_token_ r = cls_token_ t /\ sep_token_ r = sep_token_ t)).
    { destruct (IH t added) as ((extra & He & Hf) & H2 & H3).
      split; [|split; assumption].
      exists extra. split; [exact He|].
      eapply Forall_impl; [exact Hf|]. intros tok (p0 & Hin & Hp). eauto. }
    destruct (vocab_to_id_ t !! p.1) eqn:Hlook; [exact Hskip|].
    destruct (added <? _)%Z; [|exact Hskip].
    destruct (IH (with_vocab t
                    (<[p.1 := int_of_size (List.length (id_to_vocab_ t))]>
                       (vocab_to_id_ t))
                    (push_back (id_to_vocab_ t) p.1)) (int_add added 1))
      as ((extra & He & Hf) & H2 & H3 & H4).
    simpl in He, H2, H3, H4. split; [|split; [|split; assumption]].
    + exists (p.1 :: extra). unfold push_back in He.
      rewrite <- app_assoc in He. split; [exact He|].
      constructor; [exists p; auto|].
      eapply Forall_impl; [exact Hf|]. intros tok (p0 & Hin & Hp). eauto.
    + intros token id Hid. apply H2. rewrite lookup_insert_ne; [exact Hid|].
      congruence.
Qed.

(** The loop stops at the budget of [max_vocab_size - 4] regular tokens. *)
Lemma add_regular_fold_bound max_vocab_size sorted_tokens : forall t added,
  (int_min + 4 <= max_vocab_size <= int_max)%Z ->
  (0 <= added <= Z.max 0 (max_vocab_size - 4))%Z ->
  (Z.of_nat (List.length (id_to_vocab_ t)) <= 4 + added)%Z ->
  (Z.of_nat (List.length
               (id_to_vocab_
                  (fold_left (add_regular max_vocab_size) sorted_tokens
                     (t, added)).1)) <= 4 + Z.max 0 (max_vocab_size - 4))%Z.
Proof.
  induction sorted_tokens as [|p l IH]; intros t added Hmax Hadd Hlen; simpl;
    [lia|].
  destruct (vocab_to_id_ t !! p.1); [apply IH; assumption|].
  assert (Hbudget : int_sub max_vocab_size (int_of_size 4) =
                    (max_vocab_size - 4)%Z).
  { unfold int_sub. rewrite (int_of_size_small 4) by (unfold int_max; simpl; lia).
    apply int_wrap_small. unfold int_min, int_max in *. simpl. lia. }
  rewrite Hbudget.
  destruct (added <? max_vocab_size - 4)%Z eqn:Hlt; [|apply IH; assumption].
  apply Z.ltb_lt in Hlt.
  assert (Hnext : int_add added 1 = (added + 1)%Z).
  { apply int_wrap_small. unfold int_min, int_max in *. lia. }
  rewrite Hnext. apply IH; [exact Hmax | lia |].
  simpl. unfold push_back. rewrite length_app. simpl. lia.
Qed.

Lemma install_vocab_unfold t sorted_tokens max_vocab_size :
  install_vocab t sorted_tokens max_vocab_size =
  with_use_vocab
    (fold_left (add_regular max_vocab_size) sorted_tokens
       (fold_left add_special
          [pad_token_ t; unk_token_ t; cls_token_ t; sep_token_ t]
          (with_vocab t ∅ []), 0%Z)).1 true.
Proof.
  unfold install_vocab.
  destruct (fold_left (add_regular max_vocab_size) sorted_tokens _) as [t2 a].
  reflexivity.
Qed.

(** X15: when the four special strings are pairwise different,
    [build_vocab_from_text] puts them at the front of the vocabulary in the
    order pad, unk, cls, sep with the ids 0, 1, 2, 3, whatever the corpus
    and the thresholds; the map sends each to its id, so every special id is
    valid afterwards. *)
Theorem build_special_tokens_first (t : TextTokenizer) (texts : list string)
    (min_frequency max_vocab_size : Z) (t' : TextTokenizer) :
  special_distinct t ->
  build_vocab_from_text t texts min_frequency max_vocab_size t' ->
  take 4 (id_to_vocab_ t') =
    [pad_token_ t; unk_token_ t; cls_token_ t; sep_token_ t] /\
  (pad_id_ t' = 0 /\ unk_id_ t' = 1 /\ cls_id_ t' = 2 /\ sep_id_ t' = 3)%Z /\
  (vocab_to_id_ t' !! pad_token_ t = Some 0 /\
   vocab_to_id_ t' !! unk_token_ t = Some 1 /\
   vocab_to_id_ t' !! cls_token_ t = Some 2 /\
   vocab_to_id_ t' !! sep_token_ t = Some 3)%Z /\
  use_vocab_ t' = true.
Proof.
  intros Hd (entries & sorted_tokens & _ & _ & ->).
  pose proof Hd as Hneq.
  apply special_distinct_neq in Hneq as (N1 & N2 & N3 & N4 & N5 & N6).
  rewrite install_vocab_unfold, (special_tokens_installed t Hd).
  match goal with
  | |- context [fold_left (add_regular ?m) ?l (?s, ?a)] =>
      destruct (add_regular_fold_facts m l s a)
        as ((extra & He & _) & Hmap & (I1 & I2 & I3 & I4) & _)
  end.
  simpl in *. rewrite He, I1, I2, I3, I4.
  split; [reflexivity|]. split; [auto|]. split; [|reflexivity].
  repeat split; apply Hmap.
  - rewrite !lookup_insert_ne by congruence. apply lookup_insert_eq.
  - rewrite !lookup_insert_ne by congruence. apply lookup_insert_eq.
  - rewrite lookup_insert_ne by congruence. apply lookup_insert_eq.
  - apply lookup_insert_eq.
Qed.

Lemma new_tokenizer_special_distinct : special_distinct demo_tokenizer.
Proof. apply (bool_decide_unpack _). vm_compute. exact I. Qed.

Lemma demo_build :
  build_vocab_from_text demo_tokenizer ["b a b"] 1 50000
    (install_vocab demo_tokenizer [("b", 2%Z); ("a", 1%Z)] 50000).
Proof.
  exists [("a", 1%Z); ("b", 2%Z)], [("b", 2%Z); ("a", 1%Z)].
  split; [vm_compute; reflexivity|]. split; [|reflexivity].
  split; [apply perm_swap|].
  apply (bool_decide_unpack _). vm_compute. exact I.
Qed.

Lemma build_special_tokens_first_witness :
  take 4 (id_to_vocab_
            (install_vocab demo_tokenizer [("b", 2%Z); ("a", 1%Z)] 50000)) =
  ["[PAD]"; "[UNK]"; "[CLS]"; "[SEP]"].
Proof.
  apply (build_special_tokens_first demo_tokenizer ["b a b"] 1 50000).
  - exact new_tokenizer_special_distinct.
  - exact demo_build.
Defined.

(** X16: [build_vocab_from_text] never installs more than
    max(4, max_vocab_size) entries: the special tokens always go in, regular
    tokens only while fewer than max_vocab_size - 4 were added (for
    max_vocab_size from INT_MIN+4 to INT_MAX). *)
Theorem build_vocab_size_bound (t : TextTokenizer) (texts : list string)
    (min_frequency max_vocab_size : Z) (t' : TextTokenizer) :
  (int_min + 4 <= max_vocab_size <= int_max)%Z ->
  build_vocab_from_text t texts min_frequency max_vocab_size t' ->
  (Z.of_nat (vocab_size t') <= Z.max 4 max_vocab_size)%Z.
Proof.
  intros Hmax (entries & sorted_tokens & _ & _ & ->).
  rewrite install_vocab_unfold. unfold vocab_size. simpl.
  set (ta := add_special (with_vocab t ∅ []) (pad_token_ t)).
  set (tb := add_special ta (unk_token_ t)).
  set (tc := add_special tb (cls_token_ t)).
  set (t1 := add_special tc (sep_token_ t)).
  assert (Hs : List.length (id_to_vocab_ t1) <= 4).
  { pose proof (add_special_length (with_vocab t ∅ []) (pad_token_ t)) as Ha.
    pose proof (add_special_length ta (unk_token_ t)) as Hb.
    pose proof (add_special_length tb (cls_token_ t)) as Hc.
    pose proof (add_special_length tc (sep_token_ t)) as Hd.
    fold ta in Ha. fold tb in Hb. fold tc in Hc. fold t1 in Hd.
    simpl in Ha. lia. }
  pose proof (add_regular_fold_bound max_vocab_size sorted_tokens t1 0%Z Hmax)
    as Hb.
  specialize (Hb ltac:(lia) ltac:(lia)). lia.
Qed.

Lemma build_vocab_size_bound_witness :
  (Z.of_nat (vocab_size
               (install_vocab demo_tokenizer [("b", 2%Z); ("a", 1%Z)] 5)) <=
   Z.max 4 5)%Z.
Proof.
  apply (build_vocab_size_bound demo_tokenizer ["b a b"] 1 5).
  - vm_compute. split; discriminate.
  - exists [("a", 1%Z); ("b", 2%Z)], [("b", 2%Z); ("a", 1%Z)].
    split; [vm_compute; reflexivity|]. split; [|reflexivity].
    split; [apply perm_swap|].
    apply (bool_decide_unpack _). vm_compute. exact I.
Defined.

(** X17: every entry [build_vocab_from_text] installs is one of the four
    special strings or a token of the corpus that occurs at least
    min_frequency times in it (for a corpus of at most INT_MAX tokens). *)
Theorem build_vocab_entries_frequent (t : TextTokenizer) (texts : list string)
    (min_frequency max_vocab_size : Z) (t' : TextTokenizer) (token : string) :
  (Z.of_nat (List.length (corpus_tokens t texts)) <= int_max)%Z ->
  build_vocab_from_text t texts min_frequency max_vocab_size t' ->
  In token (id_to_vocab_ t') ->
  In token [pad_token_ t; unk_token_ t; cls_token_ t; sep_token_ t] \/
  (0 < occurrences token (corpus_tokens t texts) /\
   (min_frequency <= Z.of_nat (occurrences token (corpus_tokens t texts)))%Z).
Proof.
  intros Hlen (entries & sorted_tokens & Hiter & [Hperm _] & ->) Hin.
  rewrite install_vocab_unfold in Hin. simpl in Hin.
  match type of Hin with
  | context [fold_left (add_regular ?m) ?l (?s, ?a)] =>
      destruct (add_regular_fold_facts m l s a) as ((extra & He & Hf) & _)
  end.
  cbn [fold_left] in *. rewrite He in Hin.
  apply in_app_iff in Hin as [Hin|Hin].
  - left.
    assert (Hsub : forall t0 tok,
               In token (id_to_vocab_ (add_special t0 tok)) ->
               In token (id_to_vocab_ t0) \/ token = tok).
    { intros t0 tok. unfold add_special.
      destruct (vocab_to_id_ t0 !! tok); [auto|].
      destruct (add_entry_vocab t0 tok (int_of_size (List.length (id_to_vocab_ t0))))
        as [_ ->].
      rewrite in_app_iff. simpl. intuition. }
    apply Hsub in Hin as [Hin| ->]; [|simpl; auto].
    apply Hsub in Hin as [Hin| ->]; [|simpl; auto].
    apply Hsub in Hin as [Hin| ->]; [|simpl; auto].
    apply Hsub in Hin as [Hin| ->]; [|simpl; auto].
    simpl in Hin. contradiction.
  - right.
    apply (proj1 (List.Forall_forall _ _) Hf) in Hin as (p & Hp & <-).
    apply list_elem_of_In in Hp. rewrite Hperm in Hp.
    apply list_elem_of_filter in Hp as [Hfreq Hp].
    unfold iteration_order in Hiter. rewrite Hiter in Hp.
    destruct p as [tok n]. apply elem_of_map_to_list in Hp.
    assert (Hc : token_counts t texts !! tok =
                 if occurrences tok (corpus_tokens t texts) =? 0 then None
                 else Some (Z.of_nat (occurrences tok (corpus_tokens t texts)))).
    { apply (token_counts_fold t texts ∅ []);
        [intros tok'; rewrite lookup_empty; reflexivity | simpl; exact Hlen]. }
    rewrite Hc in Hp. simpl in *.
    destruct (occurrences tok (corpus_tokens t texts) =? 0) eqn:E;
      [discriminate|].
    apply Nat.eqb_neq in E. injection Hp as <-.
    unfold frequent in Hfreq. simpl in Hfreq.
    apply Is_true_true, Z.leb_le in Hfreq. split; [lia | exact Hfreq].
Qed.

Lemma build_vocab_entries_frequent_witness :
  In "b" ["[PAD]"; "[UNK]"; "[CLS]"; "[SEP]"] \/
  (0 < occurrences "b" (corpus_tokens demo_tokenizer ["b a b"]) /\
   (2 <= Z.of_nat (occurrences "b" (corpus_tokens demo_tokenizer ["b a b"])))%Z).
Proof.
  apply (build_vocab_entries_frequent demo_tokenizer ["b a b"] 2 50000
           (install_vocab demo_tokenizer [("b", 2%Z)] 50000) "b").
  - vm_compute. discriminate.
  - exists [("a", 1%Z); ("b", 2%Z)], [("b", 2%Z)].
    split; [vm_compute; reflexivity|]. split; [|reflexivity].
    split; [vm_compute; reflexivity|].
    apply (bool_decide_unpack _). vm_compute. exact I.
  - vm_compute. auto 10.
Defined.

(** ** Vocabulary files and accessors *)

Lemma use_vocab_load t lines : use_vocab_ (load_vocab t (Some lines)).2 = true.
Proof.
  unfold load_vocab.
  destruct (fold_left load_line lines (with_vocab t ∅ [], 0%Z)). reflexivity.
Qed.

Lemma load_fold_list lines : forall s,
  id_to_vocab_ (fold_left load_line lines s).1 =
  id_to_vocab_ s.1 ++ vocab_entries lines.
Proof.
  induction lines as [|line lines IH]; intros [t id]; simpl.
  - unfold vocab_entries. simpl. rewrite app_nil_r. reflexivity.
  - unfold vocab_entries. simpl. fold (vocab_entries lines).
    destruct (string_empty (rtrim line)); simpl; [apply (IH (_, _))|].
    rewrite (IH (_, _)). simpl.
    destruct (add_entry_vocab t (rtrim line) id) as [_ ->].
    rewrite <- app_assoc. reflexivity.
Qed.

Lemma load_vocab_list t lines :
  id_to_vocab_ (load_vocab t (Some lines)).2 = vocab_entries lines.
Proof.
  destruct (load_vocab_fields t lines) as [_ ->].
  rewrite (load_fold_list lines (_, _)). reflexivity.
Qed.

Lemma vocab_entries_length lines :
  List.length (vocab_entries lines) <= List.length lines.
Proof.
  unfold vocab_entries.
  etransitivity; [apply List.filter_length_le|]. rewrite length_map. lia.
Qed.

(** X18: after [load_vocab] has read a file, [has_vocab] is true,
    [vocab_size] is the number of non-blank lines, [get_token_by_id] returns
    the i-th non-blank line (trimmed) for i in range and "[INVALID]" for any
    other id, and looking up the id the map gives for a token returns that
    token. *)
Theorem load_vocab_accessors (t : TextTokenizer) (lines : list string) :
  (Z.of_nat (List.length lines) <= int_max)%Z ->
  let t' := (load_vocab t (Some lines)).2 in
  has_vocab t' = true /\
  vocab_size t' = List.length (vocab_entries lines) /\
  (forall id,
      get_token_by_id t' id =
      match (if (0 <=? id)%Z then vocab_entries lines !! Z.to_nat id else None)
      with
      | Some token => token
      | None => "[INVALID]"
      end) /\
  (forall token id,
      vocab_to_id_ t' !! token = Some id -> get_token_by_id t' id = token).
Proof.
  intros Hmax t'.
  pose proof (use_vocab_load t lines) as Hv. fold t' in Hv.
  pose proof (load_vocab_list t lines) as Hl. fold t' in Hl.
  pose proof (vocab_entries_length lines) as Hle.
  assert (Hget : forall id,
             get_token_by_id t' id =
             match (if (0 <=? id)%Z then vocab_entries lines !! Z.to_nat id
                    else None) with
             | Some token => token
             | None => "[INVALID]"
             end).
  { intros id. unfold get_token_by_id. rewrite Hv, Hl. simpl.
    rewrite int_of_size_small by lia.
    destruct (Z.ltb_spec id 0) as [Hneg|Hpos]; simpl.
    - assert (H : (0 <=? id)%Z = false) by (apply Z.leb_gt; lia).
      rewrite H. reflexivity.
    - assert (H : (0 <=? id)%Z = true) by (apply Z.leb_le; lia).
      rewrite H.
      destruct (Z.leb_spec (Z.of_nat (List.length (vocab_entries lines))) id)
        as [Hge|Hlt].
      + rewrite lookup_ge_None_2 by lia. reflexivity.
      + destruct (vocab_entries lines !! Z.to_nat id) as [token|] eqn:E.
        * apply nth_lookup_Some. exact E.
        * apply lookup_ge_None in E. lia. }
  split; [exact Hv|]. split; [unfold vocab_size; rewrite Hv, Hl; reflexivity|].
  split; [exact Hget|].
  intros token id Hid.
  destruct (load_vocab_fields t lines) as [Hm Hl'].
  destruct (load_fold lines (with_vocab t ∅ []) 0%Z) as (H1 & H2 & _);
    [reflexivity | simpl; lia|].
  assert (Hinv : vocab_inverse t').
  { unfold vocab_inverse. subst t'. rewrite Hm, Hl'. apply H2.
    intros tok i. simpl. rewrite lookup_empty. discriminate. }
  destruct (Hinv _ _ Hid) as [H0 Hlook].
  rewrite Hget, Hl in *.
  assert (H : (0 <=? id)%Z = true) by (apply Z.leb_le; lia).
  rewrite H, Hlook. reflexivity.
Qed.

Lemma load_vocab_accessors_witness :
  vocab_size demo_vocab = 5 /\
  get_token_by_id demo_vocab 3 = "hello" /\
  get_token_by_id demo_vocab 5 = "[INVALID]".
Proof.
  destruct (load_vocab_accessors demo_tokenizer
              ["[CLS]"; "[SEP]"; "[PAD]"; "hello"; "world"])
    as (_ & Hsize & Hget & _).
  - vm_compute. discriminate.
  - split; [exact Hsize|]. split; [apply (Hget 3%Z) | apply (Hget 5%Z)].
Defined.

Lemma string_app_assoc (a b c : string) : (a +:+ b) +:+ c = a +:+ (b +:+ c).
Proof. apply bytes_inj. rewrite !bytes_app, app_assoc. reflexivity. Qed.

Lemma save_content l : forall content,
  fold_left write_token l content = content +:+ file_content l.
Proof.
  induction l as [|token l IH]; intros content; simpl.
  - apply bytes_inj. rewrite bytes_app. simpl. rewrite app_nil_r. reflexivity.
  - rewrite IH. unfold write_token. rewrite !string_app_assoc. reflexivity.
Qed.

Lemma getlines_line token rest :
  ~ In "010"%char (bytes token) ->
  getlines (token +:+ String "010" rest) = token :: getlines rest.
Proof.
  induction token as [|c token IH]; intros Hnl; [reflexivity|].
  simpl in Hnl.
  change (String c token +:+ String "010" rest)
    with (String c (token +:+ String "010" rest)).
  cbn [getlines].
  destruct (Ascii.eqb_spec c "010") as [->|_]; [tauto|].
  rewrite IH by tauto. reflexivity.
Qed.

Lemma getlines_file_content l :
  Forall (fun token => ~ In "010"%char (bytes token)) l ->
  getlines (file_content l) = l.
Proof.
  induction 1 as [|token l Hnl _ IH]; [reflexivity|].
  simpl. rewrite getlines_line by exact Hnl. rewrite IH. reflexivity.
Qed.

Lemma getlines_no_newline content :
  Forall (fun line => ~ In "010"%char (bytes line)) (getlines content).
Proof.
  induction content as [|c content IH]; simpl; [constructor|].
  destruct (Ascii.eqb_spec c "010") as [->|Hc].
  - constructor; [simpl; tauto | exact IH].
  - destruct (getlines content) as [|line lines].
    + constructor; [|constructor]. simpl. intros [H|[]]. congruence.
    + apply Forall_cons in IH as [H1 H2]. constructor; [|exact H2].
      simpl. intros [H|H]; [congruence | tauto].
Qed.

Lemma rtrim_bytes_incl line c : In c (bytes (rtrim line)) -> In c (bytes line).
Proof.
  destruct (rtrim_facts line) as ((ws & Hs & _) & _).
  intros Hin. rewrite Hs at 1. rewrite bytes_app. apply in_app_iff. auto.
Qed.

Lemma vocab_entries_clean lines :
  Forall (fun line => ~ In "010"%char (bytes line)) lines ->
  Forall clean_entry (vocab_entries lines).
Proof.
  intros Hall. unfold vocab_entries. apply List.Forall_forall.
  intros token Hin. apply List.filter_In in Hin as [Hin Hne].
  apply in_map_iff in Hin as (line & <- & Hline).
  split; [|split].
  - intros E. rewrite E in Hne. discriminate.
  - apply rtrim_facts.
  - intros Hc. apply rtrim_bytes_incl in Hc.
    apply (proj1 (List.Forall_forall _ _) Hall line Hline Hc).
Qed.

Lemma vocab_entries_of_clean l :
  Forall clean_entry l -> vocab_entries l = l.
Proof.
  induction 1 as [|token l (Hne & Hr & _) _ IH]; [reflexivity|].
  unfold vocab_entries in *. simpl. rewrite Hr.
  destruct token; [congruence|]. simpl. rewrite IH. reflexivity.
Qed.

(** Blank lines and trailing whitespace aside, the loop of [load_vocab]
    does on a file what it does on the entries of that file. *)
Lemma load_fold_entries lines : forall s,
  fold_left load_line lines s = fold_left load_line (vocab_entries lines) s.
Proof.
  induction lines as [|line lines IH]; intros [t id]; [reflexivity|].
  unfold vocab_entries. simpl. fold (vocab_entries lines).
  destruct (string_empty (rtrim line)) eqn:He; simpl.
  - apply (IH (_, _)).
  - destruct (rtrim_facts line) as (_ & _ & Hidem).
    rewrite Hidem, He. simpl. apply (IH (_, _)).
Qed.

(** X19: saving the vocabulary that [load_vocab] read from a file and
    loading the saved file again gives the same tokenizer as loading the
    original file: blank lines and trailing whitespace are all that a save
    drops. *)
Theorem load_save_load (t : TextTokenizer) (content : string) :
  exists saved,
    save_vocab (load_vocab_file t (Some content)).2 true = (true, Some saved) /\
    load_vocab_file t (Some saved) = load_vocab_file t (Some content).
Proof.
  unfold load_vocab_file. cbn [option_map].
  exists (file_content (vocab_entries (getlines content))). split.
  - unfold save_vocab. rewrite use_vocab_load, load_vocab_list. simpl.
    rewrite save_content. reflexivity.
  - assert (Hclean : Forall clean_entry (vocab_entries (getlines content)))
      by apply vocab_entries_clean, getlines_no_newline.
    rewrite getlines_file_content
      by (eapply Forall_impl; [exact Hclean|]; intros tok (_ & _ & H); exact H).
    unfold load_vocab.
    rewrite (load_fold_entries (getlines content)).
    rewrite (load_fold_entries (vocab_entries (getlines content))).
    rewrite (vocab_entries_of_clean _ Hclean). reflexivity.
Qed.

Lemma entries_consistent_NoDup m l : entries_consistent m l -> NoDup l.
Proof.
  intros [_ Hiff]. apply NoDup_alt. intros i j x Hi Hj.
  assert (H1 : m !! x = Some (Z.of_nat i))
    by (apply Hiff; rewrite Nat2Z.id; split; [lia | exact Hi]).
  assert (H2 : m !! x = Some (Z.of_nat j))
    by (apply Hiff; rewrite Nat2Z.id; split; [lia | exact Hj]).
  rewrite H1 in H2. injection H2. lia.
Qed.

Lemma entries_consistent_unique m1 m2 l :
  entries_consistent m1 l -> entries_consistent m2 l -> m1 = m2.
Proof.
  intros [_ H1] [_ H2]. apply map_eq. intros token.
  destruct (m1 !! token) as [id|] eqn:E1.
  - symmetry. apply H2, H1, E1.
  - destruct (m2 !! token) as [id|] eqn:E2; [|reflexivity].
    apply H2, H1 in E2. congruence.
Qed.

(** X20: a vocabulary whose map and list are consistent and whose entries
    are non-empty, without trailing whitespace and without newline is
    restored by [load_vocab] from the file [save_vocab] writes: the same
    list and the same map, in any tokenizer (sizes within [int]). *)
Theorem save_load_roundtrip (t t0 : TextTokenizer) :
  use_vocab_ t = true ->
  vocab_consistent t ->
  Forall clean_entry (id_to_vocab_ t) ->
  (Z.of_nat (List.length (id_to_vocab_ t)) <= int_max)%Z ->
  exists saved,
    save_vocab t true = (true, Some saved) /\
    (load_vocab_file t0 (Some saved)).1 = true /\
    id_to_vocab_ (load_vocab_file t0 (Some saved)).2 = id_to_vocab_ t /\
    vocab_to_id_ (load_vocab_file t0 (Some saved)).2 = vocab_to_id_ t.
Proof.
  intros Hv Hcons Hclean Hsize.
  exists (file_content (id_to_vocab_ t)).
  split; [unfold save_vocab; rewrite Hv; simpl; rewrite save_content;
          reflexivity|].
  unfold load_vocab_file. cbn [option_map].
  rewrite getlines_file_content
    by (eapply Forall_impl; [exact Hclean|]; intros tok (_ & _ & H); exact H).
  split.
  { unfold load_vocab.
    destruct (fold_left load_line (id_to_vocab_ t) (with_vocab t0 ∅ [], 0%Z)).
    reflexivity. }
  pose proof (load_vocab_list t0 (id_to_vocab_ t)) as Hl.
  rewrite (vocab_entries_of_clean _ Hclean) in Hl.
  split; [exact Hl|].
  destruct (load_vocab_fields t0 (id_to_vocab_ t)) as [Hm Hl'].
  destruct (load_fold (id_to_vocab_ t) (with_vocab t0 ∅ []) 0%Z)
    as (_ & _ & H3); [reflexivity | simpl; lia|].
  simpl in H3. rewrite (vocab_entries_of_clean _ Hclean) in H3.
  specialize (H3 (entries_consistent_NoDup _ _ Hcons) entries_consistent_empty).
  unfold vocab_consistent in H3. rewrite <- Hm, <- Hl', Hl in H3.
  apply (entries_consistent_unique _ _ _ H3 Hcons).
Qed.

Lemma demo_vocab_consistent : vocab_consistent demo_vocab.
Proof.
  unfold demo_vocab.
  destruct (load_vocab_fields demo_tokenizer
              ["[CLS]"; "[SEP]"; "[PAD]"; "hello"; "world"]) as [Hm Hl].
  destruct (load_fold ["[CLS]"; "[SEP]"; "[PAD]"; "hello"; "world"]
              (with_vocab demo_tokenizer ∅ []) 0%Z) as (_ & _ & H3);
    [reflexivity | vm_compute; discriminate|].
  unfold vocab_consistent in *. rewrite Hm, Hl. apply H3.
  - apply (bool_decide_unpack _). vm_compute. exact I.
  - apply entries_consistent_empty.
Qed.

Lemma demo_vocab_clean : Forall clean_entry (id_to_vocab_ demo_vocab).
Proof.
  unfold demo_vocab. rewrite (load_vocab_list demo_tokenizer).
  apply vocab_entries_clean.
  repeat (apply List.Forall_cons;
          [simpl; intuition discriminate|]).
  apply List.Forall_nil.
Qed.

Lemma save_load_roundtrip_witness :
  exists saved,
    save_vocab demo_vocab true = (true, Some saved) /\
    (load_vocab_file new_tokenizer (Some saved)).1 = true /\
    id_to_vocab_ (load_vocab_file new_tokenizer (Some saved)).2 =
      id_to_vocab_ demo_vocab /\
    vocab_to_id_ (load_vocab_file new_tokenizer (Some saved)).2 =
      vocab_to_id_ demo_vocab.
Proof.
  apply (save_load_roundtrip demo_vocab new_tokenizer).
  - reflexivity.
  - exact demo_vocab_consistent.
  - exact demo_vocab_clean.
  - vm_compute. discriminate.
Defined.

(** ** Delimiters and simple_split *)

Lemma add_delimiters_elem delims : forall t c,
  c ∈ delimiters_ (add_delimiters delims t) <->
  In c (bytes delims) \/ c ∈ delimiters_ t.
Proof.
  induction delims as [|c0 delims IH]; intros t c; simpl.
  - tauto.
  - rewrite IH. simpl. rewrite elem_of_union, elem_of_singleton.
    split; [intros [H|[H|H]] | intros [[H|H]|H]]; auto.
Qed.

Lemma add_delimiters_fields delims : forall t,
  lowercase_ (add_delimiters delims t) = lowercase_ t /\
  keep_punctuation_ (add_delimiters delims t) = keep_punctuation_ t /\
  split_on_punctuation_ (add_delimiters delims t) = split_on_punctuation_ t /\
  vocab_to_id_ (add_delimiters delims t) = vocab_to_id_ t /\
  id_to_vocab_ (add_delimiters delims t) = id_to_vocab_ t.
Proof.
  induction delims as [|c0 delims IH]; intros t; simpl; [repeat split|].
  destruct (IH (add_delimiter c0 t)) as (-> & -> & -> & -> & ->).
  repeat split.
Qed.

(** X21: [add_delimiters] makes every byte of its argument a delimiter,
    each byte of a multi-byte character on its own, and changes nothing
    else: afterwards a byte splits exactly when it did before or occurs in
    the argument, and the delimiters stay ASCII exactly when the argument is
    ASCII too. *)
Theorem add_delimiters_splits (t : TextTokenizer) (delims : string) (c : ascii) :
  should_split_at (add_delimiters delims t) c =
    should_split_at t c || bool_decide (c ∈ bytes delims) /\
  (ascii_delimiters t ->
   (ascii_delimiters (add_delimiters delims t) <->
    Forall (fun c => (uchar c < 128)%N) (bytes delims))).
Proof.
  split.
  - unfold should_split_at.
    destruct (add_delimiters_fields delims t) as (_ & _ & -> & _).
    rewrite (bool_decide_ext _ (c ∈ delimiters_ t \/ c ∈ bytes delims))
      by (rewrite add_delimiters_elem, list_elem_of_In; tauto).
    rewrite bool_decide_or.
    destruct (bool_decide (c ∈ delimiters_ t)),
      (bool_decide (c ∈ bytes delims)),
      (split_on_punctuation_ t && is_ascii_punct c); reflexivity.
  - intros Hd. split.
    + intros Ha. apply List.Forall_forall. intros c0 Hin. apply Ha.
      apply add_delimiters_elem. auto.
    + intros Hall c0 Hin. apply add_delimiters_elem in Hin as [Hin|Hin].
      * apply (proj1 (List.Forall_forall _ _) Hall _ Hin).
      * apply Hd, Hin.
Qed.

Lemma add_delimiters_splits_witness :
  ascii_delimiters (add_delimiters "-_" new_tokenizer) /\
  ~ ascii_delimiters (add_delimiters e_acute new_tokenizer).
Proof.
  split.
  - apply (proj2 (add_delimiters_splits new_tokenizer "-_" " ")
             new_tokenizer_ascii_delimiters).
    apply (bool_decide_unpack _). vm_compute. exact I.
  - intros H.
    apply (proj2 (add_delimiters_splits new_tokenizer e_acute " ")
             new_tokenizer_ascii_delimiters) in H.
    apply Forall_inv in H. vm_compute in H. discriminate H.
Defined.

(** X22: [simple_split] of words joined by single spaces returns exactly
    those words, unchanged: a word being a non-empty run of whole
    characters none of whose bytes is a space, tab, newline, carriage
    return, form feed or vertical tab. *)
Theorem simple_split_words (words : list string) :
  Forall (fun w => w <> "" /\ whole_chars w /\
                   Forall (fun c => c ∉ delimiters_ new_tokenizer) (bytes w))
    words ->
  simple_split (String.concat " " words) = words.
Proof.
  intros Hwords. unfold simple_split.
  rewrite (tokenize_words_join new_tokenizer " " words).
  - apply map_id.
  - exact new_tokenizer_ascii_delimiters.
  - reflexivity.
  - reflexivity.
  - eapply Forall_impl; [exact Hwords|].
    intros w (Hne & Hwc & Hns). split; [exact Hne|]. split; [exact Hwc|].
    eapply Forall_impl; [exact Hns|]. intros c Hc.
    unfold should_split_at.
    change (split_on_punctuation_ new_tokenizer) with false.
    cbn [andb]. rewrite orb_false_r. apply bool_decide_eq_false. exact Hc.
Qed.

Lemma simple_split_words_witness :
  simple_split "C++ vs Python vs Rust" = ["C++"; "vs"; "Python"; "vs"; "Rust"].
Proof.
  apply (simple_split_words ["C++"; "vs"; "Python"; "vs"; "Rust"]).
  repeat (apply List.Forall_cons;
          [split; [discriminate|];
           split; [apply ascii_whole_chars|];
           apply (bool_decide_unpack _); vm_compute; exact I|]).
  apply List.Forall_nil.
Defined.

Lemma should_split_at_set_lowercase b t c :
  should_split_at (set_lowercase b t) c = should_split_at t c.
Proof. reflexivity. Qed.

Lemma push_back_normalized t tokens token :
  push_back (map (normalize_token t) tokens) (normalize_token t token) =
  map (normalize_token t)
    (push_back tokens (normalize_token (set_lowercase false t) token)).
Proof. unfold push_back. rewrite map_app. reflexivity. Qed.

Lemma run_loop_lowercase t text fuel a b :
  scan_normalized t a b ->
  scan_normalized t
    (while_loop (run_cond t text) (run_body t text) fuel a)
    (while_loop (run_cond (set_lowercase false t) text)
       (run_body (set_lowercase false t) text) fuel b).
Proof.
  apply (while_loop_sim (scan_normalized t)).
  - intros [ia sa ta] [ib sb tb] (Hi & Hs & Ht). simpl in Hi, Hs, Ht. subst.
    reflexivity.
  - intros [ia sa ta] [ib sb tb] (Hi & Hs & Ht) _. simpl in Hi, Hs, Ht. subst.
    unfold run_body, scan_normalized.
    cbn [scan_i scan_start scan_tokens keep_punctuation_ set_lowercase].
    split; [reflexivity|]. split; [reflexivity|].
    destruct (keep_punctuation_ t && is_ascii_punct (char_at text ib) &&
              run_guard ib sb).
    + apply push_back_normalized.
    + reflexivity.
Qed.

Lemma tokenize_scan_lowercase t text :
  scan_normalized t (tokenize_scan t text)
    (tokenize_scan (set_lowercase false t) text).
Proof.
  unfold tokenize_scan. apply (while_loop_sim (scan_normalized t)).
  - intros [ia sa ta] [ib sb tb] (Hi & Hs & Ht). simpl in Hi, Hs, Ht. subst.
    reflexivity.
  - intros [ia sa ta] [ib sb tb] (Hi & Hs & Ht) _. simpl in Hi, Hs, Ht. subst.
    unfold tokenize_body.
    cbn [scan_i scan_start scan_tokens keep_punctuation_ set_lowercase].
    rewrite should_split_at_set_lowercase.
    destruct (negb _); [repeat split|].
    destruct (should_split_at t _); [|repeat split].
    match goal with
    | |- scan_normalized _ {| scan_i := scan_i ?ra |} {| scan_i := scan_i ?rb |} =>
        assert (Hr : scan_normalized t ra rb)
    end.
    { apply run_loop_lowercase. unfold scan_normalized.
      cbn [scan_i scan_start scan_tokens].
      split; [reflexivity|]. split; [reflexivity|].
      assert (H1 :
        (if sb <? ib
         then if negb (string_empty (substr text sb (ib - sb)))
              then push_back (map (normalize_token t) tb)
                     (normalize_token t (substr text sb (ib - sb)))
              else map (normalize_token t) tb
         else map (normalize_token t) tb) =
        map (normalize_token t)
          (if sb <? ib
           then if negb (string_empty (substr text sb (ib - sb)))
                then push_back tb
                       (normalize_token (set_lowercase false t)
                          (substr text sb (ib - sb)))
                else tb
           else tb)).
      { destruct (sb <? ib); [|reflexivity].
        destruct (negb _); [apply push_back_normalized | reflexivity]. }
      rewrite H1.
      destruct (keep_punctuation_ t && is_ascii_punct (char_at text ib));
        [apply push_back_normalized | reflexivity]. }
    destruct Hr as (H1 & H2 & H3). unfold scan_normalized.
    cbn [scan_i scan_start scan_tokens]. rewrite H1, H3. repeat split.
  - repeat split.
Qed.

(** X23: lowercasing never changes where a text is split: under every
    configuration the tokens are those the same configuration gives with
    lowercase disabled, each passed through [normalize_token]. *)
Theorem tokenize_lowercase_commutes (t : TextTokenizer) (text : string) :
  tokenize t text =
  map (normalize_token t) (tokenize (set_lowercase false t) text).
Proof.
  destruct (tokenize_scan_lowercase t text) as (_ & Hs & Ht).
  unfold tokenize. rewrite Hs, Ht.
  destruct (_ <? _); [|reflexivity].
  destruct (negb _); [apply push_back_normalized | reflexivity].
Qed.

(** ** tokenize as a splitting function *)

Lemma string_app_empty_r (s : string) : s +:+ "" = s.
Proof. apply bytes_inj. rewrite bytes_app. apply app_nil_r. Qed.

Lemma length_string_app (a b : string) :
  String.length (a +:+ b) = String.length a + String.length b.
Proof. rewrite <- !bytes_length, bytes_app, length_app. reflexivity. Qed.

Lemma char_at_app_l w x k :
  k < String.length w -> char_at (w +:+ x) k = char_at w k.
Proof.
  intros Hk. unfold char_at. rewrite <- !bytes_lookup, bytes_app.
  rewrite lookup_app_l by (rewrite bytes_length; exact Hk). reflexivity.
Qed.

Lemma char_boundary_app w x k : char_boundary w k -> char_boundary (w +:+ x) k.
Proof.
  induction 1 as [|k Hk IH Hlt]; [apply boundary_start|].
  rewrite <- (char_at_app_l w x k Hlt). apply boundary_next; [exact IH|].
  rewrite length_string_app. lia.
Qed.

Lemma whole_chars_app_char w c tail :
  whole_chars w -> String.length tail + 1 = utf8_char_length (uchar c) ->
  whole_chars (w +:+ String c tail).
Proof.
  intros Hw Hlen. unfold whole_chars in *.
  assert (Hc : char_at (w +:+ String c tail) (String.length w) = c).
  { unfold char_at. rewrite <- bytes_lookup, bytes_app.
    rewrite lookup_app_r by (rewrite bytes_length; lia).
    rewrite bytes_length, Nat.sub_diag. reflexivity. }
  replace (String.length (w +:+ String c tail))
    with (String.length w +
          utf8_char_length
            (uchar (char_at (w +:+ String c tail) (String.length w)))).
  - apply boundary_next; [apply char_boundary_app, Hw|].
    rewrite length_string_app. simpl. lia.
  - rewrite Hc, length_string_app. simpl. lia.
Qed.

Lemma split_runs_skip split pre : forall rest cur,
  Forall (fun c => split c = false) (bytes pre) ->
  split_runs split (pre +:+ rest) cur = split_runs split rest (cur +:+ pre).
Proof.
  induction pre as [|c pre IH]; intros rest cur Hall.
  - simpl. rewrite string_app_empty_r. reflexivity.
  - simpl in Hall. inversion Hall as [|? ? Hc Hpre]; subst.
    change (String c pre +:+ rest) with (String c (pre +:+ rest)).
    cbn [split_runs]. rewrite Hc, (IH _ _ Hpre), string_app_assoc.
    reflexivity.
Qed.

Lemma high_byte_no_split t b :
  ascii_delimiters t -> (128 <= uchar b)%N -> should_split_at t b = false.
Proof.
  intros Hd Hb. destruct (should_split_at t b) eqn:E; [|reflexivity].
  apply (should_split_at_ascii t b Hd) in E. lia.
Qed.

Lemma tokenize_runs_from t :
  ascii_delimiters t -> keep_punctuation_ t = false ->
  forall text, utf8_text text -> forall w,
  whole_chars w -> Forall (fun c => should_split_at t c = false) (bytes w) ->
  tokenize t (w +:+ text) =
  map (normalize_token t) (split_runs (should_split_at t) text w).
Proof.
  intros Hd Hk text Htext.
  induction Htext as [|c tail rest Hlen Htail Hrest IH]; intros w Hw Hns.
  - rewrite string_app_empty_r. simpl.
    destruct w as [|a w']; [reflexivity|].
    simpl. apply tokenize_no_split; [discriminate | exact Hns].
  - destruct (N.ltb_spec (uchar c) 128) as [Hc|Hc].
    + rewrite (ascii_char_length c Hc) in Hlen.
      assert (tail = "") as ->
          by (destruct tail; [reflexivity | simpl in Hlen; lia]).
      change ("" +:+ rest) with rest. cbn [split_runs].
      destruct (should_split_at t c) eqn:Hsplit.
      * rewrite (tokenize_split_first t w c rest Hd Hw Hns Hsplit);
          [| rewrite Hk; reflexivity | left; exact Hk].
        rewrite map_app. f_equal.
        -- destruct (string_empty w); reflexivity.
        -- apply (IH ""); [apply boundary_start | constructor].
      * replace (w +:+ String c rest) with ((w +:+ String c "") +:+ rest)
          by (rewrite string_app_assoc; reflexivity).
        apply IH.
        -- apply whole_chars_app_char;
             [exact Hw | rewrite (ascii_char_length c Hc); reflexivity].
        -- rewrite bytes_app. apply Forall_app. split; [exact Hns|].
           repeat constructor. exact Hsplit.
    + assert (Hpre : Forall (fun b => should_split_at t b = false)
                       (bytes (String c tail))).
      { simpl. constructor; [apply high_byte_no_split; assumption|].
        eapply Forall_impl; [exact Htail|]. intros b Hb.
        apply high_byte_no_split; assumption. }
      change (String c (tail +:+ rest)) with (String c tail +:+ rest).
      rewrite split_runs_skip by exact Hpre.
      rewrite <- string_app_assoc. apply IH.
      * apply whole_chars_app_char; assumption.
      * rewrite bytes_app. apply Forall_app. split; assumption.
Qed.

(** X24: on a text of complete UTF-8 characters, with ASCII delimiters and
    punctuation not kept, [tokenize] is the plain splitting function: the
    tokens are the maximal runs of bytes that do not split, in order, each
    normalized; empty runs give no token and no byte that does not split
    is lost. *)
Theorem tokenize_utf8_runs (t : TextTokenizer) (text : string) :
  ascii_delimiters t ->
  keep_punctuation_ t = false ->
  utf8_text text ->
  tokenize t text =
  map (normalize_token t) (split_runs (should_split_at t) text "").
Proof.
  intros Hd Hk Htext.
  apply (tokenize_runs_from t Hd Hk text Htext "");
    [apply boundary_start | constructor].
Qed.

Lemma tokenize_utf8_runs_witness :
  tokenize plain_tokenizer cafe_au_lait =
  map (normalize_token plain_tokenizer)
    (split_runs (should_split_at plain_tokenizer) cafe_au_lait "") /\
  map (normalize_token plain_tokenizer)
    (split_runs (should_split_at plain_tokenizer) cafe_au_lait "") =
  ["caf" +:+ e_acute; "au"; "lait"].
Proof.
  split; [|vm_compute; reflexivity].
  apply (tokenize_utf8_runs plain_tokenizer cafe_au_lait).
  - exact new_tokenizer_ascii_delimiters.
  - reflexivity.
  - vm_compute.
    repeat first
      [ apply utf8_text_empty
      | apply (utf8_text_char _ "" _); [reflexivity | constructor |]
      | apply (utf8_text_char _ (String _ "") _);
        [reflexivity
        | repeat constructor; vm_compute; discriminate |] ].
Defined.

(** ** What build_vocab_from_text keeps *)

Lemma add_regular_fold_covers max_vocab_size sorted_tokens : forall t added,
  (int_min + 4 <= max_vocab_size <= int_max)%Z ->
  (0 <= added)%Z ->
  (added + Z.of_nat (List.length sorted_tokens) <= max_vocab_size - 4)%Z ->
  forall p, In p sorted_tokens ->
    is_Some (vocab_to_id_
               (fold_left (add_regular max_vocab_size) sorted_tokens
                  (t, added)).1 !! p.1).
Proof.
  induction sorted_tokens as [|q l IH]; intros t added Hmax Ha Hlen p Hin;
    [destruct Hin|].
  cbn [fold_left]. cbn [List.length] in Hlen.
  assert (Hstep : exists t1 added1,
             add_regular max_vocab_size (t, added) q = (t1, added1) /\
             (0 <= added1 <= added + 1)%Z /\
             is_Some (vocab_to_id_ t1 !! q.1)).
  { unfold add_regular. destruct (vocab_to_id_ t !! q.1) eqn:E.
    - exists t, added. split; [reflexivity|]. split; [lia|].
      rewrite E. eauto.
    - assert (Hbudget : int_sub max_vocab_size (int_of_size 4) =
                        (max_vocab_size - 4)%Z).
      { unfold int_sub.
        rewrite (int_of_size_small 4) by (unfold int_max; simpl; lia).
        apply int_wrap_small. unfold int_min, int_max in *. simpl. lia. }
      rewrite Hbudget.
      assert (Hlt : (added <? max_vocab_size - 4)%Z = true)
        by (apply Z.ltb_lt; lia).
      rewrite Hlt.
      assert (Hnext : int_add added 1 = (added + 1)%Z).
      { apply int_wrap_small. unfold int_min, int_max in *. lia. }
      rewrite Hnext. eexists _, _. split; [reflexivity|]. split; [lia|].
      simpl. rewrite lookup_insert_eq. eauto. }
  destruct Hstep as (t1 & added1 & -> & Ha1 & Hq).
  destruct Hin as [<- | Hin].
  - destruct Hq as [id Hid].
    destruct (add_regular_fold_facts max_vocab_size l t1 added1)
      as (_ & Hmono & _).
    exists id. apply Hmono. exact Hid.
  - apply IH; [exact Hmax | lia | lia | exact Hin].
Qed.

Lemma install_vocab_size t sorted_tokens max_vocab_size :
  (int_min + 4 <= max_vocab_size <= int_max)%Z ->
  (Z.of_nat (List.length
               (id_to_vocab_ (install_vocab t sorted_tokens max_vocab_size))) <=
   Z.max 4 max_vocab_size)%Z.
Proof.
  intros Hmax. rewrite install_vocab_unfold. simpl.
  set (ta := add_special (with_vocab t ∅ []) (pad_token_ t)).
  set (tb := add_special ta (unk_token_ t)).
  set (tc := add_special tb (cls_token_ t)).
  set (t1 := add_special tc (sep_token_ t)).
  assert (Hs : List.length (id_to_vocab_ t1) <= 4).
  { pose proof (add_special_length (with_vocab t ∅ []) (pad_token_ t)) as Ha.
    pose proof (add_special_length ta (unk_token_ t)) as Hb.
    pose proof (add_special_length tb (cls_token_ t)) as Hc.
    pose proof (add_special_length tc (sep_token_ t)) as Hd.
    fold ta in Ha. fold tb in Hb. fold tc in Hc. fold t1 in Hd.
    simpl in Ha. lia. }
  pose proof (add_regular_fold_bound max_vocab_size sorted_tokens t1 0%Z Hmax)
    as Hb.
  specialize (Hb ltac:(lia) ltac:(lia)). lia.
Qed.

Lemma get_token_by_id_entry t token id :
  use_vocab_ t = true ->
  vocab_inverse t ->
  (Z.of_nat (List.length (id_to_vocab_ t)) <= int_max)%Z ->
  vocab_to_id_ t !! token = Some id ->
  (0 <= id < Z.of_nat (vocab_size t))%Z /\ get_token_by_id t id = token.
Proof.
  intros Hv Hinv Hmax Hid. apply Hinv in Hid as [Hpos Hl].
  pose proof (lookup_lt_Some _ _ _ Hl) as Hlt.
  unfold vocab_size, get_token_by_id. rewrite Hv.
  split; [lia|].
  rewrite int_of_size_small by exact Hmax.
  assert (H1 : (id <? 0)%Z = false) by (apply Z.ltb_ge; lia).
  assert (H2 : (Z.of_nat (List.length (id_to_vocab_ t)) <=? id)%Z = false)
    by (apply Z.leb_gt; lia).
  rewrite H1, H2. simpl. apply nth_lookup_Some. exact Hl.
Qed.

(** X25: when max_vocab_size leaves room for the four special tokens and
    every distinct token of the corpus, [build_vocab_from_text] gives an
    entry to every token that occurs at least min_frequency times: the map
    has an id for it, [encode] uses that id, it is a valid position and
    [get_token_by_id] returns the token for it. *)
Theorem build_vocab_keeps_frequent (t : TextTokenizer) (texts : list string)
    (min_frequency max_vocab_size : Z) (t' : TextTokenizer) (token : string) :
  (Z.of_nat (List.length (corpus_tokens t texts)) <= int_max)%Z ->
  (4 + Z.of_nat (size (token_counts t texts)) <= max_vocab_size <= int_max)%Z ->
  build_vocab_from_text t texts min_frequency max_vocab_size t' ->
  0 < occurrences token (corpus_tokens t texts) ->
  (min_frequency <= Z.of_nat (occurrences token (corpus_tokens t texts)))%Z ->
  exists id,
    vocab_to_id_ t' !! token = Some id /\ lookup_id t' token = id /\
    (0 <= id < Z.of_nat (vocab_size t'))%Z /\ get_token_by_id t' id = token.
Proof.
  intros Hlen Hmax (entries & sorted_tokens & Hiter & [Hperm _] & ->) Hocc Hfreq.
  assert (Hrange : (int_min + 4 <= max_vocab_size <= int_max)%Z)
    by (unfold int_min; lia).
  assert (Hc : token_counts t texts !! token =
               if occurrences token (corpus_tokens t texts) =? 0 then None
               else Some (Z.of_nat (occurrences token (corpus_tokens t texts)))).
  { apply (token_counts_fold t texts ∅ []);
      [intros tok'; rewrite lookup_empty; reflexivity | simpl; exact Hlen]. }
  destruct (occurrences token (corpus_tokens t texts) =? 0) eqn:E;
    [apply Nat.eqb_eq in E; lia|].
  set (n := Z.of_nat (occurrences token (corpus_tokens t texts))) in *.
  assert (Hin : In (token, n) sorted_tokens).
  { apply list_elem_of_In. rewrite Hperm. apply list_elem_of_filter. split.
    - unfold frequent. simpl. apply Is_true_true, Z.leb_le. exact Hfreq.
    - unfold iteration_order in Hiter. rewrite Hiter.
      apply elem_of_map_to_list. exact Hc. }
  assert (Hsize : List.length sorted_tokens <= size (token_counts t texts)).
  { rewrite (Permutation_length Hperm).
    etransitivity; [apply length_filter|].
    unfold iteration_order in Hiter.
    rewrite (Permutation_length Hiter), length_map_to_list. reflexivity. }
  set (t' := install_vocab t sorted_tokens max_vocab_size).
  assert (Hsome : is_Some (vocab_to_id_ t' !! token)).
  { unfold t'. rewrite install_vocab_unfold. simpl.
    apply (add_regular_fold_covers max_vocab_size sorted_tokens _ 0%Z Hrange
             ltac:(lia) ltac:(lia) (token, n) Hin). }
  destruct Hsome as [id Hid]. exists id.
  split; [exact Hid|]. split; [unfold lookup_id; rewrite Hid; reflexivity|].
  apply (get_token_by_id_entry t' token id).
  - unfold t'. rewrite install_vocab_unfold. reflexivity.
  - apply entries_consistent_inverse.
    apply (install_vocab_consistent t sorted_tokens max_vocab_size Hrange).
  - pose proof (install_vocab_size t sorted_tokens max_vocab_size Hrange).
    fold t' in H. lia.
  - exact Hid.
Qed.

Lemma build_vocab_keeps_frequent_witness :
  exists id,
    vocab_to_id_ (install_vocab demo_tokenizer [("b", 2%Z); ("a", 1%Z)] 50000)
      !! "a" = Some id /\
    lookup_id (install_vocab demo_tokenizer [("b", 2%Z); ("a", 1%Z)] 50000)
      "a" = id /\
    (0 <= id <
     Z.of_nat (vocab_size
                 (install_vocab demo_tokenizer [("b", 2%Z); ("a", 1%Z)] 50000)))%Z /\
    get_token_by_id
      (install_vocab demo_tokenizer [("b", 2%Z); ("a", 1%Z)] 50000) id = "a".
Proof.
  apply (build_vocab_keeps_frequent demo_tokenizer ["b a b"] 1 50000).
  - vm_compute. discriminate.
  - vm_compute. split; discriminate.
  - exists [("a", 1%Z); ("b", 2%Z)], [("b", 2%Z); ("a", 1%Z)].
    split; [vm_compute; reflexivity|]. split; [|reflexivity].
    split; [apply perm_swap|].
    apply (bool_decide_unpack _). vm_compute. exact I.
  - vm_compute. lia.
  - vm_compute. discriminate.
Defined.

(** ** Special-token ids of the entries that are present *)

Lemma add_entry_special_agree t token id :
  special_distinct t ->
  special_ids_agree t -> special_ids_agree (add_entry t token id).
Proof.
  intros Hd (Hu & Hp & Hc & Hs).
  apply special_distinct_neq in Hd as (N1 & N2 & N3 & N4 & N5 & N6).
  unfold special_ids_agree, add_entry, store_special_id. simpl.
  destruct (String.eqb_spec token (unk_token_ t)) as [->|E1]; simpl.
  { rewrite lookup_insert_eq, !lookup_insert_ne by congruence.
    repeat split; try assumption. congruence. }
  destruct (String.eqb_spec token (pad_token_ t)) as [->|E2]; simpl.
  { rewrite lookup_insert_eq, !lookup_insert_ne by congruence.
    repeat split; try assumption. congruence. }
  destruct (String.eqb_spec token (cls_token_ t)) as [->|E3]; simpl.
  { rewrite lookup_insert_eq, !lookup_insert_ne by congruence.
    repeat split; try assumption. congruence. }
  destruct (String.eqb_spec token (sep_token_ t)) as [->|E4]; simpl.
  { rewrite lookup_insert_eq, !lookup_insert_ne by congruence.
    repeat split; try assumption. congruence. }
  rewrite !lookup_insert_ne by congruence.
  repeat split; assumption.
Qed.

Lemma load_fold_special_agree lines : forall s,
  special_distinct s.1 -> special_ids_agree s.1 ->
  special_distinct (fold_left load_line lines s).1 /\
  special_ids_agree (fold_left load_line lines s).1.
Proof.
  induction lines as [|line lines IH]; intros [t id] Hd Hm; simpl; [auto|].
  simpl in Hd, Hm.
  destruct (string_empty (rtrim line)); simpl; [apply IH; assumption|].
  apply IH; simpl.
  - unfold special_distinct.
    destruct (add_entry_special_tokens t (rtrim line) id)
      as (-> & -> & -> & ->). exact Hd.
  - apply add_entry_special_agree; assumption.
Qed.

(** X26: when the four special strings are pairwise different, after every
    [load_vocab] that reads a file (the first or a later one, whatever the
    ids were before) each special token found in the file has the id of its
    map entry: [encode] of that token and the matching getter agree. *)
Theorem load_vocab_special_ids_agree (t : TextTokenizer) (lines : list string) :
  special_distinct t ->
  special_ids_agree (load_vocab t (Some lines)).2.
Proof.
  intros Hd. unfold load_vocab.
  destruct (load_fold_special_agree lines (with_vocab t ∅ [], 0%Z)) as [_ Hm].
  - exact Hd.
  - unfold special_ids_agree. simpl. rewrite !lookup_empty.
    repeat split; discriminate.
  - destruct (fold_left load_line lines (with_vocab t ∅ [], 0%Z)) as [t' id].
    exact Hm.
Qed.

Lemma load_vocab_special_ids_agree_witness :
  special_ids_agree (load_vocab first_vocab (Some ["hello"; "[UNK]"])).2 /\
  unk_id_ (load_vocab first_vocab (Some ["hello"; "[UNK]"])).2 = 1%Z.
Proof.
  split; [|reflexivity].
  apply (load_vocab_special_ids_agree first_vocab ["hello"; "[UNK]"]).
  apply (bool_decide_unpack _). vm_compute. exact I.
Defined.

(** ** Which tokens a full vocabulary keeps *)

Lemma regular_budget max_vocab_size :
  (int_min + 4 <= max_vocab_size <= int_max)%Z ->
  int_sub max_vocab_size (int_of_size 4) = (max_vocab_size - 4)%Z.
Proof.
  intros Hmax. unfold int_sub.
  rewrite (int_of_size_small 4) by (unfold int_max; simpl; lia).
  apply int_wrap_small. unfold int_min, int_max in *. simpl. lia.
Qed.

(** Once [added] has reached the budget the loop adds nothing more. *)
Lemma add_regular_exhausted max_vocab_size sorted_tokens : forall t added,
  (int_min + 4 <= max_vocab_size <= int_max)%Z ->
  (max_vocab_size - 4 <= added)%Z ->
  fold_left (add_regular max_vocab_size) sorted_tokens (t, added) = (t, added).
Proof.
  induction sorted_tokens as [|p l IH]; intros t added Hmax Hfull;
    [reflexivity|].
  cbn [fold_left].
  assert (Hstep : add_regular max_vocab_size (t, added) p = (t, added)).
  { unfold add_regular. destruct (vocab_to_id_ t !! p.1); [reflexivity|].
    rewrite (regular_budget _ Hmax).
    assert (H : (added <? max_vocab_size - 4)%Z = false)
      by (apply Z.ltb_ge; lia).
    rewrite H. reflexivity. }
  rewrite Hstep. apply IH; assumption.
Qed.

(** One step of the loop leaves the state as it is, because the token is
    present or the budget is used up, or inserts the token. *)
Lemma add_regular_step max_vocab_size t added p :
  (int_min + 4 <= max_vocab_size <= int_max)%Z ->
  (add_regular max_vocab_size (t, added) p = (t, added) /\
   (is_Some (vocab_to_id_ t !! p.1) \/ (max_vocab_size - 4 <= added)%Z)) \/
  (exists t1 added1 id,
      add_regular max_vocab_size (t, added) p = (t1, added1) /\
      vocab_to_id_ t1 = <[p.1 := id]> (vocab_to_id_ t)).
Proof.
  intros Hmax. unfold add_regular.
  destruct (vocab_to_id_ t !! p.1) eqn:E; [left; eauto|].
  rewrite (regular_budget _ Hmax).
  destruct (Z.ltb_spec added (max_vocab_size - 4)) as [Hlt|Hge].
  - right. eexists _, _, _. split; reflexivity.
  - left. split; [reflexivity | right; exact Hge].
Qed.

(** If the loop inserts the token of an entry, every earlier entry of the
    sorted list has its token in the map as well. *)
Lemma add_regular_fold_prefix max_vocab_size l1 : forall t added p l2,
  (int_min + 4 <= max_vocab_size <= int_max)%Z ->
  NoDup (l1 ++ p :: l2).*1 ->
  vocab_to_id_ t !! p.1 = None ->
  is_Some (vocab_to_id_
             (fold_left (add_regular max_vocab_size) (l1 ++ p :: l2)
                (t, added)).1 !! p.1) ->
  forall q, q ∈ l1 ->
    is_Some (vocab_to_id_
               (fold_left (add_regular max_vocab_size) (l1 ++ p :: l2)
                  (t, added)).1 !! q.1).
Proof.
  induction l1 as [|q0 l1 IH]; intros t added p l2 Hmax Hnd Hnone Hp q Hq.
  - apply elem_of_nil in Hq. contradiction.
  - cbn [app fold_left] in Hp |- *.
    rewrite <- app_comm_cons, fmap_cons in Hnd.
    apply NoDup_cons in Hnd as [Hq0 Hnd].
    assert (Hne : q0.1 <> p.1).
    { intros E. apply Hq0. rewrite E, fmap_app, fmap_cons.
      apply elem_of_app. right. left. }
    destruct (add_regular_step max_vocab_size t added q0 Hmax)
      as [[Hstep [Hin|Hfull]] | (t1 & added1 & id & Hstep & Hm)];
      rewrite Hstep in Hp |- *.
    + apply elem_of_cons in Hq as [->|Hq].
      * destruct Hin as [id Hid].
        destruct (add_regular_fold_facts max_vocab_size (l1 ++ p :: l2) t added)
          as (_ & Hmono & _).
        exists id. apply Hmono. exact Hid.
      * apply IH; assumption.
    + rewrite add_regular_exhausted in Hp by assumption.
      simpl in Hp. rewrite Hnone in Hp. destruct Hp as [? Hp]. discriminate.
    + apply elem_of_cons in Hq as [->|Hq].
      * destruct (add_regular_fold_facts max_vocab_size (l1 ++ p :: l2)
                    t1 added1) as (_ & Hmono & _).
        exists id. apply Hmono. rewrite Hm. apply lookup_insert_eq.
      * apply IH; try assumption.
        rewrite Hm, lookup_insert_ne by exact Hne. exact Hnone.
Qed.

Lemma add_special_keys t token x :
  is_Some (vocab_to_id_ (add_special t token) !! x) ->
  is_Some (vocab_to_id_ t !! x) \/ x = token.
Proof.
  unfold add_special. destruct (vocab_to_id_ t !! token) eqn:E; [auto|].
  destruct (add_entry_vocab t token (int_of_size (List.length (id_to_vocab_ t))))
    as [-> _].
  destruct (decide (x = token)) as [->|Hne]; [auto|].
  rewrite lookup_insert_ne by congruence. auto.
Qed.

Lemma add_special_entries t token x :
  In x (id_to_vocab_ (add_special t token)) ->
  In x (id_to_vocab_ t) \/ x = token.
Proof.
  unfold add_special. destruct (vocab_to_id_ t !! token); [auto|].
  destruct (add_entry_vocab t token (int_of_size (List.length (id_to_vocab_ t))))
    as [_ ->].
  rewrite in_app_iff. simpl. intuition.
Qed.

(** The frequent entries of the table, as the sorted list holds them. *)
Lemma sorted_tokens_counts t texts min_frequency entries sorted_tokens :
  (Z.of_nat (List.length (corpus_tokens t texts)) <= int_max)%Z ->
  iteration_order (token_counts t texts) entries ->
  sorted_tokens ≡ₚ filter (fun p => frequent min_frequency p) entries ->
  NoDup sorted_tokens.*1 /\
  forall token n,
    (token, n) ∈ sorted_tokens <->
    n = Z.of_nat (occurrences token (corpus_tokens t texts)) /\
    0 < occurrences token (corpus_tokens t texts) /\ (min_frequency <= n)%Z.
Proof.
  intros Hlen Hiter Hperm. unfold iteration_order in Hiter. split.
  - rewrite Hperm.
    eapply sublist_NoDup; [|apply fmap_sublist, sublist_filter].
    rewrite Hiter. apply NoDup_fst_map_to_list.
  - intros token n. rewrite Hperm, list_elem_of_filter, Hiter.
    rewrite elem_of_map_to_list.
    assert (Hc : token_counts t texts !! token =
                 if occurrences token (corpus_tokens t texts) =? 0 then None
                 else Some (Z.of_nat
                              (occurrences token (corpus_tokens t texts)))).
    { apply (token_counts_fold t texts ∅ []);
        [intros tok'; rewrite lookup_empty; reflexivity | simpl; exact Hlen]. }
    rewrite Hc. unfold frequent. simpl.
    rewrite Is_true_true, Z.leb_le.
    destruct (Nat.eqb_spec (occurrences token (corpus_tokens t texts)) 0)
      as [E|E].
    + split; [intros [_ H]; discriminate | intros (_ & H & _); lia].
    + split.
      * intros [Hf H]. injection H as <-. split; [reflexivity|].
        split; [lia | exact Hf].
      * intros (-> & _ & Hf). split; [exact Hf | reflexivity].
Qed.

(** X27: when max_vocab_size cuts the vocabulary short, the cut keeps the
    most frequent tokens: if a token of the corpus that is not one of the
    special strings is installed by [build_vocab_from_text], every token
    that occurs strictly more often in the corpus is installed too,
    whatever the traversal and sorting order among equally frequent
    tokens. *)
Theorem build_vocab_keeps_most_frequent (t : TextTokenizer)
    (texts : list string) (min_frequency max_vocab_size : Z)
    (t' : TextTokenizer) (a b : string) :
  (Z.of_nat (List.length (corpus_tokens t texts)) <= int_max)%Z ->
  (int_min + 4 <= max_vocab_size <= int_max)%Z ->
  build_vocab_from_text t texts min_frequency max_vocab_size t' ->
  In b (id_to_vocab_ t') ->
  ~ In b [pad_token_ t; unk_token_ t; cls_token_ t; sep_token_ t] ->
  occurrences b (corpus_tokens t texts) < occurrences a (corpus_tokens t texts) ->
  In a (id_to_vocab_ t').
Proof.
  intros Hlen Hmax (entries & sorted_tokens & Hiter & [Hperm Hsorted] & ->)
    Hb Hnb Hlt.
  destruct (sorted_tokens_counts t texts min_frequency entries sorted_tokens
              Hlen Hiter Hperm) as [Hnd Hcount].
  pose proof (install_vocab_consistent t sorted_tokens max_vocab_size Hmax)
    as [_ Hcons].
  set (t1 := fold_left add_special
               [pad_token_ t; unk_token_ t; cls_token_ t; sep_token_ t]
               (with_vocab t ∅ [])).
  assert (Hmap : vocab_to_id_ (install_vocab t sorted_tokens max_vocab_size) =
                 vocab_to_id_
                   (fold_left (add_regular max_vocab_size) sorted_tokens
                      (t1, 0%Z)).1).
  { rewrite install_vocab_unfold. reflexivity. }
  assert (Hnone : vocab_to_id_ t1 !! b = None).
  { destruct (vocab_to_id_ t1 !! b) eqn:E; [|reflexivity]. exfalso.
    assert (Hs : is_Some (vocab_to_id_ t1 !! b)) by eauto.
    unfold t1 in Hs. cbn [fold_left] in Hs.
    apply add_special_keys in Hs as [Hs| ->]; [|simpl in Hnb; tauto].
    apply add_special_keys in Hs as [Hs| ->]; [|simpl in Hnb; tauto].
    apply add_special_keys in Hs as [Hs| ->]; [|simpl in Hnb; tauto].
    apply add_special_keys in Hs as [Hs| ->]; [|simpl in Hnb; tauto].
    simpl in Hs. rewrite lookup_empty in Hs. destruct Hs as [? Hs].
    discriminate. }
  assert (Hbm : is_Some
                  (vocab_to_id_ (install_vocab t sorted_tokens max_vocab_size)
                     !! b)).
  { apply list_elem_of_In, list_elem_of_lookup_1 in Hb as [i Hi].
    exists (Z.of_nat i). apply Hcons. split; [lia|].
    rewrite Nat2Z.id. exact Hi. }
  rewrite Hmap in Hbm.
  assert (Hbs : exists n, (b, n) ∈ sorted_tokens).
  { assert (Hlist :
      id_to_vocab_ (install_vocab t sorted_tokens max_vocab_size) =
      id_to_vocab_
        (fold_left (add_regular max_vocab_size) sorted_tokens (t1, 0%Z)).1).
    { rewrite install_vocab_unfold. reflexivity. }
    rewrite Hlist in Hb.
    destruct (add_regular_fold_facts max_vocab_size sorted_tokens t1 0%Z)
      as ((extra & He & Hf) & _).
    rewrite He in Hb.
    apply in_app_iff in Hb as [Hb|Hb].
    - exfalso. unfold t1 in Hb. cbn [fold_left] in Hb.
      apply add_special_entries in Hb as [Hb| ->]; [|simpl in Hnb; tauto].
      apply add_special_entries in Hb as [Hb| ->]; [|simpl in Hnb; tauto].
      apply add_special_entries in Hb as [Hb| ->]; [|simpl in Hnb; tauto].
      apply add_special_entries in Hb as [Hb| ->]; [|simpl in Hnb; tauto].
      simpl in Hb. contradiction.
    - apply (proj1 (List.Forall_forall _ _) Hf) in Hb as ([tok n] & Hp & <-).
      exists n. apply list_elem_of_In. exact Hp. }
  destruct Hbs as [nb Hbs].
  pose proof (proj1 (Hcount b nb) Hbs) as (Enb & Hbpos & Hbfreq).
  set (na := Z.of_nat (occurrences a (corpus_tokens t texts))).
  assert (Has : (a, na) ∈ sorted_tokens).
  { apply Hcount. split; [reflexivity|]. subst na. split; lia. }
  destruct (list_elem_of_split _ _ Hbs) as (l1 & l2 & Hsplit).
  subst sorted_tokens.
  assert (Ha1 : (a, na) ∈ l1).
  { apply elem_of_app in Has as [Has|Has]; [exact Has|]. exfalso.
    apply elem_of_cons in Has as [Has|Has].
    - injection Has as Hab Hn. subst na. lia.
    - pose proof (StronglySorted_app_1_elem_of by_frequency (l1 ++ [(b, nb)])
                    l2 (b, nb) (a, na)) as Hord.
      rewrite <- app_assoc in Hord. specialize (Hord Hsorted).
      unfold by_frequency in Hord. simpl in Hord. subst na.
      specialize (Hord ltac:(apply elem_of_app; right; left) Has). lia. }
  pose proof (add_regular_fold_prefix max_vocab_size l1 t1 0%Z (b, nb) l2 Hmax
                Hnd Hnone Hbm (a, na) Ha1) as [id Hid].
  rewrite <- Hmap in Hid. simpl in Hid.
  apply Hcons in Hid as [_ Hid].
  apply list_elem_of_In. eapply list_elem_of_lookup_2. exact Hid.
Qed.

Lemma build_vocab_keeps_most_frequent_witness :
  In "c"
    (id_to_vocab_
       (install_vocab demo_tokenizer [("c", 3%Z); ("b", 2%Z); ("a", 1%Z)] 6)) /\
  id_to_vocab_
    (install_vocab demo_tokenizer [("c", 3%Z); ("b", 2%Z); ("a", 1%Z)] 6) =
  ["[PAD]"; "[UNK]"; "[CLS]"; "[SEP]"; "c"; "b"].
Proof.
  split; [|vm_compute; reflexivity].
  apply (build_vocab_keeps_most_frequent demo_tokenizer ["b a b c c c"] 1 6
           _ "c" "b").
  - vm_compute. discriminate.
  - vm_compute. split; discriminate.
  - exists [("c", 3%Z); ("a", 1%Z); ("b", 2%Z)],
      [("c", 3%Z); ("b", 2%Z); ("a", 1%Z)].
    split; [vm_compute; reflexivity|]. split; [|reflexivity].
    split; [vm_compute; apply perm_skip, perm_swap|].
    apply (bool_decide_unpack _). vm_compute. exact I.
  - vm_compute. auto 10.
  - vm_compute. intuition discriminate.
  - vm_compute. lia.
Defined.
